(** * flap sniper bot: the position monitor and the subscription manager

    A shallow embedding of [stoploss/stoploss.go] (the stop-loss /
    take-profit monitor) and of the reconnect logic of the event listener,
    together with the properties the design document states about them.

    Conventions.
    - [*big.Int] values are [Z]; Go's [int] is a 64-bit signed integer kept
      as a [Z] (wrap-around written out where a conversion happens).
    - A Go function returning [(T, error)] returns a [result T].
    - Calls to the trade executor and to the chain client are oracle
      functions over an abstract [World]; every call is also recorded in a
      trace of events, so that "which calls were made, with which
      arguments" can be stated.
    - A run-time panic is the [None] outcome of the monad. *)

From Stdlib Require Import ZArith NArith Lia Strings.Byte Ascii String.
From stdpp Require Import gmap strings list pretty.

Local Open Scope Z_scope.

(** ** Results of fallible calls *)

Definition error := string.

Inductive result (A : Type) : Type :=
| Ok (a : A)
| Err (e : error).
Arguments Ok {A} a.
Arguments Err {A} e.

Definition is_ok {A} (r : result A) : bool :=
  match r with Ok _ => true | Err _ => false end.

(** ** The fragment of [math/big] the monitor uses *)

Module BigInt.

(** [x.Cmp(y)]: -1, 0 or +1. *)
Definition Cmp (x y : Z) : Z :=
  if x <? y then -1 else if x =? y then 0 else 1.

(** [z.Div(x, y)]: Euclidean division; a zero divisor panics. *)
Definition Div (x y : Z) : option Z :=
  if y =? 0 then None
  else if 0 <? y then Some (x / y)
  else Some (- (x / - y)).

Definition wrap64 (z : Z) : Z := (z + 2 ^ 63) mod 2 ^ 64 - 2 ^ 63.

(** [x.Int64()]: the low 64 bits of the magnitude read as an [int64],
    negated (with wrap-around) for a negative [x]. *)
Definition Int64 (x : Z) : Z :=
  let v := wrap64 (Z.abs x mod 2 ^ 64) in
  if x <? 0 then wrap64 (- v) else v.

End BigInt.

(** ** [calculateDropPercent] *)

(** [func (m *StopLossMonitor) calculateDropPercent(buyPrice, currentPrice
    *big.Int) int].  The receiver is not used. *)
Definition calculateDropPercent (buyPrice currentPrice : Z) : option Z :=
  if BigInt.Cmp buyPrice 0 =? 0 then Some 0
  else
    let diff := buyPrice - currentPrice in
    if BigInt.Cmp diff 0 <=? 0 then Some 0
    else
      let percent := diff * 100 in
      match BigInt.Div percent buyPrice with
      | None => None
      | Some percent => Some (BigInt.Int64 percent)
      end.

(** ** Position keys *)

(** [common.Address] is a 20-byte array. *)
Definition Address := list Byte.byte.

Module Key.

Section Hex.

(** The Keccak-256 digest used by the checksum casing of [Address.Hex];
    only its bytes' high bits matter here, so it stays a parameter. *)
Variable keccak256 : list Byte.byte -> list Byte.byte.

Definition hextable : list ascii :=
  list_ascii_of_string "0123456789abcdef".

Definition hexdigit (n : N) : ascii :=
  nth (N.to_nat n) hextable "0"%char.

(** [hex.Encode]: two lower-case digits per byte, high nibble first. *)
Definition hex_Encode (src : list Byte.byte) : list ascii :=
  flat_map (fun b => [hexdigit (N.shiftr (Byte.to_N b) 4);
                      hexdigit (N.land (Byte.to_N b) 0x0f)]) src.

(** One step of the loop of [checksumHex], at offset [i] of [buf[2:]]: a
    letter is raised to upper case when the matching nibble of the digest
    is above 7. *)
Definition checksumChar (hash : list Byte.byte) (i : nat) (c : ascii) : ascii :=
  let hashByte := Byte.to_N (nth (i / 2) hash Byte.x00) in
  let hashByte :=
    if Nat.even i then N.shiftr hashByte 4 else N.land hashByte 0xf in
  if (N_of_ascii "9" <? N_of_ascii c)%N && (7 <? hashByte)%N
  then ascii_of_N (N_of_ascii c - 32)
  else c.

(** [Address.Hex]: ["0x"] followed by the EIP-55 checksummed digits. *)
Definition Hex (a : Address) : string :=
  let buf := hex_Encode a in
  let hash := keccak256 (map byte_of_ascii buf) in
  String "0" (String "x"
    (string_of_list_ascii (imap (checksumChar hash) buf))).

(** [rune(walletIndex)]: conversion of an [int] to [int32] keeps the low
    32 bits. *)
Definition wrap32 (z : Z) : Z := (z + 2 ^ 31) mod 2 ^ 32 - 2 ^ 31.

(** [byte(x)] *)
Definition byte_of (z : Z) : Z := z mod 256.

Definition rune1Max : Z := 0x7F.
Definition rune2Max : Z := 0x7FF.
Definition rune3Max : Z := 0xFFFF.
Definition maxRune : Z := 0x10FFFF.
Definition surrogateMin : Z := 0xD800.
Definition surrogateMax : Z := 0xDFFF.
Definition runeError : Z := 0xFFFD.

Definition encode3 (r : Z) : list Z :=
  [ Z.lor 0xE0 (byte_of (Z.shiftr r 12));
    Z.lor 0x80 (Z.land (byte_of (Z.shiftr r 6)) 0x3F);
    Z.lor 0x80 (Z.land (byte_of r) 0x3F) ].

Definition encode4 (r : Z) : list Z :=
  [ Z.lor 0xF0 (byte_of (Z.shiftr r 18));
    Z.lor 0x80 (Z.land (byte_of (Z.shiftr r 12)) 0x3F);
    Z.lor 0x80 (Z.land (byte_of (Z.shiftr r 6)) 0x3F);
    Z.lor 0x80 (Z.land (byte_of r) 0x3F) ].

(** The UTF-8 encoder behind the conversion [string(r)] of a rune: code
    points above [maxRune], surrogates and negative values are replaced by
    [runeError]. *)
Definition encoderune (r : Z) : list Z :=
  let i := r mod 2 ^ 32 in
  if i <=? rune1Max then [ byte_of r ]
  else if i <=? rune2Max then
    [ Z.lor 0xC0 (byte_of (Z.shiftr r 6));
      Z.lor 0x80 (Z.land (byte_of r) 0x3F) ]
  else if (maxRune <? i) || ((surrogateMin <=? i) && (i <=? surrogateMax))
  then encode3 runeError
  else if i <=? rune3Max then encode3 r
  else encode4 r.

Definition string_of_bytes (bs : list Z) : string :=
  string_of_list_ascii (map (fun b => ascii_of_N (Z.to_N b)) bs).

(** [string(rune(walletIndex))] *)
Definition runeString (walletIndex : Z) : string :=
  string_of_bytes (encoderune (wrap32 walletIndex)).

(** [func positionKey(walletIndex int, tokenAddress common.Address) string] *)
Definition positionKey (walletIndex : Z) (tokenAddress : Address) : string :=
  (Hex tokenAddress ++ "-" ++ runeString walletIndex)%string.

End Hex.

(** The value of a hexadecimal digit of either case. *)
Definition unhexChar (c : ascii) : N :=
  let n := N_of_ascii c in
  (if n <? 58 then n - 48 else if n <? 71 then n - 55 else n - 87)%N.

(** The two nibbles of every byte, high nibble first. *)
Definition nibbles (a : list Byte.byte) : list N :=
  flat_map (fun b => [N.shiftr (Byte.to_N b) 4; N.land (Byte.to_N b) 0x0f]) a.

(** The wallet indices that are Unicode scalar values: [string(rune(i))]
    is their UTF-8 encoding. *)
Definition scalarValue (walletIndex : Z) : Prop :=
  0 <= walletIndex < surrogateMin \/
  surrogateMax < walletIndex <= maxRune.

(** Reading a UTF-8 sequence of one to four bytes back. *)
Definition decoderune (bs : list Z) : Z :=
  match bs with
  | [b0] => b0
  | [b0; b1] => (b0 - 0xC0) * 64 + (b1 - 0x80)
  | [b0; b1; b2] => (b0 - 0xE0) * 4096 + (b1 - 0x80) * 64 + (b2 - 0x80)
  | [b0; b1; b2; b3] =>
      (b0 - 0xF0) * 262144 + (b1 - 0x80) * 4096 + (b2 - 0x80) * 64
      + (b3 - 0x80)
  | _ => 0
  end.

End Key.

(** ** The position monitor ([stoploss/stoploss.go]) *)

(** A [*contracts.PancakeSwapper]: the identity of one wallet's trade
    executor. *)
Definition SwapperRef := nat.

Definition TakeProfitSellPercent : Z := 70.

Record Position : Type := mkPosition {
  TokenAddress : Address;
  BuyPriceWei : Z;
  TokenAmount : Z;
  InitialTokenAmount : Z;
  WalletIndex : Z;
  Swapper : SwapperRef;
  Sold : bool;
  Approved : bool;
  TakeProfitDone : bool
}.

Definition set_TokenAmount (v : Z) (p : Position) : Position :=
  mkPosition (TokenAddress p) (BuyPriceWei p) v (InitialTokenAmount p)
    (WalletIndex p) (Swapper p) (Sold p) (Approved p) (TakeProfitDone p).

Definition set_Approved (v : bool) (p : Position) : Position :=
  mkPosition (TokenAddress p) (BuyPriceWei p) (TokenAmount p)
    (InitialTokenAmount p) (WalletIndex p) (Swapper p) (Sold p) v
    (TakeProfitDone p).

Definition set_TakeProfitDone (v : bool) (p : Position) : Position :=
  mkPosition (TokenAddress p) (BuyPriceWei p) (TokenAmount p)
    (InitialTokenAmount p) (WalletIndex p) (Swapper p) (Sold p) (Approved p) v.

(** The monitor's data; the mutex and the cancellation context are not part
    of the sequential model (every method below runs under the lock). *)
Record StopLossMonitor : Type := mkMonitor {
  positions : gmap string Position;
  stopLossPercent : Z
}.

Definition NewStopLossMonitor (stopLossPercent : Z) : StopLossMonitor :=
  mkMonitor ∅ stopLossPercent.

(** The two log lines that mark a trigger. *)
Inductive LogLine : Type :=
| TakeProfitTriggered (walletIndex : Z)
| StopLossTriggered (walletIndex : Z) (token : Address) (dropPercent : Z).

(** What the monitor does to the outside world, in order. *)
Inductive Event : Type :=
| EvGetTokenBalance (s : SwapperRef) (token : Address) (r : result Z)
| EvGetTokenPrice (s : SwapperRef) (token : Address) (amount : Z) (r : result Z)
| EvGetTokenPriceInUSDT (s : SwapperRef) (token : Address) (amount : Z)
    (r : result Z)
| EvApproveToken (s : SwapperRef) (token : Address) (amount : Z)
    (r : result string)
| EvSellToken (s : SwapperRef) (token : Address) (amount : Z)
    (r : result string)
| EvSleep (seconds : Z)
| EvLog (l : LogLine).

(** The trade executor: every call may fail and may change the world. *)
Class TradeExecutor (World : Type) : Type := {
  GetTokenBalance : SwapperRef -> Address -> World -> result Z * World;
  GetTokenPrice : SwapperRef -> Address -> Z -> World -> result Z * World;
  GetTokenPriceInUSDT :
    SwapperRef -> Address -> Z -> World -> result Z * World;
  ApproveToken : SwapperRef -> Address -> Z -> World -> result string * World;
  SellToken : SwapperRef -> Address -> Z -> World -> result string * World
}.

Module StopLoss.

Section Monitor.

Context {World : Type} {TE : TradeExecutor World}.

(** The digest behind [Address.Hex], see [Key.Hex]. *)
Variable keccak256 : list Byte.byte -> list Byte.byte.

(** The test [priceUSDT >= TakeProfitPriceUSDT] of [checkTakeProfit] as a
    predicate of the quoted amount [usdtAmount]: the source divides by
    [10^18] in [big.Float], rounds to [float64] and compares with [0.0002].
    The embedding keeps the comparison abstract. *)
Variable priceReached : Z -> bool.

(** *** The monad: world passing, a trace of events, [None] for a panic *)

Definition M (A : Type) : Type := World -> option (A * World * list Event).

Definition ret {A : Type} (a : A) : M A := fun w => Some (a, w, []).

Definition bind {A B : Type} (m : M A) (f : A -> M B) : M B := fun w =>
  match m w with
  | None => None
  | Some (a, w1, t1) =>
      match f a w1 with
      | None => None
      | Some (b, w2, t2) => Some (b, w2, t1 ++ t2)
      end
  end.

Definition panic {A : Type} : M A := fun _ => None.

Definition emit (e : Event) : M unit := fun w => Some (tt, w, [e]).

Notation "'let*' x ':=' c1 'in' c2" := (bind c1 (fun x => c2))
  (at level 10, x pattern, c1 at level 100, c2 at level 200).

Definition callGetTokenBalance (s : SwapperRef) (token : Address)
  : M (result Z) := fun w =>
  let '(r, w') := GetTokenBalance s token w in
  Some (r, w', [EvGetTokenBalance s token r]).

Definition callGetTokenPrice (s : SwapperRef) (token : Address) (amount : Z)
  : M (result Z) := fun w =>
  let '(r, w') := GetTokenPrice s token amount w in
  Some (r, w', [EvGetTokenPrice s token amount r]).

Definition callGetTokenPriceInUSDT (s : SwapperRef) (token : Address)
  (amount : Z) : M (result Z) := fun w =>
  let '(r, w') := GetTokenPriceInUSDT s token amount w in
  Some (r, w', [EvGetTokenPriceInUSDT s token amount r]).

Definition callApproveToken (s : SwapperRef) (token : Address) (amount : Z)
  : M (result string) := fun w =>
  let '(r, w') := ApproveToken s token amount w in
  Some (r, w', [EvApproveToken s token amount r]).

Definition callSellToken (s : SwapperRef) (token : Address) (amount : Z)
  : M (result string) := fun w =>
  let '(r, w') := SellToken s token amount w in
  Some (r, w', [EvSellToken s token amount r]).

(** *** [executeSell] *)

Definition maxApprove : Z :=
  115792089237316195423570985008687907853269984665640564039457584007913129639935.

(** Lines 207-215: the sell itself; its outcome is only logged. *)
Definition sellTokens (pos : Position) (amount : Z) : M Position :=
  let* _ := callSellToken (Swapper pos) (TokenAddress pos) amount in
  ret pos.

(** [func (m *StopLossMonitor) executeSell(pos *Position, amount *big.Int)];
    the position is returned with the mutation of [pos.Approved]. *)
Definition executeSell (pos : Position) (amount : Z) : M Position :=
  if negb (Approved pos) then
    let* r := callApproveToken (Swapper pos) (TokenAddress pos) maxApprove in
    match r with
    | Err _ => ret pos
    | Ok _ =>
        let pos := set_Approved true pos in
        let* _ := emit (EvSleep 3) in
        sellTokens pos amount
    end
  else sellTokens pos amount.

(** *** [checkTakeProfit] *)

Definition checkTakeProfit (pos : Position) : M Position :=
  let oneToken := 10 ^ 18 in
  let oneToken :=
    if BigInt.Cmp (TokenAmount pos) oneToken <? 0 then TokenAmount pos
    else oneToken in
  let* r := callGetTokenPriceInUSDT (Swapper pos) (TokenAddress pos) oneToken in
  match r with
  | Err _ => ret pos
  | Ok usdtAmount =>
      if priceReached usdtAmount then
        let* _ := emit (EvLog (TakeProfitTriggered (WalletIndex pos))) in
        let sellAmount := InitialTokenAmount pos * TakeProfitSellPercent in
        match BigInt.Div sellAmount 100 with
        | None => panic
        | Some sellAmount =>
            let sellAmount :=
              if 0 <? BigInt.Cmp sellAmount (TokenAmount pos)
              then TokenAmount pos else sellAmount in
            let* pos :=
              (if 0 <? BigInt.Cmp sellAmount 0
               then executeSell pos sellAmount else ret pos) in
            ret (set_TakeProfitDone true pos)
        end
      else ret pos
  end.

(** *** [checkPositions] *)

(** Lines 123-134 of the loop body: the stop-loss decision.  The boolean
    tells whether [delete(m.positions, key)] was executed. *)
Definition checkStopLoss (stopLossPercent : Z) (pos : Position)
  : M (Position * bool) :=
  let* r := callGetTokenPrice (Swapper pos) (TokenAddress pos)
              (TokenAmount pos) in
  match r with
  | Err _ => ret (pos, false)
  | Ok currentPrice =>
      match calculateDropPercent (BuyPriceWei pos) currentPrice with
      | None => panic
      | Some dropPercent =>
          if stopLossPercent <=? dropPercent then
            let* _ := emit (EvLog (StopLossTriggered (WalletIndex pos)
                                     (TokenAddress pos) dropPercent)) in
            let* pos := executeSell pos (TokenAmount pos) in
            ret (pos, true)
          else ret (pos, false)
      end
  end.

(** The body of the loop of [checkPositions] for one entry of the map. *)
Definition checkPosition (stopLossPercent : Z) (pos : Position)
  : M (Position * bool) :=
  if Sold pos then ret (pos, false)
  else
    let* r := callGetTokenBalance (Swapper pos) (TokenAddress pos) in
    match r with
    | Err _ => ret (pos, false)
    | Ok balance =>
        if BigInt.Cmp balance 0 <=? 0 then ret (pos, false)
        else
          let pos := set_TokenAmount balance pos in
          let* pos :=
            (if negb (TakeProfitDone pos) then checkTakeProfit pos
             else ret pos) in
          checkStopLoss stopLossPercent pos
    end.

(** The map holds pointers, so the mutations of [pos] are visible through
    the map: the entry is written back unless it is deleted. *)
Definition storePosition (key : string) (out : Position * bool)
  (m : StopLossMonitor) : StopLossMonitor :=
  let '(pos, deleted) := out in
  mkMonitor
    (if deleted then delete key (positions m)
     else <[key := pos]> (positions m))
    (stopLossPercent m).

(** [for key, pos := range m.positions] along the keys [keys]; Go leaves
    the order of a map iteration unspecified. *)
Fixpoint checkPositionsIn (keys : list string) (m : StopLossMonitor)
  : M StopLossMonitor :=
  match keys with
  | [] => ret m
  | key :: keys =>
      match positions m !! key with
      | None => checkPositionsIn keys m
      | Some pos =>
          let* out := checkPosition (stopLossPercent m) pos in
          checkPositionsIn keys (storePosition key out m)
      end
  end.

(** [func (m *StopLossMonitor) checkPositions()], for an iteration order
    [order] of the map. *)
Definition checkPositions (order : gmap string Position -> list string)
  (m : StopLossMonitor) : M StopLossMonitor :=
  checkPositionsIn (order (positions m)) m.

(** *** [AddPosition] *)

Definition AddPosition (m : StopLossMonitor) (walletIndex : Z)
  (swapper : SwapperRef) (tokenAddress : Address) (buyAmountWei : Z)
  : M StopLossMonitor :=
  let* r := callGetTokenBalance swapper tokenAddress in
  match r with
  | Err _ => ret m
  | Ok balance =>
      if BigInt.Cmp balance 0 <=? 0 then ret m
      else
        let* r := callGetTokenPrice swapper tokenAddress balance in
        let currentPrice :=
          match r with Ok p => p | Err _ => buyAmountWei end in
        let key := Key.positionKey keccak256 walletIndex tokenAddress in
        ret (mkMonitor
               (<[key := mkPosition tokenAddress currentPrice balance balance
                           walletIndex swapper false false false]>
                  (positions m))
               (stopLossPercent m))
  end.

(** *** The life of one position *)

(** The successive evaluations of one position, one world per tick (the
    world at the moment the loop reaches the position), until the position
    is deleted.  The result is the trace of the position's events and its
    final state, [None] once deleted. *)
Fixpoint lifetime (stopLossPercent : Z) (pos : Position) (ticks : list World)
  : option (list Event * option Position) :=
  match ticks with
  | [] => Some ([], Some pos)
  | w :: ticks =>
      match checkPosition stopLossPercent pos w with
      | None => None
      | Some ((pos', deleted), _, tr) =>
          if deleted then Some (tr, None)
          else
            match lifetime stopLossPercent pos' ticks with
            | None => None
            | Some (tr', final) => Some (tr ++ tr', final)
            end
      end
  end.

(** *** What one call can do

    The possible results of each function as a relation between the
    position before, the position after and the events in between.  The
    functions above are shown to land in these relations; the properties
    of the monitor are then read off the relations. *)

(** [min (initial * 70 / 100) current], the amount of the partial sell. *)
Definition takeProfitAmount (pos : Position) : Z :=
  Z.min (InitialTokenAmount pos * TakeProfitSellPercent / 100)
        (TokenAmount pos).

Inductive SellOutcome (pos : Position) (amount : Z)
  : Position -> list Event -> Prop :=
| sell_approved r :
    Approved pos = true ->
    SellOutcome pos amount pos
      [EvSellToken (Swapper pos) (TokenAddress pos) amount r]
| sell_approve_failed e :
    Approved pos = false ->
    SellOutcome pos amount pos
      [EvApproveToken (Swapper pos) (TokenAddress pos) maxApprove (Err e)]
| sell_after_approve tx r :
    Approved pos = false ->
    SellOutcome pos amount (set_Approved true pos)
      [EvApproveToken (Swapper pos) (TokenAddress pos) maxApprove (Ok tx);
       EvSleep 3;
       EvSellToken (Swapper pos) (TokenAddress pos) amount r].

(** The amount for which [checkTakeProfit] asks a quote. *)
Definition quotedUnit (pos : Position) : Z :=
  if TokenAmount pos <? 10 ^ 18 then TokenAmount pos else 10 ^ 18.

Inductive TakeProfitOutcome (pos : Position)
  : Position -> list Event -> Prop :=
| tp_quote_failed e :
    TakeProfitOutcome pos pos
      [EvGetTokenPriceInUSDT (Swapper pos) (TokenAddress pos)
         (quotedUnit pos) (Err e)]
| tp_below u :
    priceReached u = false ->
    TakeProfitOutcome pos pos
      [EvGetTokenPriceInUSDT (Swapper pos) (TokenAddress pos)
         (quotedUnit pos) (Ok u)]
| tp_nothing_to_sell u :
    priceReached u = true ->
    takeProfitAmount pos <= 0 ->
    TakeProfitOutcome pos (set_TakeProfitDone true pos)
      [EvGetTokenPriceInUSDT (Swapper pos) (TokenAddress pos)
         (quotedUnit pos) (Ok u);
       EvLog (TakeProfitTriggered (WalletIndex pos))]
| tp_sell u pos1 tr1 :
    priceReached u = true ->
    0 < takeProfitAmount pos ->
    SellOutcome pos (takeProfitAmount pos) pos1 tr1 ->
    TakeProfitOutcome pos (set_TakeProfitDone true pos1)
      (EvGetTokenPriceInUSDT (Swapper pos) (TokenAddress pos)
         (quotedUnit pos) (Ok u)
       :: EvLog (TakeProfitTriggered (WalletIndex pos)) :: tr1).

Inductive StopLossOutcome (stopLossPercent : Z) (pos : Position)
  : Position * bool -> list Event -> Prop :=
| sl_quote_failed e :
    StopLossOutcome stopLossPercent pos (pos, false)
      [EvGetTokenPrice (Swapper pos) (TokenAddress pos) (TokenAmount pos)
         (Err e)]
| sl_hold price drop :
    calculateDropPercent (BuyPriceWei pos) price = Some drop ->
    drop < stopLossPercent ->
    StopLossOutcome stopLossPercent pos (pos, false)
      [EvGetTokenPrice (Swapper pos) (TokenAddress pos) (TokenAmount pos)
         (Ok price)]
| sl_fire price drop pos1 tr1 :
    calculateDropPercent (BuyPriceWei pos) price = Some drop ->
    stopLossPercent <= drop ->
    SellOutcome pos (TokenAmount pos) pos1 tr1 ->
    StopLossOutcome stopLossPercent pos (pos1, true)
      (EvGetTokenPrice (Swapper pos) (TokenAddress pos) (TokenAmount pos)
         (Ok price)
       :: EvLog (StopLossTriggered (WalletIndex pos) (TokenAddress pos) drop)
       :: tr1).

Inductive CheckOutcome (stopLossPercent : Z) (pos : Position)
  : Position * bool -> list Event -> Prop :=
| co_sold :
    Sold pos = true ->
    CheckOutcome stopLossPercent pos (pos, false) []
| co_balance_failed e :
    Sold pos = false ->
    CheckOutcome stopLossPercent pos (pos, false)
      [EvGetTokenBalance (Swapper pos) (TokenAddress pos) (Err e)]
| co_no_balance balance :
    Sold pos = false ->
    balance <= 0 ->
    CheckOutcome stopLossPercent pos (pos, false)
      [EvGetTokenBalance (Swapper pos) (TokenAddress pos) (Ok balance)]
| co_take_profit balance pos1 tr1 out tr2 :
    Sold pos = false ->
    0 < balance ->
    TakeProfitDone pos = false ->
    TakeProfitOutcome (set_TokenAmount balance pos) pos1 tr1 ->
    StopLossOutcome stopLossPercent pos1 out tr2 ->
    CheckOutcome stopLossPercent pos out
      (EvGetTokenBalance (Swapper pos) (TokenAddress pos) (Ok balance)
       :: tr1 ++ tr2)
| co_stop_loss_only balance out tr2 :
    Sold pos = false ->
    0 < balance ->
    TakeProfitDone pos = true ->
    StopLossOutcome stopLossPercent (set_TokenAmount balance pos) out tr2 ->
    CheckOutcome stopLossPercent pos out
      (EvGetTokenBalance (Swapper pos) (TokenAddress pos) (Ok balance)
       :: tr2).

(** *** The states the monitor can be in *)

Inductive reachable : StopLossMonitor -> Prop :=
| reach_new stopLossPercent :
    reachable (NewStopLossMonitor stopLossPercent)
| reach_AddPosition m walletIndex swapper tokenAddress buyAmountWei w m' w' tr :
    reachable m ->
    AddPosition m walletIndex swapper tokenAddress buyAmountWei w
      = Some (m', w', tr) ->
    reachable m'
| reach_checkPositions m keys w m' w' tr :
    reachable m ->
    checkPositionsIn keys m w = Some (m', w', tr) ->
    reachable m'.

(** *** Counting events *)

Fixpoint count (P : Event -> bool) (tr : list Event) : nat :=
  match tr with
  | [] => 0%nat
  | e :: tr => ((if P e then 1 else 0) + count P tr)%nat
  end.

Definition isApproveOk (e : Event) : bool :=
  match e with EvApproveToken _ _ _ (Ok _) => true | _ => false end.

Definition isApprove (e : Event) : bool :=
  match e with EvApproveToken _ _ _ _ => true | _ => false end.

Definition isTakeProfitLog (e : Event) : bool :=
  match e with EvLog (TakeProfitTriggered _) => true | _ => false end.

Definition isStopLossLog (e : Event) : bool :=
  match e with EvLog (StopLossTriggered _ _ _) => true | _ => false end.

Definition isUSDTQuery (e : Event) : bool :=
  match e with EvGetTokenPriceInUSDT _ _ _ _ => true | _ => false end.

(** The amounts handed to [SellToken], in order. *)
Fixpoint soldAmounts (tr : list Event) : list Z :=
  match tr with
  | [] => []
  | EvSellToken _ _ amount _ :: tr => amount :: soldAmounts tr
  | _ :: tr => soldAmounts tr
  end.

Definition isBalanceQuery (e : Event) : bool :=
  match e with EvGetTokenBalance _ _ _ => true | _ => false end.

Definition isPriceQuery (e : Event) : bool :=
  match e with EvGetTokenPrice _ _ _ _ => true | _ => false end.

(** Replaying a trace against the approved flag: every call of
    [ApproveToken] finds the flag unset, and a successful call sets it. *)
Fixpoint approvalsGated (approved : bool) (tr : list Event) : Prop :=
  match tr with
  | [] => True
  | EvApproveToken _ _ _ r :: tr =>
      approved = false /\ approvalsGated (is_ok r) tr
  | _ :: tr => approvalsGated approved tr
  end.

(** The flag after a trace: set before, or set by a successful approval. *)
Definition approvedAfter (approved : bool) (tr : list Event) : bool :=
  approved || (0 <? count isApproveOk tr)%nat.

(** The fields of a position that no method of the monitor writes. *)
Definition sameIdentity (p q : Position) : Prop :=
  TokenAddress q = TokenAddress p /\ BuyPriceWei q = BuyPriceWei p /\
  InitialTokenAmount q = InitialTokenAmount p /\
  WalletIndex q = WalletIndex p /\ Swapper q = Swapper p /\
  Sold q = Sold p.

End Monitor.

End StopLoss.

(** A trade executor whose answers are fixed by the world: enough to run
    the monitor on concrete inputs. *)
Record Script : Type := mkScript {
  sBalance : result Z;
  sPriceUSDT : result Z;
  sPrice : result Z;
  sApprove : result string;
  sSell : result string
}.

#[export] Instance scripted : TradeExecutor Script := {|
  GetTokenBalance := fun _ _ w => (sBalance w, w);
  GetTokenPrice := fun _ _ _ w => (sPrice w, w);
  GetTokenPriceInUSDT := fun _ _ _ w => (sPriceUSDT w, w);
  ApproveToken := fun _ _ _ w => (sApprove w, w);
  SellToken := fun _ _ _ w => (sSell w, w)
|}.

(** ** The subscription manager (the listener's reconnect logic) *)

Module Listener.

Definition maxReconnectAttempts : Z := 10.

(** [reconnectDelay], in seconds. *)
Definition reconnectDelay : Z := 5.

(** An [*ethclient.Client]. *)
Definition ClientRef := nat.

(** The fields of [EventListener] the reconnect logic touches;
    [client = None] is the nil pointer. *)
Record EventListener : Type := mkListener {
  wsURL : string;
  client : option ClientRef
}.

Inductive Event : Type :=
| EvClose (c : ClientRef)
| EvDial (url : string) (r : result ClientRef)
| EvBlockNumber (c : ClientRef) (r : result Z)
| EvSleep (seconds : Z)
| EvSubscribe (c : option ClientRef) (r : result unit).

(** The chain client and the surrounding context.  [Subscribe] stands for
    one run of [l.subscribe(ctx)] up to its return (its event loop is
    concurrent and not part of this model); [CtxDone] is the non-blocking
    test of [ctx.Done()]. *)
Class ChainClient (World : Type) : Type := {
  Dial : string -> World -> result ClientRef * World;
  BlockNumber : ClientRef -> World -> result Z * World;
  Close : ClientRef -> World -> World;
  Subscribe : option ClientRef -> World -> result unit * World;
  CtxDone : World -> bool
}.

Section Reconnect.

Context {World : Type} {CC : ChainClient World}.

Definition M (A : Type) : Type := World -> option (A * World * list Event).

Definition ret {A : Type} (a : A) : M A := fun w => Some (a, w, []).

Definition bind {A B : Type} (m : M A) (f : A -> M B) : M B := fun w =>
  match m w with
  | None => None
  | Some (a, w1, t1) =>
      match f a w1 with
      | None => None
      | Some (b, w2, t2) => Some (b, w2, t1 ++ t2)
      end
  end.

Definition emit (e : Event) : M unit := fun w => Some (tt, w, [e]).

Notation "'let*' x ':=' c1 'in' c2" := (bind c1 (fun x => c2))
  (at level 10, x pattern, c1 at level 100, c2 at level 200).

Definition callDial (url : string) : M (result ClientRef) := fun w =>
  let '(r, w') := Dial url w in Some (r, w', [EvDial url r]).

Definition callBlockNumber (c : ClientRef) : M (result Z) := fun w =>
  let '(r, w') := BlockNumber c w in Some (r, w', [EvBlockNumber c r]).

Definition callClose (c : ClientRef) : M unit := fun w =>
  Some (tt, Close c w, [EvClose c]).

Definition callSubscribe (c : option ClientRef) : M (result unit) := fun w =>
  let '(r, w') := Subscribe c w in Some (r, w', [EvSubscribe c r]).

Definition ctxDone : M bool := fun w => Some (CtxDone w, w, []).

Definition reconnectFailed : error :=
  "failed to reconnect after 10 attempts"%string.

(** The loop [for attempt := 1; attempt <= maxReconnectAttempts; attempt++]
    of [reconnect], along the attempt numbers still to run, and the
    [return fmt.Errorf(...)] after it. *)
Fixpoint reconnectAttempts (attempts : list Z) (l : EventListener)
  : M (EventListener * result unit) :=
  match attempts with
  | [] => ret (l, Err reconnectFailed)
  | attempt :: attempts =>
      let* r := callDial (wsURL l) in
      match r with
      | Err _ =>
          let* _ := emit (EvSleep (reconnectDelay * attempt)) in
          reconnectAttempts attempts l
      | Ok c =>
          let* r := callBlockNumber c in
          match r with
          | Err _ =>
              let* _ := callClose c in
              let* _ := emit (EvSleep (reconnectDelay * attempt)) in
              reconnectAttempts attempts l
          | Ok _ => ret (mkListener (wsURL l) (Some c), Ok tt)
          end
      end
  end.

(** [func (l *EventListener) reconnect() error] *)
Definition reconnect (l : EventListener) : M (EventListener * result unit) :=
  let* _ := (match client l with
             | Some c => callClose c
             | None => ret tt
             end) in
  reconnectAttempts (seqZ 1 maxReconnectAttempts) l.

(** [func (l *EventListener) Start(ctx context.Context) error], for at most
    [fuel] rounds of its endless loop.  The outcome is [Some r] when [Start]
    returned [r] and [None] when the loop is still running after [fuel]
    rounds. *)
Fixpoint Start (fuel : nat) (l : EventListener)
  : M (EventListener * option (result unit)) :=
  match fuel with
  | O => ret (l, None)
  | S fuel =>
      let* done := ctxDone in
      if done then ret (l, Some (Ok tt))
      else
        let* r := callSubscribe (client l) in
        match r with
        | Ok _ => Start fuel l
        | Err _ =>
            let* done := ctxDone in
            if done then ret (l, Some (Ok tt))
            else
              let* out := reconnect l in
              match snd out with
              | Err reconnErr => ret (fst out, Some (Err reconnErr))
              | Ok _ => Start fuel (fst out)
              end
        end
  end.

Definition isDial (e : Event) : bool :=
  match e with EvDial _ _ => true | _ => false end.

Definition isValidated (e : Event) : bool :=
  match e with EvBlockNumber _ (Ok _) => true | _ => false end.

Fixpoint count (P : Event -> bool) (tr : list Event) : nat :=
  match tr with
  | [] => 0%nat
  | e :: tr => ((if P e then 1 else 0) + count P tr)%nat
  end.

End Reconnect.

(** A network whose answers are fixed by the world. *)
Record Net : Type := mkNet {
  netDial : result ClientRef;
  netBlockNumber : result Z;
  netSubscribe : result unit;
  netDone : bool
}.

#[export] Instance scriptedNet : ChainClient Net := {|
  Dial := fun _ w => (netDial w, w);
  BlockNumber := fun _ w => (netBlockNumber w, w);
  Close := fun _ w => w;
  Subscribe := fun _ w => (netSubscribe w, w);
  CtxDone := netDone
|}.

End Listener.

(** ** Concrete inputs for the examples *)

(** A digest without high bits: [Key.Hex] then raises no letter. *)
Definition demoDigest : list Byte.byte -> list Byte.byte := fun _ => [].

(** The threshold [0.0002] of [10^18] on integers. *)
Definition demoReached (usdtAmount : Z) : bool :=
  2 * 10 ^ 14 <=? usdtAmount.

Definition demoToken : Address := repeat Byte.xab 20.

(** Wallet 0 holds 1000 units bought at a value of 100. *)
Definition demoPosition : Position :=
  mkPosition demoToken 100 1000 1000 0 0%nat false false false.

Definition demoMonitor : StopLossMonitor :=
  mkMonitor {[ "k"%string := demoPosition ]} 20.

(** The value fell to 75 and the approval fails. *)
Definition approvalDown : Script :=
  mkScript (Ok 1000) (Err "no route"%string) (Ok 75)
    (Err "rpc down"%string) (Ok "0xsell"%string).

(** The value fell to 75 and every call succeeds. *)
Definition priceFell : Script :=
  mkScript (Ok 1000) (Ok 0) (Ok 75) (Ok "0xapprove"%string)
    (Ok "0xsell"%string).

(** The unit price reached the threshold, the value holds. *)
Definition priceRose : Script :=
  mkScript (Ok 1000) (Ok (3 * 10 ^ 14)) (Ok 100) (Ok "0xapprove"%string)
    (Ok "0xsell"%string).

(** The unit price is above the threshold, the value fell to 75 all the
    same, and the approval fails. *)
Definition approvalDownAtPeak : Script :=
  mkScript (Ok 1000) (Ok (3 * 10 ^ 14)) (Ok 75) (Err "rpc down"%string)
    (Ok "0xsell"%string).

(** The balance cannot be read. *)
Definition balanceDown : Script :=
  mkScript (Err "timeout"%string) (Ok 0) (Ok 100) (Ok "0xapprove"%string)
    (Ok "0xsell"%string).

(** The tick of [demoMonitor] in the world [approvalDown]. *)
Definition approvalDownTrace : list Event :=
  [ EvGetTokenBalance 0%nat demoToken (Ok 1000);
    EvGetTokenPriceInUSDT 0%nat demoToken 1000 (Err "no route"%string);
    EvGetTokenPrice 0%nat demoToken 1000 (Ok 75);
    EvLog (StopLossTriggered 0 demoToken 25);
    EvApproveToken 0%nat demoToken StopLoss.maxApprove (Err "rpc down"%string) ].

(** The tick of [demoMonitor] in the world [priceFell]. *)
Definition priceFellTrace : list Event :=
  [ EvGetTokenBalance 0%nat demoToken (Ok 1000);
    EvGetTokenPriceInUSDT 0%nat demoToken 1000 (Ok 0);
    EvGetTokenPrice 0%nat demoToken 1000 (Ok 75);
    EvLog (StopLossTriggered 0 demoToken 25);
    EvApproveToken 0%nat demoToken StopLoss.maxApprove (Ok "0xapprove"%string);
    EvSleep 3;
    EvSellToken 0%nat demoToken 1000 (Ok "0xsell"%string) ].

(** The tick of [demoPosition] in the world [priceRose]. *)
Definition priceRoseTrace : list Event :=
  [ EvGetTokenBalance 0%nat demoToken (Ok 1000);
    EvGetTokenPriceInUSDT 0%nat demoToken 1000 (Ok (3 * 10 ^ 14));
    EvLog (TakeProfitTriggered 0);
    EvApproveToken 0%nat demoToken StopLoss.maxApprove (Ok "0xapprove"%string);
    EvSleep 3;
    EvSellToken 0%nat demoToken 700 (Ok "0xsell"%string);
    EvGetTokenPrice 0%nat demoToken 1000 (Ok 100) ].

(** [demoPosition] after its take-profit. *)
Definition demoPositionAfterTakeProfit : Position :=
  mkPosition demoToken 100 1000 1000 0 0%nat false true true.

(** Three ticks of [demoPosition]: the unit price reaches the threshold
    twice, then the value falls. *)
Definition demoTicks : list Script := [priceRose; priceRose; priceFell].

Definition demoLifeTrace : list Event :=
  priceRoseTrace ++
  [ EvGetTokenBalance 0%nat demoToken (Ok 1000);
    EvGetTokenPrice 0%nat demoToken 1000 (Ok 100) ] ++
  [ EvGetTokenBalance 0%nat demoToken (Ok 1000);
    EvGetTokenPrice 0%nat demoToken 1000 (Ok 75);
    EvLog (StopLossTriggered 0 demoToken 25);
    EvSellToken 0%nat demoToken 1000 (Ok "0xsell"%string) ].

(** The endpoint refuses every connection; the subscription has just
    failed and nobody cancelled. *)
Definition deadNet : Listener.Net :=
  Listener.mkNet (Err "connection refused"%string) (Ok 1)
    (Err "subscription error"%string) false.

Definition demoListener : Listener.EventListener :=
  Listener.mkListener "wss://node"%string (Some 7%nat).

(** Ten failed dials, each followed by its growing pause. *)
Definition deadNetTrace : list Listener.Event :=
  Listener.EvClose 7%nat ::
  flat_map (fun attempt =>
              [ Listener.EvDial "wss://node"%string
                  (Err "connection refused"%string);
                Listener.EvSleep (5 * attempt) ])
           (seqZ 1 10).

(** ** Further vocabulary for the monitor's traces *)

(** A call addressed to the swapper [s] and the token [t]; an approval is
    moreover for the unlimited allowance. *)
Definition ownCall (s : SwapperRef) (t : Address) (e : Event) : Prop :=
  match e with
  | EvGetTokenBalance s' t' _ => s' = s /\ t' = t
  | EvGetTokenPrice s' t' _ _ => s' = s /\ t' = t
  | EvGetTokenPriceInUSDT s' t' _ _ => s' = s /\ t' = t
  | EvApproveToken s' t' amount _ =>
      s' = s /\ t' = t /\ amount = StopLoss.maxApprove
  | EvSellToken s' t' _ _ => s' = s /\ t' = t
  | EvSleep _ => True
  | EvLog _ => True
  end.

(** The calls of one sell attempt for [amount] by the swapper [s] on the
    token [t], as [executeSell] makes them: the sell alone when the
    position is approved; else the approval, followed after the pause by the
    sell unless the approval failed.  The result of the sell is free. *)
Definition sellAttempt (s : SwapperRef) (t : Address) (amount : Z)
  (tr : list Event) : Prop :=
  (exists r, tr = [EvSellToken s t amount r]) \/
  (exists e, tr = [EvApproveToken s t StopLoss.maxApprove (Err e)]) \/
  (exists tx r,
     tr = [EvApproveToken s t StopLoss.maxApprove (Ok tx); EvSleep 3;
           EvSellToken s t amount r]).

(** The unit price is above the threshold, the value fell to 75 all the
    same, and every call succeeds. *)
Definition valueFellAtPeak : Script :=
  mkScript (Ok 1000) (Ok (3 * 10 ^ 14)) (Ok 75) (Ok "0xapprove"%string)
    (Ok "0xsell"%string).

(** The balance is there but the quote fails. *)
Definition balanceDownQuote : Script :=
  mkScript (Ok 1000) (Ok 0) (Err "no route"%string)
    (Ok "0xapprove"%string) (Ok "0xsell"%string).

(** A second token. *)
Definition demoOtherToken : Address := repeat Byte.x01 20.

(** ** The loop of the monitor ([StopLossMonitor.Start] and [Stop]) *)

Module MonitorLoop.

(** What happens to the monitor while [Start] runs, in the order in which
    it happens: the [select] of [Start] takes the case of the context
    ([Stop] was called) or the case of the ticker, or a goroutine of the
    listener calls [AddPosition].  [AddPosition] and [checkPositions] hold
    the monitor's mutex from their first line to their return, so a
    registration falls between two ticks, never inside one. *)
Inductive Step : Type :=
| CtxDone
| Tick
| Registered (walletIndex : Z) (swapper : SwapperRef)
    (tokenAddress : Address) (buyAmountWei : Z).

Section Start.

Context {World : Type} {TE : TradeExecutor World}.
Variable keccak256 : list Byte.byte -> list Byte.byte.
Variable priceReached : Z -> bool.

(** The order in which a map is iterated. *)
Variable order : gmap string Position -> list string.

(** [func (m *StopLossMonitor) Start()] beside the registrations of the
    listener, along the steps above.  The boolean tells whether [Start]
    returned; it is false when the loop is still waiting after the last
    step. *)
Fixpoint Start (steps : list Step) (m : StopLossMonitor)
  : StopLoss.M (StopLossMonitor * bool) :=
  match steps with
  | [] => StopLoss.ret (m, false)
  | CtxDone :: _ => StopLoss.ret (m, true)
  | Tick :: steps =>
      StopLoss.bind (StopLoss.checkPositions priceReached order m)
        (fun m' => Start steps m')
  | Registered walletIndex swapper tokenAddress buyAmountWei :: steps =>
      StopLoss.bind
        (StopLoss.AddPosition keccak256 m walletIndex swapper tokenAddress
           buyAmountWei)
        (fun m' => Start steps m')
  end.

End Start.

End MonitorLoop.

(** ** Further vocabulary for the listener's traces *)

Module ListenerTrace.

Import Listener.

(** The pauses of a trace, in seconds, in order. *)
Fixpoint sleeps (tr : list Event) : list Z :=
  match tr with
  | [] => []
  | EvSleep seconds :: tr => seconds :: sleeps tr
  | _ :: tr => sleeps tr
  end.

(** The clients that [Dial] returned, in order. *)
Fixpoint dialedClients (tr : list Event) : list ClientRef :=
  match tr with
  | [] => []
  | EvDial _ (Ok c) :: tr => c :: dialedClients tr
  | _ :: tr => dialedClients tr
  end.

(** The clients that were closed, in order. *)
Fixpoint closedClients (tr : list Event) : list ClientRef :=
  match tr with
  | [] => []
  | EvClose c :: tr => c :: closedClients tr
  | _ :: tr => closedClients tr
  end.

(** The addresses that were dialed, in order. *)
Fixpoint dialedURLs (tr : list Event) : list string :=
  match tr with
  | [] => []
  | EvDial url _ :: tr => url :: dialedURLs tr
  | _ :: tr => dialedURLs tr
  end.

Definition isSubscribe (e : Event) : bool :=
  match e with EvSubscribe _ _ => true | _ => false end.

Definition isFailedSubscribe (e : Event) : bool :=
  match e with EvSubscribe _ (Err _) => true | _ => false end.

End ListenerTrace.

(** ** One subscription ([EventListener.subscribe] and [healthCheck]) *)

Module Subscription.

(** An [ethereum.Subscription]. *)
Definition SubRef := nat.

(** The fields of [types.Log] that [handleLog] reads. *)
Record Log : Type := mkLog {
  Data : list Byte.byte;
  Topics : list (list Byte.byte)
}.

(** The case that the [select] of [subscribe] takes on one round. *)
Inductive Selected : Type :=
| SubErr (err : error)
| LogArrived (vLog : Log)
| HealthTick
| CtxDone.

Inductive Event : Type :=
| EvSubscribeFilterLogs (c : Listener.ClientRef) (r : result SubRef)
| EvUnsubscribe (sub : SubRef)
| EvBlockNumber (c : Listener.ClientRef) (r : result Z)
| EvHandleLog (vLog : Log).

Section Subscribe.

Context {World : Type} {CC : Listener.ChainClient World}.

(** [client.SubscribeFilterLogs(ctx, query, logs)] and [sub.Unsubscribe()]. *)
Variable SubscribeFilterLogs :
  Listener.ClientRef -> World -> result SubRef * World.
Variable Unsubscribe : SubRef -> World -> World.

(** [l.handleLog(vLog)], taken as an effect on the world: it starts one
    purchase per wallet and waits for all of them. *)
Variable handleLog : Log -> World -> World.

Definition M (A : Type) : Type := World -> option (A * World * list Event).

Definition ret {A : Type} (a : A) : M A := fun w => Some (a, w, []).

Definition bind {A B : Type} (m : M A) (f : A -> M B) : M B := fun w =>
  match m w with
  | None => None
  | Some (a, w1, t1) =>
      match f a w1 with
      | None => None
      | Some (b, w2, t2) => Some (b, w2, t1 ++ t2)
      end
  end.

Definition panic {A : Type} : M A := fun _ => None.

Notation "'let*' x ':=' c1 'in' c2" := (bind c1 (fun x => c2))
  (at level 10, x pattern, c1 at level 100, c2 at level 200).

Definition callSubscribeFilterLogs (c : Listener.ClientRef)
  : M (result SubRef) := fun w =>
  let '(r, w') := SubscribeFilterLogs c w in
  Some (r, w', [EvSubscribeFilterLogs c r]).

Definition callUnsubscribe (sub : SubRef) : M unit := fun w =>
  Some (tt, Unsubscribe sub w, [EvUnsubscribe sub]).

Definition callBlockNumber (c : Listener.ClientRef) : M (result Z) := fun w =>
  let '(r, w') := Listener.BlockNumber c w in Some (r, w', [EvBlockNumber c r]).

Definition callHandleLog (vLog : Log) : M unit := fun w =>
  Some (tt, handleLog vLog w, [EvHandleLog vLog]).

(** [func (l *EventListener) healthCheck(ctx context.Context) bool]; the
    call on a nil client panics. *)
Definition healthCheck (l : Listener.EventListener) : M bool :=
  match Listener.client l with
  | None => panic
  | Some client =>
      let* r := callBlockNumber client in
      match r with
      | Err _ => ret false
      | Ok _ => ret true
      end
  end.

(** The [for { select { ... } }] of [subscribe], along the cases its
    [select] takes.  The outcome is [Some r] when the loop returned [r] and
    [None] when it is still waiting after the last case. *)
Fixpoint subscribeLoop (l : Listener.EventListener) (selected : list Selected)
  : M (option (result unit)) :=
  match selected with
  | [] => ret None
  | SubErr err :: _ =>
      ret (Some (Err ("subscription error: " ++ err)%string))
  | LogArrived vLog :: selected =>
      let* _ := callHandleLog vLog in
      subscribeLoop l selected
  | HealthTick :: selected =>
      let* ok := healthCheck l in
      if ok then subscribeLoop l selected
      else ret (Some (Err "health check failed"%string))
  | CtxDone :: _ => ret (Some (Ok tt))
  end.

(** [func (l *EventListener) subscribe(ctx context.Context) error]; the
    deferred [sub.Unsubscribe()] runs when the function returns. *)
Definition subscribe (l : Listener.EventListener) (selected : list Selected)
  : M (option (result unit)) :=
  match Listener.client l with
  | None => panic
  | Some client =>
      let* r := callSubscribeFilterLogs client in
      match r with
      | Err err => ret (Some (Err ("failed to subscribe: " ++ err)%string))
      | Ok sub =>
          let* out := subscribeLoop l selected in
          match out with
          | None => ret None
          | Some r =>
              let* _ := callUnsubscribe sub in
              ret (Some r)
          end
      end
  end.

(** The logs handed to [handleLog], in order. *)
Fixpoint handledLogs (tr : list Event) : list Log :=
  match tr with
  | [] => []
  | EvHandleLog vLog :: tr => vLog :: handledLogs tr
  | _ :: tr => handledLogs tr
  end.

(** The logs among the cases taken, in order. *)
Fixpoint logsOf (selected : list Selected) : list Log :=
  match selected with
  | [] => []
  | LogArrived vLog :: selected => vLog :: logsOf selected
  | _ :: selected => logsOf selected
  end.

(** What the loop of [subscribe] does on the chain for a listener whose
    client is [c]: it handles a log, or asks [c] for the block number. *)
Definition loopEvent (c : Listener.ClientRef) (e : Event) : Prop :=
  match e with
  | EvHandleLog _ => True
  | EvBlockNumber c' _ => c' = c
  | _ => False
  end.

(** The health checks among the cases taken. *)
Fixpoint healthTicks (selected : list Selected) : nat :=
  match selected with
  | [] => 0%nat
  | HealthTick :: selected => S (healthTicks selected)
  | _ :: selected => healthTicks selected
  end.

(** A case after which the loop of [subscribe] goes on: a log, or a health
    check (when it passes). *)
Definition goesOn (s : Selected) : Prop :=
  match s with
  | LogArrived _ | HealthTick => True
  | SubErr _ | CtxDone => False
  end.

Definition isHealthy (e : Event) : bool :=
  match e with EvBlockNumber _ (Ok _) => true | _ => false end.

Definition isUnsubscribe (e : Event) : bool :=
  match e with EvUnsubscribe _ => true | _ => false end.

Definition isSubscribed (e : Event) : bool :=
  match e with EvSubscribeFilterLogs _ (Ok _) => true | _ => false end.

Fixpoint count (P : Event -> bool) (tr : list Event) : nat :=
  match tr with
  | [] => 0%nat
  | e :: tr => ((if P e then 1 else 0) + count P tr)%nat
  end.

End Subscribe.

End Subscription.

(** ** Decoding the event and classifying the token
    ([ParseLiquidityAddedEvent] and [IsTaxToken]) *)

Module Contracts.

Definition TokenTypeTax : Z := 5.

Record LiquidityAddedEvent : Type := mkLiquidityAdded {
  Base : Address;
  Offers : Z;
  Quote : Address;
  Funds : Z
}.

(** [new(big.Int).SetBytes(buf)]: the bytes as a big-endian unsigned
    integer. *)
Definition SetBytes (buf : list Byte.byte) : Z :=
  fold_left (fun acc b => acc * 256 + Z.of_N (Byte.to_N b)) buf 0.

Definition AddressLength : nat := 20.

(** [common.BytesToAddress]: the last 20 bytes when there are more, and
    zeros in front when there are fewer. *)
Definition BytesToAddress (b : list Byte.byte) : Address :=
  let b :=
    if (AddressLength <? length b)%nat
    then drop (length b - AddressLength) b else b in
  replicate (AddressLength - length b) Byte.x00 ++ b.

(** The slice expression [data[lo:hi]]; [None] is the panic of bounds out
    of range (the capacity of [data] is taken to be its length). *)
Definition slice (lo hi : nat) (data : list Byte.byte)
  : option (list Byte.byte) :=
  if (lo <=? hi)%nat && (hi <=? length data)%nat
  then Some (take (hi - lo) (drop lo data))
  else None.

(** [func ParseLiquidityAddedEvent(data []byte, topics []common.Hash)],
    which returns the event or an error; [None] is a panic. *)
Definition ParseLiquidityAddedEvent (data : list Byte.byte)
  (topics : list (list Byte.byte)) : option (result LiquidityAddedEvent) :=
  if (length data <? 128)%nat
  then Some (Err ("invalid data length: " +:+ pretty (length data)))
  else
    match slice 12 32 data, slice 32 64 data,
          slice 76 96 data, slice 96 128 data with
    | Some base, Some offers, Some quote, Some funds =>
        Some (Ok (mkLiquidityAdded (BytesToAddress base) (SetBytes offers)
                    (BytesToAddress quote) (SetBytes funds)))
    | _, _, _, _ => None
    end.

(** [creatorType := new(big.Int).Rsh(template, 10);
    creatorType.And(creatorType, big.NewInt(0x3F))] *)
Definition creatorType (template : Z) : Z :=
  Z.land (Z.shiftr template 10) 0x3F.

(** What [IsTaxToken] does to the outside world. *)
Inductive Event : Type :=
| EvCallContract (input : list Byte.byte) (r : result (list Byte.byte)).

(** The ABI codec and the chain client behind [IsTaxToken]: parsing the
    ABI text, packing the call of [_tokenInfos], the read-only call to the
    token manager, and unpacking its single [uint256] output. *)
Class TokenManagerClient (World : Type) : Type := {
  abiJSON : result unit;
  PackTokenInfos : Address -> result (list Byte.byte);
  CallContract :
    list Byte.byte -> World -> result (list Byte.byte) * World;
  UnpackTokenInfos : list Byte.byte -> result Z
}.

Section IsTaxToken.

Context {World : Type} {TM : TokenManagerClient World}.

Definition wrapError (prefix : string) (r : error) : error :=
  (prefix +:+ r)%string.

(** [func IsTaxToken(client *ethclient.Client, tokenAddress common.Address)
    (bool, error)]; the error is [None] for nil. *)
Definition IsTaxToken (tokenAddress : Address) (w : World)
  : (bool * option error) * World * list Event :=
  match abiJSON with
  | Err err => ((false, Some (wrapError "failed to parse ABI: " err)), w, [])
  | Ok _ =>
      match PackTokenInfos tokenAddress with
      | Err err =>
          ((false, Some (wrapError "failed to pack _tokenInfos: " err)), w, [])
      | Ok data =>
          let '(r, w') := CallContract data w in
          match r with
          | Err err =>
              ((false, Some (wrapError "failed to call _tokenInfos: " err)),
               w', [EvCallContract data r])
          | Ok result =>
              match UnpackTokenInfos result with
              | Err err =>
                  ((false,
                    Some (wrapError "failed to unpack _tokenInfos: " err)),
                   w', [EvCallContract data r])
              | Ok template =>
                  ((BigInt.Int64 (creatorType template) =? TokenTypeTax,
                    None),
                   w', [EvCallContract data r])
              end
          end
      end
  end.

End IsTaxToken.

End Contracts.

(** A log payload: the token [demoToken] offered 5 against 2^256 - 1, with
    words padded by zeros, and three bytes more. *)
Definition demoOffers : list Byte.byte := replicate 31 Byte.x00 ++ [Byte.x05].

Definition demoQuote : Address := replicate 20 Byte.xcd.

Definition demoFunds : list Byte.byte := replicate 32 Byte.xff.

Definition demoData : list Byte.byte :=
  replicate 12 Byte.x00 ++ demoToken ++ demoOffers ++
  replicate 12 Byte.x00 ++ demoQuote ++ demoFunds ++
  [Byte.x01; Byte.x02; Byte.x03].

(** ** Handling one log ([handleLog]) *)

Module Handler.

(** The events of the monitor, seen from the listener. *)
Definition MonitorEvent : Type := Event.

(** [WalletInfo]; its field [Swapper] is [walletSwapper] here. *)
Record WalletInfo : Type := mkWallet {
  walletSwapper : SwapperRef;
  BuyAmountWei : Z
}.

Inductive Event : Type :=
| EvClassify (e : Contracts.Event)
| EvBuyToken (s : SwapperRef) (token : Address) (amountBNB : Z)
    (r : result string)
| EvSleep (seconds : Z)
| EvMonitor (e : MonitorEvent).

(** [PancakeSwapper.BuyToken], as an oracle. *)
Class Buyer (World : Type) : Type := {
  BuyToken : SwapperRef -> Address -> Z -> World -> result string * World
}.

Section HandleLog.

Context {World : Type} {TE : TradeExecutor World}
  {TM : Contracts.TokenManagerClient World} {B : Buyer World}.

Variable keccak256 : list Byte.byte -> list Byte.byte.

Definition M (A : Type) : Type := World -> option (A * World * list Event).

Definition ret {A : Type} (a : A) : M A := fun w => Some (a, w, []).

Definition bind {A B : Type} (m : M A) (f : A -> M B) : M B := fun w =>
  match m w with
  | None => None
  | Some (a, w1, t1) =>
      match f a w1 with
      | None => None
      | Some (b, w2, t2) => Some (b, w2, t1 ++ t2)
      end
  end.

Definition panic {A : Type} : M A := fun _ => None.

Definition emit (e : Event) : M unit := fun w => Some (tt, w, [e]).

Notation "'let*' x ':=' c1 'in' c2" := (bind c1 (fun x => c2))
  (at level 10, x pattern, c1 at level 100, c2 at level 200).

Definition callIsTaxToken (token : Address) : M (bool * option error) :=
  fun w =>
    let '(r, w', tr) := Contracts.IsTaxToken token w in
    Some (r, w', map EvClassify tr).

Definition callBuyToken (s : SwapperRef) (token : Address) (amountBNB : Z)
  : M (result string) := fun w =>
  let '(r, w') := BuyToken s token amountBNB w in
  Some (r, w', [EvBuyToken s token amountBNB r]).

(** A method of the monitor run from the listener. *)
Definition callMonitor {A : Type} (m : StopLoss.M A) : M A := fun w =>
  match m w with
  | None => None
  | Some (a, w', tr) => Some (a, w', map EvMonitor tr)
  end.

(** Lines 177-202 of [handleLog]: decoding and classification.  The result
    is the token to buy, [None] when the function returns before the
    dispatch. *)
Definition selectToken (data : list Byte.byte)
  (topics : list (list Byte.byte)) : M (option Address) :=
  match Contracts.ParseLiquidityAddedEvent data topics with
  | None => panic
  | Some (Err _) => ret None
  | Some (Ok event) =>
      let* r := callIsTaxToken (Contracts.Base event) in
      match snd r with
      | Some _ => ret None
      | None =>
          if negb (fst r) then ret None
          else ret (Some (Contracts.Base event))
      end
  end.

(** Lines 207-224 of [handleLog]: the body of the goroutine started for
    the wallet [wallet] of index [idx].  [monitor] is [l.stopLossMonitor]
    ([None] for nil); the result is the monitor after the call. *)
Definition buyAndRegister (monitor : option StopLossMonitor) (idx : Z)
  (wallet : WalletInfo) (base : Address) : M (option StopLossMonitor) :=
  let* r := callBuyToken (walletSwapper wallet) base (BuyAmountWei wallet) in
  match r with
  | Err _ => ret monitor
  | Ok _ =>
      match monitor with
      | None => ret None
      | Some m =>
          let* _ := emit (EvSleep 5) in
          let* m' := callMonitor
                       (StopLoss.AddPosition keccak256 m idx
                          (walletSwapper wallet) base (BuyAmountWei wallet)) in
          ret (Some m')
      end
  end.

Definition isBuy (e : Event) : bool :=
  match e with EvBuyToken _ _ _ _ => true | _ => false end.

Definition isMonitorEvent (e : Event) : bool :=
  match e with EvMonitor _ => true | _ => false end.

End HandleLog.

End Handler.

(** ** The wallets of the configuration ([config.Load]) *)

Module Config.

(** [WalletConfig].  [BuyAmountBNB] is a [*big.Float] set from a decimal
    text by [SetString]; the embedding keeps that text. *)
Record WalletConfig : Type := mkWalletConfig {
  PrivateKey : string;
  BuyAmountBNB : string
}.

(** [strings.Split(s, sep)] for a separator of one byte. *)
Fixpoint Split (s : string) (sep : ascii) : list string :=
  match s with
  | EmptyString => [EmptyString]
  | String c rest =>
      if Ascii.eqb c sep then EmptyString :: Split rest sep
      else
        match Split rest sep with
        | [] => [String c EmptyString]
        | field :: fields => String c field :: fields
        end
  end.

(** [os.Getenv]: the empty string for a variable that is not set. *)
Definition Getenv (env : gmap string string) (key : string) : string :=
  default EmptyString (env !! key).

(** [func getEnv(key, defaultValue string) string] *)
Definition getEnv (env : gmap string string) (key defaultValue : string)
  : string :=
  let value := Getenv env key in
  if negb (String.eqb value "") then value else defaultValue.

Section Load.

(** [strings.TrimSpace] *)
Variable TrimSpace : string -> string.

(** Lines 53-63: the amount text of the wallet read at index [i]. *)
Definition buyAmountAt (i : nat) (buyAmounts : list string) : string :=
  match buyAmounts !! i with
  | Some amount =>
      let amtStr := TrimSpace amount in
      if negb (String.eqb amtStr "") then amtStr else "0.1"%string
  | None => "0.1"%string
  end.

(** Lines 46-69: [for i, pk := range privateKeys], from index [i] on. *)
Fixpoint loadWallets (i : nat) (privateKeys buyAmounts : list string)
  : list WalletConfig :=
  match privateKeys with
  | [] => []
  | pk :: privateKeys =>
      let pk := TrimSpace pk in
      if String.eqb pk "" then loadWallets (S i) privateKeys buyAmounts
      else
        mkWalletConfig pk (buyAmountAt i buyAmounts)
        :: loadWallets (S i) privateKeys buyAmounts
  end.

(** The field [Wallets] of the result of [Load], for the environment left
    by [godotenv.Load]. *)
Definition Wallets (env : gmap string string) : list WalletConfig :=
  let privateKeysStr := getEnv env "PRIVATE_KEYS" "" in
  let buyAmountsStr := getEnv env "BUY_AMOUNTS_BNB" "" in
  loadWallets 0 (Split privateKeysStr ",") (Split buyAmountsStr ",").

End Load.

End Config.

(** An environment with a blank key between two keys. *)
Definition demoEnv : gmap string string :=
  {[ "PRIVATE_KEYS"%string := "k1,,k3"%string;
     "BUY_AMOUNTS_BNB"%string := "1,2,3"%string ]}.

(** * Properties *)

(** ** Arithmetic of [math/big] *)

Lemma Cmp_le0 x y : (BigInt.Cmp x y <=? 0) = (x <=? y).
Proof.
  unfold BigInt.Cmp.
  destruct (Z.ltb_spec x y); [ symmetry; apply Z.leb_le; lia |].
  destruct (Z.eqb_spec x y); [ symmetry; apply Z.leb_le; lia |].
  symmetry; apply Z.leb_gt; lia.
Qed.

Lemma Cmp_eq0 x y : (BigInt.Cmp x y =? 0) = (x =? y).
Proof.
  unfold BigInt.Cmp.
  destruct (Z.ltb_spec x y); [ symmetry; apply Z.eqb_neq; lia |].
  destruct (Z.eqb_spec x y); reflexivity.
Qed.

Lemma Cmp_gt0 x y : (0 <? BigInt.Cmp x y) = (y <? x).
Proof.
  unfold BigInt.Cmp.
  destruct (Z.ltb_spec x y); [ symmetry; apply Z.ltb_ge; lia |].
  destruct (Z.eqb_spec x y); [ symmetry; apply Z.ltb_ge; lia |].
  symmetry; apply Z.ltb_lt; lia.
Qed.

Lemma Cmp_lt0 x y : (BigInt.Cmp x y <? 0) = (x <? y).
Proof.
  unfold BigInt.Cmp.
  destruct (Z.ltb_spec x y); [ reflexivity |].
  destruct (Z.eqb_spec x y); reflexivity.
Qed.

Lemma Div_pos x y : 0 < y -> BigInt.Div x y = Some (x / y).
Proof.
  intros Hy. unfold BigInt.Div.
  destruct (Z.eqb_spec y 0); [ lia |].
  destruct (Z.ltb_spec 0 y); [ reflexivity | lia ].
Qed.

Lemma Int64_small x : 0 <= x < 2 ^ 63 -> BigInt.Int64 x = x.
Proof.
  intros Hx. unfold BigInt.Int64, BigInt.wrap64.
  destruct (Z.ltb_spec x 0); [ lia |].
  rewrite Z.abs_eq by lia.
  rewrite (Z.mod_small x) by lia.
  rewrite Z.mod_small; lia.
Qed.


(** ** The drop percentage *)

Example calculateDropPercent_25 : calculateDropPercent 100 75 = Some 25.
Proof. reflexivity. Qed.

Example calculateDropPercent_floor : calculateDropPercent 3 2 = Some 33.
Proof. reflexivity. Qed.

Example calculateDropPercent_rise : calculateDropPercent 100 250 = Some 0.
Proof. reflexivity. Qed.

Lemma calculateDropPercent_zero_ref currentPrice :
  calculateDropPercent 0 currentPrice = Some 0.
Proof. reflexivity. Qed.

Lemma calculateDropPercent_pos buyPrice currentPrice :
  0 < buyPrice -> 0 <= currentPrice ->
  calculateDropPercent buyPrice currentPrice =
    Some (Z.max 0 ((buyPrice - currentPrice) * 100 / buyPrice)).
Proof.
  intros Hb Hc. unfold calculateDropPercent.
  rewrite Cmp_eq0, Cmp_le0.
  destruct (Z.eqb_spec buyPrice 0); [ lia |].
  destruct (Z.leb_spec (buyPrice - currentPrice) 0) as [Hd | Hd].
  - f_equal. symmetry. apply Z.max_l.
    assert ((buyPrice - currentPrice) * 100 / buyPrice <= 0 / buyPrice)
      by (apply Z.div_le_mono; lia).
    rewrite Z.div_0_l in H by lia. exact H.
  - rewrite Div_pos by lia.
    assert (0 <= (buyPrice - currentPrice) * 100 / buyPrice)
      by (apply Z.div_pos; lia).
    assert ((buyPrice - currentPrice) * 100 / buyPrice <= 100).
    { apply Z.div_le_upper_bound; lia. }
    rewrite Int64_small by lia.
    f_equal. symmetry. apply Z.max_r. lia.
Qed.

(** A drop is always a percentage between 0 and 100. *)
Lemma calculateDropPercent_range buyPrice currentPrice d :
  0 <= buyPrice -> 0 <= currentPrice ->
  calculateDropPercent buyPrice currentPrice = Some d -> 0 <= d <= 100.
Proof.
  intros Hb Hc.
  destruct (Z.eq_dec buyPrice 0) as [-> | Hne].
  - rewrite calculateDropPercent_zero_ref. intros [= <-]. lia.
  - rewrite calculateDropPercent_pos by lia. intros [= <-].
    assert ((buyPrice - currentPrice) * 100 / buyPrice <= 100)
      by (apply Z.div_le_upper_bound; lia).
    lia.
Qed.

(** The function never panics: the only division is guarded. *)
Lemma calculateDropPercent_total buyPrice currentPrice :
  exists d, calculateDropPercent buyPrice currentPrice = Some d.
Proof.
  unfold calculateDropPercent. rewrite Cmp_eq0.
  destruct (Z.eqb_spec buyPrice 0) as [-> | Hne]; [ eauto |].
  destruct (BigInt.Cmp (buyPrice - currentPrice) 0 <=? 0); [ eauto |].
  unfold BigInt.Div. destruct (Z.eqb_spec buyPrice 0); [ lia |].
  destruct (0 <? buyPrice); eauto.
Qed.

(** C2: for non-negative reference and current prices the drop percentage is
    [max 0 ((referencePrice - currentPrice) * 100 / referencePrice)] with
    exact integer division; a reference price of zero gives zero, and in
    both cases the function returns (no division by zero). *)
Theorem C2_drop_percent_formula (buyPrice currentPrice : Z) :
  0 <= buyPrice -> 0 <= currentPrice ->
  (buyPrice = 0 -> calculateDropPercent buyPrice currentPrice = Some 0) /\
  (buyPrice <> 0 ->
   calculateDropPercent buyPrice currentPrice =
     Some (Z.max 0 ((buyPrice - currentPrice) * 100 / buyPrice))).
Proof.
  intros Hb Hc. split.
  - intros ->. apply calculateDropPercent_zero_ref.
  - intros Hne. apply calculateDropPercent_pos; lia.
Qed.

Lemma C2_drop_percent_formula_witness :
  calculateDropPercent 0 75 = Some 0 /\
  calculateDropPercent 100 75 = Some 25.
Proof.
  pose proof (C2_drop_percent_formula 0 75 ltac:(lia) ltac:(lia)) as [H0 _].
  pose proof (C2_drop_percent_formula 100 75 ltac:(lia) ltac:(lia)) as [_ H1].
  split; [ apply H0; reflexivity | apply H1; lia ].
Defined.

(** ** Position keys *)

Example runeString_0 : Key.runeString 0 = String "000" EmptyString.
Proof. reflexivity. Qed.

Example runeString_65 : Key.runeString 65 = "A"%string.
Proof. reflexivity. Qed.

Example runeString_233 : Key.runeString 233 = String "195" (String "169" EmptyString).
Proof. reflexivity. Qed.

Example runeString_surrogate :
  Key.runeString 0xD800 = String "239" (String "191" (String "189" EmptyString)).
Proof. reflexivity. Qed.

Example Hex_no_checksum :
  Key.Hex (fun _ => []) (repeat Byte.xab 20) =
    "0xabababababababababababababababababababab"%string.
Proof. reflexivity. Qed.


Section KeyFacts.

Import Key.

Variable keccak256 : list Byte.byte -> list Byte.byte.

(** A property checked on every integer below a bound. *)
Lemma forall_below (P : Z -> bool) (n : Z) :
  forallb P (seqZ 0 n) = true -> forall y, 0 <= y < n -> P y = true.
Proof.
  intros Hall y Hy. rewrite forallb_forall in Hall. apply Hall.
  apply list_elem_of_In, elem_of_seqZ. lia.
Qed.

Lemma hexdigit_unhex hash i n :
  (n < 16)%N -> unhexChar (checksumChar hash i (hexdigit n)) = n.
Proof.
  intros Hn. unfold checksumChar.
  set (hb := if Nat.even i then _ else _).
  assert (Hcases : In n (map N.of_nat (seq 0 16))).
  { apply in_map_iff. exists (N.to_nat n). split; [ lia |].
    apply in_seq. lia. }
  simpl in Hcases.
  repeat (destruct Hcases as [<- | Hcases];
          [ destruct (7 <? hb)%N; reflexivity |]).
  destruct Hcases.
Qed.

Lemma imap_checksum_nibbles (f : nat -> ascii -> ascii) a :
  (forall i n, (n < 16)%N -> unhexChar (f i (hexdigit n)) = n) ->
  map unhexChar (imap f (hex_Encode a)) = nibbles a.
Proof.
  revert f. induction a as [| b a IH]; intros f Hf; [ done |].
  assert (Hb : (Byte.to_N b < 256)%N)
    by (pose proof (Byte.to_N_bounded b); lia).
  assert (Hhi : (N.shiftr (Byte.to_N b) 4 < 16)%N).
  { rewrite N.shiftr_div_pow2. change (2 ^ 4)%N with 16%N.
    apply N.Div0.div_lt_upper_bound. lia. }
  assert (Hlo : (N.land (Byte.to_N b) 0x0f < 16)%N).
  { change 0x0f%N with (N.ones 4). rewrite N.land_ones.
    by apply N.mod_lt. }
  change (hex_Encode (b :: a))
    with (hexdigit (N.shiftr (Byte.to_N b) 4)
          :: hexdigit (N.land (Byte.to_N b) 0x0f) :: hex_Encode a).
  change (nibbles (b :: a))
    with (N.shiftr (Byte.to_N b) 4 :: N.land (Byte.to_N b) 0x0f :: nibbles a).
  cbn [imap map].
  f_equal; [ by apply Hf |].
  f_equal; [ by apply (Hf 1%nat) |].
  apply (IH (fun i => f (S (S i)))). intros i n Hn. by apply Hf.
Qed.

Lemma nibbles_inj a1 a2 : nibbles a1 = nibbles a2 -> a1 = a2.
Proof.
  revert a2. induction a1 as [| b1 a1 IH]; intros [| b2 a2]; simpl;
    try done.
  intros [= Hhi Hlo Hrest]. f_equal; [| by apply IH ].
  assert (Heq : Byte.to_N b1 = Byte.to_N b2).
  { rewrite (N.div_mod (Byte.to_N b1) 16) by lia.
    rewrite (N.div_mod (Byte.to_N b2) 16) by lia.
    change 0x0f%N with (N.ones 4) in Hlo. rewrite !N.land_ones in Hlo.
    rewrite !N.shiftr_div_pow2 in Hhi.
    change (2 ^ 4)%N with 16%N in Hhi, Hlo. by rewrite Hhi, Hlo. }
  apply (f_equal Byte.of_N) in Heq. rewrite !Byte.of_to_N in Heq.
  by injection Heq.
Qed.

Lemma string_of_list_ascii_inj l1 l2 :
  string_of_list_ascii l1 = string_of_list_ascii l2 -> l1 = l2.
Proof.
  intros H. apply (f_equal list_ascii_of_string) in H.
  by rewrite !list_ascii_of_string_of_list_ascii in H.
Qed.

(** Two addresses with the same checksummed text are the same address,
    whatever the digest. *)
Lemma Hex_inj a1 a2 : Hex keccak256 a1 = Hex keccak256 a2 -> a1 = a2.
Proof.
  unfold Hex. intros [= H]. apply string_of_list_ascii_inj in H.
  apply (f_equal (map unhexChar)) in H.
  rewrite !imap_checksum_nibbles in H by (intros; by apply hexdigit_unhex).
  by apply nibbles_inj.
Qed.

Lemma string_of_list_ascii_length l :
  String.length (string_of_list_ascii l) = length l.
Proof. induction l as [| c l IH]; simpl; [ done | by rewrite IH ]. Qed.

Lemma Hex_length a :
  String.length (Hex keccak256 a) = (2 + 2 * length a)%nat.
Proof.
  unfold Hex. cbn [String.length]. f_equal. f_equal.
  rewrite string_of_list_ascii_length, length_imap.
  induction a as [| b a IH]; simpl; [ done |]. rewrite IH. lia.
Qed.

(** *** The UTF-8 text of a wallet index *)

Lemma lor_C0 y : 0 <= y < 32 -> Z.lor 0xC0 y = 0xC0 + y.
Proof.
  intros Hy. apply Z.eqb_eq.
  apply (forall_below (fun y => Z.lor 0xC0 y =? 0xC0 + y) 32); [| done ].
  vm_compute. reflexivity.
Qed.

Lemma lor_E0 y : 0 <= y < 16 -> Z.lor 0xE0 y = 0xE0 + y.
Proof.
  intros Hy. apply Z.eqb_eq.
  apply (forall_below (fun y => Z.lor 0xE0 y =? 0xE0 + y) 16); [| done ].
  vm_compute. reflexivity.
Qed.

Lemma lor_F0 y : 0 <= y < 8 -> Z.lor 0xF0 y = 0xF0 + y.
Proof.
  intros Hy. apply Z.eqb_eq.
  apply (forall_below (fun y => Z.lor 0xF0 y =? 0xF0 + y) 8); [| done ].
  vm_compute. reflexivity.
Qed.

Lemma lor_80 y : 0 <= y < 64 -> Z.lor 0x80 y = 0x80 + y.
Proof.
  intros Hy. apply Z.eqb_eq.
  apply (forall_below (fun y => Z.lor 0x80 y =? 0x80 + y) 64); [| done ].
  vm_compute. reflexivity.
Qed.

(** A continuation byte carries six bits. *)
Lemma continuation_byte x :
  0 <= x -> Z.lor 0x80 (Z.land (byte_of x) 0x3F) = 0x80 + x mod 64.
Proof.
  intros Hx. change 0x3F with (Z.ones 6).
  rewrite Z.land_ones by lia. unfold byte_of.
  change (2 ^ 6) with 64.
  assert (Heq : (x mod 256) mod 64 = x mod 64).
  { Z.div_mod_to_equations. lia. }
  rewrite Heq. apply lor_80. apply Z.mod_pos_bound. lia.
Qed.

Lemma wrap32_small w : 0 <= w < 2 ^ 31 -> wrap32 w = w.
Proof.
  intros Hw. unfold wrap32. rewrite Z.mod_small; lia.
Qed.

(** On a scalar value the encoder is the UTF-8 encoding: it can be read
    back, and its bytes are bytes. *)
Lemma encoderune_decode r :
  scalarValue r ->
  decoderune (encoderune r) = r /\
  Forall (fun b => 0 <= b < 256) (encoderune r).
Proof.
  unfold scalarValue, surrogateMin, surrogateMax, maxRune. intros Hr.
  assert (Hsmall : r mod 2 ^ 32 = r) by (apply Z.mod_small; lia).
  unfold encoderune. rewrite Hsmall.
  unfold rune1Max, rune2Max, rune3Max, maxRune, surrogateMin, surrogateMax.
  destruct (Z.leb_spec r 0x7F) as [H1 | H1].
  { unfold byte_of. rewrite Z.mod_small by lia. simpl.
    split; [ done |]. repeat constructor; lia. }
  destruct (Z.leb_spec r 0x7FF) as [H2 | H2].
  { rewrite continuation_byte by lia. rewrite Z.shiftr_div_pow2 by lia.
    change (2 ^ 6) with 64. unfold byte_of.
    rewrite (Z.mod_small (r / 64)) by (Z.div_mod_to_equations; lia).
    rewrite lor_C0 by (Z.div_mod_to_equations; lia).
    cbn [decoderune]. split; [ Z.div_mod_to_equations; lia |].
    repeat constructor; Z.div_mod_to_equations; lia. }
  assert (Hvalid : (0x10FFFF <? r) || ((0xD800 <=? r) && (r <=? 0xDFFF))
                   = false).
  { destruct (Z.ltb_spec 0x10FFFF r); [ lia |].
    destruct (Z.leb_spec 0xD800 r); [| done ].
    destruct (Z.leb_spec r 0xDFFF); [ lia | done ]. }
  rewrite Hvalid.
  destruct (Z.leb_spec r 0xFFFF) as [H3 | H3].
  { unfold encode3.
    rewrite !continuation_byte
      by (try rewrite Z.shiftr_div_pow2 by lia; Z.div_mod_to_equations; lia).
    rewrite !Z.shiftr_div_pow2 by lia.
    change (2 ^ 6) with 64. change (2 ^ 12) with 4096. unfold byte_of.
    rewrite (Z.mod_small (r / 4096)) by (Z.div_mod_to_equations; lia).
    rewrite lor_E0 by (Z.div_mod_to_equations; lia).
    cbn [decoderune]. split; [ Z.div_mod_to_equations; lia |].
    repeat constructor; Z.div_mod_to_equations; lia. }
  unfold encode4.
  rewrite !continuation_byte
    by (try rewrite Z.shiftr_div_pow2 by lia; Z.div_mod_to_equations; lia).
  rewrite !Z.shiftr_div_pow2 by lia.
  change (2 ^ 6) with 64. change (2 ^ 12) with 4096.
  change (2 ^ 18) with 262144. unfold byte_of.
  rewrite (Z.mod_small (r / 262144)) by (Z.div_mod_to_equations; lia).
  rewrite lor_F0 by (Z.div_mod_to_equations; lia).
  cbn [decoderune]. split; [ Z.div_mod_to_equations; lia |].
  repeat constructor; Z.div_mod_to_equations; lia.
Qed.

Lemma string_of_bytes_inj bs1 bs2 :
  Forall (fun b => 0 <= b < 256) bs1 ->
  Forall (fun b => 0 <= b < 256) bs2 ->
  string_of_bytes bs1 = string_of_bytes bs2 -> bs1 = bs2.
Proof.
  unfold string_of_bytes. intros H1 H2 Heq.
  apply string_of_list_ascii_inj in Heq.
  revert bs2 H2 Heq. induction H1 as [| b1 bs1 Hb1 _ IH];
    intros [| b2 bs2] H2 Heq; try done.
  inversion H2 as [| ? ? Hb2 H2']; subst.
  simpl in Heq. injection Heq as Hhead Htail.
  f_equal; [| by apply IH ].
  apply (f_equal N_of_ascii) in Hhead.
  rewrite !N_ascii_embedding in Hhead by lia. lia.
Qed.

Lemma runeString_inj w1 w2 :
  scalarValue w1 -> scalarValue w2 ->
  runeString w1 = runeString w2 -> w1 = w2.
Proof.
  intros Hw1 Hw2. unfold runeString.
  assert (Hs1 : wrap32 w1 = w1).
  { apply wrap32_small.
    unfold scalarValue, surrogateMin, surrogateMax, maxRune in Hw1. lia. }
  assert (Hs2 : wrap32 w2 = w2).
  { apply wrap32_small.
    unfold scalarValue, surrogateMin, surrogateMax, maxRune in Hw2. lia. }
  rewrite Hs1, Hs2.
  destruct (encoderune_decode w1 Hw1) as [Hd1 Hb1].
  destruct (encoderune_decode w2 Hw2) as [Hd2 Hb2].
  intros Heq. apply string_of_bytes_inj in Heq; [| done | done ].
  congruence.
Qed.

Lemma string_app_inj (s1 s2 t1 t2 : string) :
  String.length s1 = String.length s2 ->
  (s1 ++ t1 = s2 ++ t2)%string -> s1 = s2 /\ t1 = t2.
Proof.
  revert s2. induction s1 as [| c1 s1 IH]; intros [| c2 s2]; simpl;
    try done.
  intros [= Hlen] [= -> Happ]. destruct (IH s2 Hlen Happ) as [-> ->]. done.
Qed.

(** Among scalar values the key identifies the pair: two pairs with the
    same key are the same pair. *)
Lemma positionKey_inj_scalars w1 a1 w2 a2 :
  length a1 = 20%nat -> length a2 = 20%nat ->
  scalarValue w1 -> scalarValue w2 ->
  positionKey keccak256 w1 a1 = positionKey keccak256 w2 a2 ->
  w1 = w2 /\ a1 = a2.
Proof.
  intros Hl1 Hl2 Hw1 Hw2. unfold positionKey. intros Heq.
  apply string_app_inj in Heq as [Hhex Hrest].
  2: { by rewrite !Hex_length, Hl1, Hl2. }
  apply Hex_inj in Hhex. injection Hrest as Hrune.
  apply runeString_inj in Hrune; done.
Qed.

(** C9, on the code: the wallet indices 55296 and 55297 (two surrogate code
    points, both turned into U+FFFD by the conversion [string(rune(i))])
    get the same key for every token, so the key is not unique per
    (wallet index, token address) pair. *)
Theorem C9_positionKey_collision (tokenAddress : Address) :
  55296 <> 55297 /\
  positionKey keccak256 55296 tokenAddress =
    positionKey keccak256 55297 tokenAddress.
Proof. split; [ lia | reflexivity ]. Qed.

(** The same happens for indices 32 bits apart, and for negative ones. *)
Lemma positionKey_collision_wrap (tokenAddress : Address) :
  positionKey keccak256 0 tokenAddress =
    positionKey keccak256 (2 ^ 32) tokenAddress.
Proof. reflexivity. Qed.

End KeyFacts.

(** ** The position monitor *)

Section MonitorFacts.

Import StopLoss.

Context {World : Type} {TE : TradeExecutor World}.
Variable keccak256 : list Byte.byte -> list Byte.byte.
Variable priceReached : Z -> bool.

Local Abbreviation checkTakeProfit := (checkTakeProfit priceReached).
Local Abbreviation checkPosition := (checkPosition priceReached).
Local Abbreviation checkPositionsIn := (checkPositionsIn priceReached).
Local Abbreviation lifetime := (lifetime priceReached).
Local Abbreviation TakeProfitOutcome := (TakeProfitOutcome priceReached).
Local Abbreviation CheckOutcome := (CheckOutcome priceReached).
Local Abbreviation AddPosition := (AddPosition keccak256).
Local Abbreviation reachable := (reachable keccak256 priceReached).

(** *** The functions land in the outcome relations, and always return *)

Lemma executeSell_outcome pos amount (w : World) :
  exists pos' w' tr,
    executeSell pos amount w = Some (pos', w', tr) /\
    SellOutcome pos amount pos' tr.
Proof.
  unfold executeSell, sellTokens, bind, callApproveToken, callSellToken,
    emit, ret.
  destruct (Approved pos) eqn:Happ; simpl.
  - destruct (SellToken _ _ _ w) as [r w1].
    do 3 eexists. split; [ reflexivity | by constructor ].
  - destruct (ApproveToken _ _ _ w) as [[tx | e] w1]; simpl.
    + destruct (SellToken _ _ _ w1) as [r w2].
      do 3 eexists. split; [ reflexivity | by constructor ].
    + do 3 eexists. split; [ reflexivity | by constructor ].
Qed.

Lemma checkTakeProfit_outcome pos (w : World) :
  exists pos' w' tr,
    checkTakeProfit pos w = Some (pos', w', tr) /\
    TakeProfitOutcome pos pos' tr.
Proof.
  unfold StopLoss.checkTakeProfit.
  rewrite Cmp_lt0. fold (quotedUnit pos).
  rewrite Div_pos by lia. rewrite !Cmp_gt0.
  assert (Hamt : (if TokenAmount pos <?
                       InitialTokenAmount pos * TakeProfitSellPercent / 100
                  then TokenAmount pos
                  else InitialTokenAmount pos * TakeProfitSellPercent / 100)
                 = takeProfitAmount pos).
  { unfold takeProfitAmount.
    destruct (Z.ltb_spec (TokenAmount pos)
                (InitialTokenAmount pos * TakeProfitSellPercent / 100)); lia. }
  rewrite Hamt.
  unfold bind, callGetTokenPriceInUSDT, emit, ret.
  destruct (GetTokenPriceInUSDT _ _ _ w) as [[u | e] w1].
  2: { do 3 eexists. split; [ reflexivity | constructor ]. }
  destruct (priceReached u) eqn:Hu.
  2: { do 3 eexists. split; [ reflexivity | by constructor ]. }
  destruct (Z.ltb_spec 0 (takeProfitAmount pos)) as [Hpos | Hpos].
  - destruct (executeSell_outcome pos (takeProfitAmount pos) w1)
      as (pos1 & w2 & tr1 & -> & Hsell).
    do 3 eexists. split; [ reflexivity |].
    cbn [app]. rewrite app_nil_r. by apply tp_sell.
  - do 3 eexists. split; [ reflexivity |]. by apply tp_nothing_to_sell.
Qed.

Lemma checkStopLoss_outcome stopLoss pos (w : World) :
  exists out w' tr,
    checkStopLoss stopLoss pos w = Some (out, w', tr) /\
    StopLossOutcome stopLoss pos out tr.
Proof.
  unfold checkStopLoss, bind, callGetTokenPrice, emit, ret.
  destruct (GetTokenPrice _ _ _ w) as [[price | e] w1].
  2: { do 3 eexists. split; [ reflexivity | constructor ]. }
  destruct (calculateDropPercent_total (BuyPriceWei pos) price) as [drop Hd].
  rewrite Hd.
  destruct (Z.leb_spec stopLoss drop) as [Hfire | Hhold].
  - destruct (executeSell_outcome pos (TokenAmount pos) w1)
      as (pos1 & w2 & tr1 & -> & Hsell).
    do 3 eexists. split; [ reflexivity |].
    cbn [app]. rewrite app_nil_r. by eapply sl_fire.
  - do 3 eexists. split; [ reflexivity |]. by eapply sl_hold.
Qed.

Lemma checkPosition_outcome stopLoss pos (w : World) :
  exists out w' tr,
    checkPosition stopLoss pos w = Some (out, w', tr) /\
    CheckOutcome stopLoss pos out tr.
Proof.
  unfold StopLoss.checkPosition.
  destruct (Sold pos) eqn:Hsold.
  { do 3 eexists. split; [ reflexivity | by constructor ]. }
  unfold bind at 1, callGetTokenBalance.
  destruct (GetTokenBalance _ _ w) as [[balance | e] w1].
  2: { do 3 eexists. split; [ reflexivity | by constructor ]. }
  rewrite Cmp_le0.
  destruct (Z.leb_spec balance 0) as [Hle | Hlt].
  { do 3 eexists. split; [ reflexivity | by constructor ]. }
  change (TakeProfitDone (set_TokenAmount balance pos))
    with (TakeProfitDone pos).
  destruct (TakeProfitDone pos) eqn:Htp; cbn [negb].
  - unfold bind, ret.
    destruct (checkStopLoss_outcome stopLoss (set_TokenAmount balance pos) w1)
      as (out & w2 & tr2 & -> & Hout).
    do 3 eexists. split; [ reflexivity |].
    cbn [app]. by apply co_stop_loss_only.
  - unfold bind.
    destruct (checkTakeProfit_outcome (set_TokenAmount balance pos) w1)
      as (pos1 & w2 & tr1 & -> & Hout1).
    destruct (checkStopLoss_outcome stopLoss pos1 w2)
      as (out & w3 & tr2 & -> & Hout2).
    do 3 eexists. split; [ reflexivity |].
    cbn [app]. by eapply co_take_profit.
Qed.

(** Every run of the loop body is one of the outcomes. *)
Lemma checkPosition_sound stopLoss pos (w : World) out w' tr :
  checkPosition stopLoss pos w = Some (out, w', tr) ->
  CheckOutcome stopLoss pos out tr.
Proof.
  intros Hrun.
  destruct (checkPosition_outcome stopLoss pos w) as (o & w1 & t & H1 & H2).
  rewrite Hrun in H1. by injection H1 as <- <- <-.
Qed.

Lemma checkTakeProfit_sound pos (w : World) pos' w' tr :
  checkTakeProfit pos w = Some (pos', w', tr) ->
  TakeProfitOutcome pos pos' tr.
Proof.
  intros Hrun.
  destruct (checkTakeProfit_outcome pos w) as (o & w1 & t & H1 & H2).
  rewrite Hrun in H1. by injection H1 as <- <- <-.
Qed.

Lemma executeSell_sound pos amount (w : World) pos' w' tr :
  executeSell pos amount w = Some (pos', w', tr) ->
  SellOutcome pos amount pos' tr.
Proof.
  intros Hrun.
  destruct (executeSell_outcome pos amount w) as (o & w1 & t & H1 & H2).
  rewrite Hrun in H1. by injection H1 as <- <- <-.
Qed.

(** *** Traces *)

Lemma count_app P (t1 t2 : list Event) :
  count P (t1 ++ t2) = (count P t1 + count P t2)%nat.
Proof. induction t1 as [| e t1 IH]; simpl; [ done | rewrite IH; lia ]. Qed.

Lemma soldAmounts_app (t1 t2 : list Event) :
  soldAmounts (t1 ++ t2) = soldAmounts t1 ++ soldAmounts t2.
Proof.
  induction t1 as [| e t1 IH]; simpl; [ done |].
  destruct e; simpl; by rewrite ?IH.
Qed.

Lemma count_approveOk_le (tr : list Event) :
  (count isApproveOk tr <= count isApprove tr)%nat.
Proof.
  induction tr as [| e tr IH]; simpl; [ lia |].
  destruct e as [| | | ? ? ? [|] | | |]; simpl; lia.
Qed.

Lemma approvalsGated_set (tr : list Event) :
  approvalsGated true tr -> count isApprove tr = 0%nat.
Proof.
  induction tr as [| e tr IH]; simpl; [ done |].
  destruct e; simpl; try exact IH. by intros [? _].
Qed.

Lemma approvalsGated_once a (tr : list Event) :
  approvalsGated a tr -> (count isApproveOk tr <= 1)%nat.
Proof.
  revert a. induction tr as [| e tr IH]; intros a; simpl; [ lia |].
  destruct e as [| | | s t amt [tx | err] | | |]; simpl; try apply IH.
  - intros [_ Hg]. apply approvalsGated_set in Hg.
    pose proof (count_approveOk_le tr). lia.
  - intros [_ Hg]. apply IH in Hg. lia.
Qed.

Lemma approvedAfter_app a (t1 t2 : list Event) :
  approvedAfter (approvedAfter a t1) t2 = approvedAfter a (t1 ++ t2).
Proof.
  unfold approvedAfter. rewrite count_app.
  destruct a; simpl; [ done |].
  destruct (count isApproveOk t1), (count isApproveOk t2); simpl; done.
Qed.

Lemma approvalsGated_app a (t1 t2 : list Event) :
  approvalsGated a t1 -> approvalsGated (approvedAfter a t1) t2 ->
  approvalsGated a (t1 ++ t2).
Proof.
  revert a. induction t1 as [| e t1 IH]; intros a; simpl.
  - unfold approvedAfter. simpl. by rewrite orb_false_r.
  - destruct e as [| | | s t amt r | | |]; simpl;
      try (intros H1 H2; apply IH; [ exact H1 | exact H2 ]).
    intros [-> H1] H2. split; [ done |]. apply IH; [ exact H1 |].
    revert H2. unfold approvedAfter.
    destruct r; simpl; [ | done ].
    by destruct (count isApproveOk t1).
Qed.

(** *** What a sell attempt leaves behind *)

Lemma sameIdentity_refl p : sameIdentity p p.
Proof. by repeat split. Qed.

Lemma sameIdentity_trans p q r :
  sameIdentity p q -> sameIdentity q r -> sameIdentity p r.
Proof.
  unfold sameIdentity. intros (?&?&?&?&?&?) (?&?&?&?&?&?).
  repeat split; congruence.
Qed.

Lemma SellOutcome_state pos amount pos' tr :
  SellOutcome pos amount pos' tr ->
  sameIdentity pos pos' /\ TokenAmount pos' = TokenAmount pos /\
  TakeProfitDone pos' = TakeProfitDone pos.
Proof. intros H; inversion H; subst; by repeat split. Qed.

Lemma SellOutcome_approval pos amount pos' tr :
  SellOutcome pos amount pos' tr ->
  approvalsGated (Approved pos) tr /\
  Approved pos' = approvedAfter (Approved pos) tr.
Proof.
  intros H; inversion H as [r Ha | e Ha | tx r Ha]; subst;
    unfold approvedAfter; rewrite Ha; simpl; by repeat split.
Qed.

Lemma SellOutcome_markers pos amount pos' tr :
  SellOutcome pos amount pos' tr ->
  count isTakeProfitLog tr = 0%nat /\ count isStopLossLog tr = 0%nat /\
  count isUSDTQuery tr = 0%nat /\ count isPriceQuery tr = 0%nat.
Proof. intros H; inversion H; subst; by repeat split. Qed.

(** A sell attempt hands [amount] to [SellToken], unless the approval
    failed, in which case nothing is sold. *)
Lemma SellOutcome_sold pos amount pos' tr :
  SellOutcome pos amount pos' tr ->
  soldAmounts tr = [amount] \/
  (soldAmounts tr = [] /\
   exists e, tr = [EvApproveToken (Swapper pos) (TokenAddress pos)
                     maxApprove (Err e)]).
Proof.
  intros H; inversion H; subst; simpl; [ by left | right | by left ].
  split; [ done | by eexists ].
Qed.

(** *** What the take-profit check leaves behind *)

Lemma TakeProfitOutcome_state pos pos' tr :
  TakeProfitOutcome pos pos' tr ->
  sameIdentity pos pos' /\ TokenAmount pos' = TokenAmount pos.
Proof.
  intros H; inversion H as [e | u Hu | u Hu Hamt | u pos1 tr1 Hu Hamt Hsell];
    subst; try by repeat split.
  apply SellOutcome_state in Hsell as (Hid & Hamt' & _).
  destruct Hid as (?&?&?&?&?&?). by repeat split.
Qed.

Lemma TakeProfitOutcome_approval pos pos' tr :
  TakeProfitOutcome pos pos' tr ->
  approvalsGated (Approved pos) tr /\
  Approved pos' = approvedAfter (Approved pos) tr.
Proof.
  intros H; inversion H as [e | u Hu | u Hu Hamt | u pos1 tr1 Hu Hamt Hsell];
    subst; unfold approvedAfter; simpl;
    try (rewrite orb_false_r; by split).
  apply SellOutcome_approval in Hsell as [Hg Ha]. by split.
Qed.

Lemma TakeProfitOutcome_markers pos pos' tr :
  TakeProfitOutcome pos pos' tr ->
  (count isTakeProfitLog tr <= 1)%nat /\
  TakeProfitDone pos' =
    TakeProfitDone pos || (0 <? count isTakeProfitLog tr)%nat /\
  count isUSDTQuery tr = 1%nat /\
  count isStopLossLog tr = 0%nat /\ count isPriceQuery tr = 0%nat /\
  (forall s t a u, In (EvGetTokenPriceInUSDT s t a (Ok u)) tr ->
                   priceReached u = true ->
                   count isTakeProfitLog tr = 1%nat).
Proof.
  intros H; inversion H as [e | u Hu | u Hu Hamt | u pos1 tr1 Hu Hamt Hsell];
    subst; simpl.
  - rewrite orb_false_r. repeat split; try lia.
    intros s t a u [Heq | []]. discriminate.
  - rewrite orb_false_r. repeat split; try lia.
    intros s t a u' [Heq | []]. injection Heq as _ _ _ <-. congruence.
  - rewrite orb_true_r. repeat split; lia.
  - pose proof (SellOutcome_markers _ _ _ _ Hsell) as (-> & -> & -> & ->).
    rewrite orb_true_r. repeat split; lia.
Qed.

(** Whatever the take-profit check sells is the 70% amount capped by the
    balance; once triggered it sells exactly that, unless the amount is
    not positive or the approval failed. *)
Lemma TakeProfitOutcome_sold pos pos' tr :
  TakeProfitOutcome pos pos' tr ->
  (forall a, In a (soldAmounts tr) -> a = takeProfitAmount pos) /\
  (count isTakeProfitLog tr = 1%nat ->
   soldAmounts tr = [takeProfitAmount pos] \/
   (soldAmounts tr = [] /\
    (takeProfitAmount pos <= 0 \/
     exists e, In (EvApproveToken (Swapper pos) (TokenAddress pos)
                     maxApprove (Err e)) tr))).
Proof.
  intros H; inversion H as [e | u Hu | u Hu Hamt | u pos1 tr1 Hu Hamt Hsell];
    subst; simpl; try (split; [ by intros a [] | discriminate ]).
  - split; [ by intros a [] |]. intros _. right. split; [ done | by left ].
  - destruct (SellOutcome_sold _ _ _ _ Hsell) as [-> | [-> [e ->]]].
    + split; [ intros a [<- | []]; done | intros _; by left ].
    + split; [ by intros a [] |]. intros _. right. split; [ done |].
      right. exists e. right. right. by left.
Qed.

(** *** What the stop-loss decision leaves behind *)

Lemma StopLossOutcome_state stopLoss pos pos' deleted tr :
  StopLossOutcome stopLoss pos (pos', deleted) tr ->
  sameIdentity pos pos' /\ TokenAmount pos' = TokenAmount pos /\
  TakeProfitDone pos' = TakeProfitDone pos.
Proof.
  intros H; inversion H as [e | p d Hd Hlt | p d pos1 tr1 Hd Hle Hsell];
    subst; try by repeat split.
  by apply SellOutcome_state in Hsell.
Qed.

Lemma StopLossOutcome_approval stopLoss pos pos' deleted tr :
  StopLossOutcome stopLoss pos (pos', deleted) tr ->
  approvalsGated (Approved pos) tr /\
  Approved pos' = approvedAfter (Approved pos) tr.
Proof.
  intros H; inversion H as [e | p d Hd Hlt | p d pos1 tr1 Hd Hle Hsell];
    subst; unfold approvedAfter; simpl;
    try (rewrite orb_false_r; by split).
  apply SellOutcome_approval in Hsell as [Hg Ha]. by split.
Qed.

(** The entry is deleted exactly when the stop-loss line was logged, which
    needs a successful quote and a drop at or above the threshold. *)
Lemma StopLossOutcome_markers stopLoss pos pos' deleted tr :
  StopLossOutcome stopLoss pos (pos', deleted) tr ->
  count isTakeProfitLog tr = 0%nat /\ count isUSDTQuery tr = 0%nat /\
  count isStopLossLog tr = (if deleted then 1 else 0)%nat /\
  (exists r rest,
     tr = EvGetTokenPrice (Swapper pos) (TokenAddress pos) (TokenAmount pos) r
          :: rest) /\
  (forall s t a e, In (EvGetTokenPrice s t a (Err e)) tr -> deleted = false) /\
  (deleted = true ->
   exists price drop,
     In (EvGetTokenPrice (Swapper pos) (TokenAddress pos) (TokenAmount pos)
           (Ok price)) tr /\
     calculateDropPercent (BuyPriceWei pos) price = Some drop /\
     stopLoss <= drop /\
     In (EvLog (StopLossTriggered (WalletIndex pos) (TokenAddress pos) drop))
        tr).
Proof.
  intros H; inversion H as [e | p d Hd Hlt | p d pos1 tr1 Hd Hle Hsell];
    subst; simpl.
  - split_and!; try done; by eauto.
  - split_and!; try done; by eauto.
  - pose proof (SellOutcome_markers _ _ _ _ Hsell) as (-> & -> & -> & _).
    split_and!; try done; try (by eauto).
    + intros s t a e [Heq | [Heq | Hin]]; try discriminate.
      exfalso. inversion Hsell; subst; simpl in Hin;
        repeat (destruct Hin as [Heq | Hin]; [ discriminate |]); done.
    + intros _. exists p, d. split_and!; auto.
Qed.

(** A stop-loss sell hands the whole tracked balance to [SellToken]. *)
Lemma StopLossOutcome_sold stopLoss pos pos' deleted tr :
  StopLossOutcome stopLoss pos (pos', deleted) tr ->
  forall a, In a (soldAmounts tr) -> a = TokenAmount pos.
Proof.
  intros H; inversion H as [e | p d Hd Hlt | p d pos1 tr1 Hd Hle Hsell];
    subst; simpl; try by intros a [].
  destruct (SellOutcome_sold _ _ _ _ Hsell) as [-> | [-> _]].
  - by intros a [<- | []].
  - by intros a [].
Qed.

(** When the stop-loss fires, the sell is attempted (an approval or a sell
    call follows the log line) and the entry is deleted whatever became of
    the attempt. *)
Lemma StopLossOutcome_fire stopLoss pos pos' tr :
  StopLossOutcome stopLoss pos (pos', true) tr ->
  (exists e, In (EvApproveToken (Swapper pos) (TokenAddress pos) maxApprove
                   (Err e)) tr /\ soldAmounts tr = []) \/
  (exists r, In (EvSellToken (Swapper pos) (TokenAddress pos)
                   (TokenAmount pos) r) tr).
Proof.
  intros H; inversion H as [| | p d pos1 tr1 Hd Hle Hsell]; subst.
  inversion Hsell; subst; simpl.
  - right. eexists. right. right. by left.
  - left. eexists. split; [ right; right; by left | done ].
  - right. eexists. do 4 right. by left.
Qed.

(** *** What one evaluation of a position leaves behind *)

Lemma count_zero_In P (tr : list Event) e :
  count P tr = 0%nat -> In e tr -> P e = false.
Proof.
  induction tr as [| e' tr IH]; simpl; [ done |].
  intros Hc [<- | Hin].
  - destruct (P e'); [ lia | done ].
  - apply IH; [ lia | done ].
Qed.

Lemma In_count_pos P (tr : list Event) e :
  In e tr -> P e = true -> (1 <= count P tr)%nat.
Proof.
  intros Hin HP. destruct (count P tr) eqn:Hc; [| lia ].
  rewrite (count_zero_In P tr e Hc Hin) in HP. discriminate.
Qed.

Lemma CheckOutcome_state stopLoss pos pos' deleted tr :
  CheckOutcome stopLoss pos (pos', deleted) tr ->
  sameIdentity pos pos' /\
  ((pos' = pos /\ deleted = false /\ soldAmounts tr = [] /\
    forall s t a, ~ In (EvGetTokenBalance s t (Ok a)) tr \/ a <= 0) \/
   (0 < TokenAmount pos' /\
    exists rest,
      tr = EvGetTokenBalance (Swapper pos) (TokenAddress pos)
             (Ok (TokenAmount pos')) :: rest)).
Proof.
  intros H;
    inversion H as [Hs | e Hs | b Hs Hb
                   | b pos1 tr1 out tr2 Hs Hb Htp Hout1 Hout2
                   | b out tr2 Hs Hb Htp Hout2]; subst.
  - split; [ apply sameIdentity_refl |]. left. split_and!; try done.
    intros s t a. left. by intros [].
  - split; [ apply sameIdentity_refl |]. left. split_and!; try done.
    intros s t a. left. by intros [? | []].
  - split; [ apply sameIdentity_refl |]. left. split_and!; try done.
    intros s t a. destruct (Z.le_gt_cases a 0); [ by right | left ].
    intros [Heq | []]. injection Heq as _ _ <-. lia.
  - apply TakeProfitOutcome_state in Hout1 as [Hid1 Ham1].
    apply StopLossOutcome_state in Hout2 as (Hid2 & Ham2 & _).
    split.
    + eapply sameIdentity_trans; [| exact Hid2 ].
      eapply sameIdentity_trans; [| exact Hid1 ]. by repeat split.
    + right. rewrite Ham2, Ham1. simpl. split; [ lia | by eexists ].
  - apply StopLossOutcome_state in Hout2 as (Hid2 & Ham2 & _).
    split.
    + eapply sameIdentity_trans; [| exact Hid2 ]. by repeat split.
    + right. rewrite Ham2. simpl. split; [ lia | by eexists ].
Qed.

Lemma CheckOutcome_approval stopLoss pos pos' deleted tr :
  CheckOutcome stopLoss pos (pos', deleted) tr ->
  approvalsGated (Approved pos) tr /\
  Approved pos' = approvedAfter (Approved pos) tr.
Proof.
  intros H;
    inversion H as [Hs | e Hs | b Hs Hb
                   | b pos1 tr1 out tr2 Hs Hb Htp Hout1 Hout2
                   | b out tr2 Hs Hb Htp Hout2]; subst;
    try (unfold approvedAfter; simpl; rewrite orb_false_r; by split).
  - apply TakeProfitOutcome_approval in Hout1 as [Hg1 Ha1].
    apply StopLossOutcome_approval in Hout2 as [Hg2 Ha2].
    simpl in Hg1, Ha1. rewrite Ha1 in Hg2, Ha2.
    change (approvalsGated (Approved pos) (tr1 ++ tr2) /\
            Approved pos' = approvedAfter (Approved pos) (tr1 ++ tr2)).
    rewrite <- approvedAfter_app. split; [| done ].
    by apply approvalsGated_app.
  - apply StopLossOutcome_approval in Hout2 as [Hg2 Ha2]. by split.
Qed.

Lemma CheckOutcome_take_profit stopLoss pos pos' deleted tr :
  CheckOutcome stopLoss pos (pos', deleted) tr ->
  (count isTakeProfitLog tr <= 1)%nat /\
  TakeProfitDone pos' =
    TakeProfitDone pos || (0 <? count isTakeProfitLog tr)%nat /\
  (TakeProfitDone pos = true ->
   count isUSDTQuery tr = 0%nat /\ count isTakeProfitLog tr = 0%nat) /\
  (forall s t a u, In (EvGetTokenPriceInUSDT s t a (Ok u)) tr ->
                   priceReached u = true ->
                   count isTakeProfitLog tr = 1%nat).
Proof.
  intros H;
    inversion H as [Hs | e Hs | b Hs Hb
                   | b pos1 tr1 out tr2 Hs Hb Htp Hout1 Hout2
                   | b out tr2 Hs Hb Htp Hout2]; subst; simpl;
    try (rewrite orb_false_r; split_and!; try done; try lia;
         try (intros s t a u [Heq | []]; discriminate);
         by intros s t a u []).
  - apply TakeProfitOutcome_markers in Hout1
      as (Hle & Hflag & Husdt & Hsl & Hpq & Hreach).
    pose proof (StopLossOutcome_state _ _ _ _ _ Hout2) as (_ & _ & Hkeep).
    apply StopLossOutcome_markers in Hout2 as (Htp2 & Husdt2 & _).
    rewrite count_app, Htp2, Nat.add_0_r.
    simpl in Hflag. rewrite Hkeep, Hflag.
    split_and!; try done; [ congruence |].
    intros s t a u [Heq | Hin] Hu; [ discriminate |].
    apply in_app_iff in Hin as [Hin | Hin]; [ by eapply Hreach |].
    pose proof (count_zero_In _ _ _ Husdt2 Hin) as Hf. discriminate Hf.
  - pose proof (StopLossOutcome_state _ _ _ _ _ Hout2) as (_ & _ & Hkeep).
    apply StopLossOutcome_markers in Hout2 as (Htp2 & Husdt2 & _).
    rewrite Htp2, Husdt2, Hkeep. simpl. rewrite orb_false_r.
    split_and!; try done; try lia.
    intros s t a u [Heq | Hin] Hu; [ discriminate |].
    pose proof (count_zero_In _ _ _ Husdt2 Hin) as Hf. discriminate Hf.
Qed.

Lemma SellOutcome_no_balance pos amount pos' tr :
  SellOutcome pos amount pos' tr -> count isBalanceQuery tr = 0%nat.
Proof. intros H; by inversion H. Qed.

Lemma TakeProfitOutcome_no_balance pos pos' tr :
  TakeProfitOutcome pos pos' tr -> count isBalanceQuery tr = 0%nat.
Proof.
  intros H; inversion H; subst; simpl; try done.
  by eapply SellOutcome_no_balance.
Qed.

Lemma StopLossOutcome_no_balance stopLoss pos out tr :
  StopLossOutcome stopLoss pos out tr -> count isBalanceQuery tr = 0%nat.
Proof.
  intros H; inversion H; subst; simpl; try done.
  by eapply SellOutcome_no_balance.
Qed.

(** The entry is deleted exactly when the stop-loss line is logged; that
    needs a positive balance, a quote for it, and a drop at or above the
    threshold.  A failed balance or price query never deletes. *)
Lemma CheckOutcome_deleted stopLoss pos pos' deleted tr :
  CheckOutcome stopLoss pos (pos', deleted) tr ->
  count isStopLossLog tr = (if deleted then 1 else 0)%nat /\
  (forall s t e, In (EvGetTokenBalance s t (Err e)) tr -> deleted = false) /\
  (forall s t a e, In (EvGetTokenPrice s t a (Err e)) tr -> deleted = false) /\
  (deleted = true ->
   exists balance price drop,
     0 < balance /\
     In (EvGetTokenBalance (Swapper pos) (TokenAddress pos) (Ok balance)) tr /\
     In (EvGetTokenPrice (Swapper pos) (TokenAddress pos) balance (Ok price))
        tr /\
     calculateDropPercent (BuyPriceWei pos) price = Some drop /\
     stopLoss <= drop /\
     In (EvLog (StopLossTriggered (WalletIndex pos) (TokenAddress pos) drop))
        tr).
Proof.
  intros H;
    inversion H as [Hs | e Hs | b Hs Hb
                   | b pos1 tr1 out tr2 Hs Hb Htp Hout1 Hout2
                   | b out tr2 Hs Hb Htp Hout2]; subst; simpl;
    try (split_and!; done).
  - pose proof (TakeProfitOutcome_state _ _ _ Hout1)
      as ((Hta & Hbp & _ & Hwi & Hsw & _) & Ham).
    simpl in Hta, Hbp, Hwi, Hsw, Ham.
    pose proof (TakeProfitOutcome_no_balance _ _ _ Hout1) as Hnb1.
    pose proof (StopLossOutcome_no_balance _ _ _ _ Hout2) as Hnb2.
    apply TakeProfitOutcome_markers in Hout1 as (_ & _ & _ & Hsl1 & Hpq1 & _).
    apply StopLossOutcome_markers in Hout2
      as (_ & _ & Hsl2 & _ & Herr & Hdel).
    rewrite count_app, Hsl1, Hsl2. split_and!; [ done | | |].
    + intros s t e [Heq | Hin]; [ discriminate |].
      apply in_app_iff in Hin as [Hin | Hin].
      * pose proof (count_zero_In _ _ _ Hnb1 Hin) as Hf. discriminate Hf.
      * pose proof (count_zero_In _ _ _ Hnb2 Hin) as Hf. discriminate Hf.
    + intros s t a e [Heq | Hin]; [ discriminate |].
      apply in_app_iff in Hin as [Hin | Hin]; [| by eapply Herr ].
      pose proof (count_zero_In _ _ _ Hpq1 Hin) as Hf. discriminate Hf.
    + intros Hd. destruct (Hdel Hd) as (price & drop & Hq & Hc & Hle & Hlog).
      rewrite Hta, Hbp, Hwi, Hsw, Ham in *.
      exists b, price, drop. split_and!; try done.
      * by left.
      * right. apply in_app_iff. by right.
      * right. apply in_app_iff. by right.
  - pose proof (StopLossOutcome_no_balance _ _ _ _ Hout2) as Hnb2.
    apply StopLossOutcome_markers in Hout2
      as (_ & _ & Hsl2 & _ & Herr & Hdel).
    simpl in Hdel. split_and!; [ done | | |].
    + intros s t e [Heq | Hin]; [ discriminate |].
      pose proof (count_zero_In _ _ _ Hnb2 Hin) as Hf. discriminate Hf.
    + intros s t a e [Heq | Hin]; [ discriminate |]. by eapply Herr.
    + intros Hd. destruct (Hdel Hd) as (price & drop & Hq & Hc & Hle & Hlog).
      exists b, price, drop. split_and!; try done; [ by left | |]; by right.
Qed.

(** Whatever one evaluation hands to [SellToken] is at most the balance it
    has just read and stored in the position. *)
Lemma CheckOutcome_sold stopLoss pos pos' deleted tr :
  CheckOutcome stopLoss pos (pos', deleted) tr ->
  forall a, In a (soldAmounts tr) ->
    a <= TokenAmount pos' /\
    In (EvGetTokenBalance (Swapper pos) (TokenAddress pos)
          (Ok (TokenAmount pos'))) tr.
Proof.
  intros H a Hin.
  destruct (CheckOutcome_state _ _ _ _ _ H) as [_ [(_ & _ & Hnil & _) | Hread]].
  { rewrite Hnil in Hin. destruct Hin. }
  destruct Hread as [_ [rest Htr]].
  split; [| rewrite Htr; by left ].
  clear rest Htr.
  inversion H as [Hs | e Hs | b Hs Hb
                 | b pos1 tr1 out tr2 Hs Hb Htp Hout1 Hout2
                 | b out tr2 Hs Hb Htp Hout2]; subst; simpl in Hin;
    try done.
  - pose proof (TakeProfitOutcome_state _ _ _ Hout1) as [_ Ham1].
    pose proof (StopLossOutcome_state _ _ _ _ _ Hout2) as (_ & Ham2 & _).
    simpl in Ham1. rewrite soldAmounts_app in Hin.
    apply in_app_iff in Hin as [Hin | Hin].
    + apply (proj1 (TakeProfitOutcome_sold _ _ _ Hout1)) in Hin.
      subst a. rewrite Ham2, Ham1. unfold takeProfitAmount. simpl. lia.
    + apply (StopLossOutcome_sold _ _ _ _ _ Hout2) in Hin. lia.
  - pose proof (StopLossOutcome_state _ _ _ _ _ Hout2) as (_ & Ham2 & _).
    apply (StopLossOutcome_sold _ _ _ _ _ Hout2) in Hin. lia.
Qed.

(** *** The life of one position *)

Lemma lifetime_total stopLoss pos (ticks : list World) :
  exists tr final, lifetime stopLoss pos ticks = Some (tr, final).
Proof.
  revert pos. induction ticks as [| w ticks IH]; intros pos; simpl.
  - by eauto.
  - destruct (checkPosition_outcome stopLoss pos w)
      as ([pos' deleted] & w' & tr0 & -> & _).
    destruct deleted; [ by eauto |].
    destruct (IH pos') as (tr' & final & ->). by eauto.
Qed.

(** One step of [lifetime], as an inversion principle. *)
Lemma lifetime_step stopLoss pos (w : World) ticks tr final :
  lifetime stopLoss pos (w :: ticks) = Some (tr, final) ->
  exists pos' deleted tr0,
    CheckOutcome stopLoss pos (pos', deleted) tr0 /\
    ((deleted = true /\ tr = tr0 /\ final = None) \/
     (deleted = false /\
      exists tr', lifetime stopLoss pos' ticks = Some (tr', final) /\
                  tr = tr0 ++ tr')).
Proof.
  simpl.
  destruct (checkPosition_outcome stopLoss pos w)
    as ([pos' deleted] & w' & tr0 & -> & Hout).
  destruct deleted.
  - intros [= <- <-]. exists pos', true, tr0. split; [ done |]. by left.
  - destruct (lifetime stopLoss pos' ticks) as [[tr' fin] |] eqn:Hrest;
      [| done ].
    intros [= <- <-]. exists pos', false, tr0. split; [ done |].
    right. split; [ done |]. by exists tr'.
Qed.

Lemma lifetime_approval stopLoss pos (ticks : list World) tr final :
  lifetime stopLoss pos ticks = Some (tr, final) ->
  approvalsGated (Approved pos) tr /\
  (forall p, final = Some p -> Approved p = approvedAfter (Approved pos) tr).
Proof.
  revert pos tr final.
  induction ticks as [| w ticks IH]; intros pos tr final Hlife.
  - simpl in Hlife. injection Hlife as <- <-. split; [ done |].
    intros p [= <-]. unfold approvedAfter. simpl. by rewrite orb_false_r.
  - apply lifetime_step in Hlife
      as (pos' & deleted & tr0 & Hout & [(-> & -> & ->) | (-> & tr' & Hrest & ->)]).
    + apply CheckOutcome_approval in Hout as [Hg _]. by split.
    + apply CheckOutcome_approval in Hout as [Hg Ha].
      apply IH in Hrest as [Hg' Ha']. rewrite Ha in Hg', Ha'.
      split; [ by apply approvalsGated_app |].
      intros p Hp. rewrite (Ha' p Hp). apply approvedAfter_app.
Qed.

Lemma lifetime_take_profit stopLoss pos (ticks : list World) tr final :
  lifetime stopLoss pos ticks = Some (tr, final) ->
  (count isTakeProfitLog tr <= 1)%nat /\
  (forall p, final = Some p ->
     TakeProfitDone p =
       TakeProfitDone pos || (0 <? count isTakeProfitLog tr)%nat) /\
  (TakeProfitDone pos = true ->
   count isUSDTQuery tr = 0%nat /\ count isTakeProfitLog tr = 0%nat) /\
  (forall s t a u, In (EvGetTokenPriceInUSDT s t a (Ok u)) tr ->
                   priceReached u = true ->
                   count isTakeProfitLog tr = 1%nat).
Proof.
  revert pos tr final.
  induction ticks as [| w ticks IH]; intros pos tr final Hlife.
  - simpl in Hlife. injection Hlife as <- <-. simpl.
    split_and!; try done; try lia.
    intros p [= <-]. by rewrite orb_false_r.
  - apply lifetime_step in Hlife
      as (pos' & deleted & tr0 & Hout & [(-> & -> & ->) | (-> & tr' & Hrest & ->)]).
    + apply CheckOutcome_take_profit in Hout as (Hle & _ & Hset & Hreach).
      split_and!; done.
    + apply CheckOutcome_take_profit in Hout as (Hle & Hflag & Hset & Hreach).
      apply IH in Hrest as (Hle' & Hflag' & Hset' & Hreach').
      rewrite !count_app.
      assert (Hone : (count isTakeProfitLog tr0 + count isTakeProfitLog tr'
                      <= 1)%nat).
      { destruct (count isTakeProfitLog tr0) as [| n] eqn:Hc0; [ lia |].
        rewrite Hflag in Hset'. simpl in Hset'. rewrite orb_true_r in Hset'.
        destruct (Hset' eq_refl) as [_ ->]. lia. }
      split_and!.
      * exact Hone.
      * intros p Hp. rewrite (Hflag' p Hp), Hflag.
        destruct (TakeProfitDone pos); [ done |]. simpl.
        destruct (count isTakeProfitLog tr0), (count isTakeProfitLog tr');
          done.
      * intros Hdone. destruct (Hset Hdone) as [-> ->].
        rewrite Hflag, Hdone in Hset'. by apply Hset'.
      * intros s t a u Hin Hu. apply in_app_iff in Hin as [Hin | Hin].
        -- pose proof (Hreach s t a u Hin Hu). lia.
        -- pose proof (Hreach' s t a u Hin Hu). lia.
Qed.

(** *** One tick over the map *)

Lemma checkPositionsIn_total keys m (w : World) :
  exists m' w' tr, checkPositionsIn keys m w = Some (m', w', tr).
Proof.
  revert m w. induction keys as [| key keys IH]; intros m w; simpl.
  - by eauto.
  - destruct (positions m !! key) as [pos |]; [| apply IH ].
    unfold bind.
    destruct (checkPosition_outcome (stopLossPercent m) pos w)
      as (out & w1 & tr1 & -> & _).
    destruct (IH (storePosition key out m) w1) as (m' & w' & tr & ->).
    by eauto.
Qed.

(** One step of the loop, as an inversion principle. *)
Lemma checkPositionsIn_step key keys m (w : World) m' w' tr :
  checkPositionsIn (key :: keys) m w = Some (m', w', tr) ->
  (positions m !! key = None /\
   checkPositionsIn keys m w = Some (m', w', tr)) \/
  (exists pos out w1 tr1 tr2,
     positions m !! key = Some pos /\
     CheckOutcome (stopLossPercent m) pos out tr1 /\
     checkPositionsIn keys (storePosition key out m) w1 = Some (m', w', tr2) /\
     tr = tr1 ++ tr2).
Proof.
  simpl. destruct (positions m !! key) as [pos |] eqn:Hlook;
    [| intros H; by left ].
  unfold bind.
  destruct (checkPosition_outcome (stopLossPercent m) pos w)
    as (out & w1 & tr1 & -> & Hout).
  destruct (StopLoss.checkPositionsIn priceReached keys
              (storePosition key out m) w1)
    as [[[m2 w2] tr2] |] eqn:Hrest; [| done ].
  intros [= <- <- <-]. right. exists pos, out, w1, tr1, tr2. by split_and!.
Qed.

Lemma storePosition_stopLossPercent key out m :
  stopLossPercent (storePosition key out m) = stopLossPercent m.
Proof. by destruct out. Qed.

Lemma storePosition_other key key' out m :
  key <> key' ->
  positions (storePosition key out m) !! key' = positions m !! key'.
Proof.
  intros Hne. destruct out as [pos []]; simpl.
  - by apply lookup_delete_ne.
  - by apply lookup_insert_ne.
Qed.

Lemma storePosition_same key pos deleted m :
  positions (storePosition key (pos, deleted) m) !! key =
    if deleted then None else Some pos.
Proof.
  destruct deleted; simpl; [ apply lookup_delete_eq | apply lookup_insert_eq ].
Qed.

(** An entry that disappears during a tick was evaluated with a positive
    balance and a quote whose drop reached the threshold. *)
Lemma checkPositionsIn_removed keys m (w : World) m' w' tr key pos pos0 :
  checkPositionsIn keys m w = Some (m', w', tr) ->
  sameIdentity pos pos0 ->
  positions m !! key = Some pos0 ->
  positions m' !! key = None ->
  exists balance price drop,
    0 < balance /\
    In (EvGetTokenBalance (Swapper pos) (TokenAddress pos) (Ok balance)) tr /\
    In (EvGetTokenPrice (Swapper pos) (TokenAddress pos) balance (Ok price))
       tr /\
    calculateDropPercent (BuyPriceWei pos) price = Some drop /\
    stopLossPercent m <= drop /\
    In (EvLog (StopLossTriggered (WalletIndex pos) (TokenAddress pos) drop))
       tr.
Proof.
  revert m w tr pos0.
  induction keys as [| key0 keys IH]; intros m w tr pos0 Hrun Hid Hin Hout.
  - simpl in Hrun. injection Hrun as <- <- <-. congruence.
  - apply checkPositionsIn_step in Hrun
      as [[Hnone Hrun] | (p0 & out & w1 & tr1 & tr2 & Hlook & Hco & Hrun & ->)].
    { by eapply IH. }
    destruct out as [p0' deleted].
    destruct (decide (key0 = key)) as [-> | Hne].
    + rewrite Hin in Hlook. injection Hlook as <-.
      destruct deleted.
      * apply CheckOutcome_deleted in Hco as (_ & _ & _ & Hdel).
        destruct (Hdel eq_refl) as (b & price & drop & Hb & H1 & H2 & H3 & H4 & H5).
        destruct Hid as (Hta & Hbp & _ & Hwi & Hsw & _).
        rewrite Hta, Hbp, Hwi, Hsw in *.
        exists b, price, drop.
        split_and!; try done; apply in_app_iff; by left.
      * pose proof (CheckOutcome_state _ _ _ _ _ Hco) as [Hid' _].
        destruct (IH _ _ _ p0' Hrun) as (b & price & drop & Hb & H1 & H2 & H3 & H4 & H5).
        -- by eapply sameIdentity_trans.
        -- by rewrite storePosition_same.
        -- done.
        -- rewrite storePosition_stopLossPercent in H4.
           exists b, price, drop.
           split_and!; try done; apply in_app_iff; by right.
    + destruct (IH _ _ _ pos0 Hrun) as (b & price & drop & Hb & H1 & H2 & H3 & H4 & H5).
      -- done.
      -- by rewrite storePosition_other.
      -- done.
      -- rewrite storePosition_stopLossPercent in H4.
         exists b, price, drop.
         split_and!; try done; apply in_app_iff; by right.
Qed.

(** *** Registration *)

Lemma AddPosition_cases m walletIndex swapper tokenAddress buyAmountWei
    (w : World) :
  exists m' w' tr,
    AddPosition m walletIndex swapper tokenAddress buyAmountWei w
      = Some (m', w', tr) /\
    ((m' = m /\
      forall balance,
        fst (GetTokenBalance swapper tokenAddress w) = Ok balance ->
        balance <= 0) \/
     (exists balance price,
        fst (GetTokenBalance swapper tokenAddress w) = Ok balance /\
        0 < balance /\
        stopLossPercent m' = stopLossPercent m /\
        positions m' =
          <[Key.positionKey keccak256 walletIndex tokenAddress :=
              mkPosition tokenAddress price balance balance walletIndex
                swapper false false false]> (positions m))).
Proof.
  unfold StopLoss.AddPosition, bind, callGetTokenBalance, callGetTokenPrice,
    ret.
  destruct (GetTokenBalance swapper tokenAddress w) as [[balance | e] w1];
    simpl.
  2: { do 3 eexists. split; [ reflexivity |]. left. split; [ done |].
       intros b Hb. discriminate. }
  rewrite Cmp_le0.
  destruct (Z.leb_spec balance 0) as [Hle | Hlt].
  { do 3 eexists. split; [ reflexivity |]. left. split; [ done |].
    intros b [= <-]. done. }
  destruct (GetTokenPrice swapper tokenAddress balance w1) as [r w2].
  do 3 eexists. split; [ reflexivity |]. right.
  exists balance. eexists. by split_and!.
Qed.

(** *** The properties of one tick and of one life *)

(** An entry that a tick removes had its stop-loss triggered on that
    tick; for the tick of a single entry this is an equivalence. *)
Lemma tick_removes_only_on_stop_loss keys m (w : World) m' w' tr key pos :
  checkPositionsIn keys m w = Some (m', w', tr) ->
  positions m !! key = Some pos ->
  (positions m' !! key = None ->
   exists balance price drop,
     0 < balance /\
     In (EvGetTokenBalance (Swapper pos) (TokenAddress pos) (Ok balance)) tr /\
     In (EvGetTokenPrice (Swapper pos) (TokenAddress pos) balance (Ok price))
        tr /\
     calculateDropPercent (BuyPriceWei pos) price = Some drop /\
     stopLossPercent m <= drop /\
     In (EvLog (StopLossTriggered (WalletIndex pos) (TokenAddress pos) drop))
        tr) /\
  (keys = [key] ->
   (positions m' !! key = None <-> count isStopLossLog tr = 1%nat)).
Proof.
  intros Hrun Hlook. split.
  - intros Hgone.
    eapply checkPositionsIn_removed; eauto using sameIdentity_refl.
  - intros ->.
    apply checkPositionsIn_step in Hrun
      as [[Hnone _] | (p0 & out & w1 & tr1 & tr2 & Hl & Hco & Hrun & ->)];
      [ congruence |].
    simpl in Hrun. injection Hrun as <- <- <-.
    destruct out as [p0' deleted]. rewrite app_nil_r.
    rewrite storePosition_same.
    apply CheckOutcome_deleted in Hco as (-> & _).
    destruct deleted; split; done.
Qed.

(** The take-profit over the life of a position. *)
Lemma life_take_profit_once stopLoss pos (ticks : list World) tr final :
  lifetime stopLoss pos ticks = Some (tr, final) ->
  (count isTakeProfitLog tr <= 1)%nat /\
  (TakeProfitDone pos = true ->
   count isUSDTQuery tr = 0%nat /\ count isTakeProfitLog tr = 0%nat /\
   forall p, final = Some p -> TakeProfitDone p = true) /\
  (forall s t a u,
     In (EvGetTokenPriceInUSDT s t a (Ok u)) tr -> priceReached u = true ->
     count isTakeProfitLog tr = 1%nat /\
     forall p, final = Some p -> TakeProfitDone p = true).
Proof.
  intros Hlife.
  apply lifetime_take_profit in Hlife as (Hle & Hflag & Hset & Hreach).
  split_and!; [ done | |].
  - intros Hdone. destruct (Hset Hdone) as [H1 H2]. split_and!; try done.
    intros p Hp. by rewrite (Hflag p Hp), Hdone.
  - intros s t a u Hin Hu. pose proof (Hreach s t a u Hin Hu) as Hone.
    split; [ done |]. intros p Hp. rewrite (Hflag p Hp), Hone.
    by rewrite orb_true_r.
Qed.

(** The approval over the life of a position. *)
Lemma life_approval_once stopLoss pos (ticks : list World) tr final :
  lifetime stopLoss pos ticks = Some (tr, final) ->
  (count isApproveOk tr <= 1)%nat /\
  approvalsGated (Approved pos) tr /\
  (forall p, final = Some p ->
     Approved p = Approved pos || (0 <? count isApproveOk tr)%nat) /\
  (Approved pos = true ->
   count isApprove tr = 0%nat /\
   forall p, final = Some p -> Approved p = true).
Proof.
  intros Hlife. apply lifetime_approval in Hlife as [Hg Ha].
  split_and!.
  - by eapply approvalsGated_once.
  - done.
  - exact Ha.
  - intros Hset. rewrite Hset in Hg. split.
    + by apply approvalsGated_set.
    + intros p Hp. rewrite (Ha p Hp). unfold approvedAfter. by rewrite Hset.
Qed.

(** The amounts sold on one tick. *)
Lemma tick_sells_within_balance stopLoss pos (w : World) pos' deleted w'
    tr amount :
  checkPosition stopLoss pos w = Some ((pos', deleted), w', tr) ->
  In amount (soldAmounts tr) ->
  amount <= TokenAmount pos' /\
  In (EvGetTokenBalance (Swapper pos) (TokenAddress pos)
        (Ok (TokenAmount pos'))) tr.
Proof.
  intros Hrun Hin. apply checkPosition_sound in Hrun.
  by eapply CheckOutcome_sold.
Qed.

(** The take-profit part of one tick. *)
Lemma tick_take_profit_amount stopLoss pos (w : World) pos'
    deleted w' tr s t a u :
  checkPosition stopLoss pos w = Some ((pos', deleted), w', tr) ->
  In (EvGetTokenPriceInUSDT s t a (Ok u)) tr ->
  priceReached u = true ->
  let amount :=
    Z.min (InitialTokenAmount pos * 70 / 100) (TokenAmount pos') in
  exists trTP trSL,
    tr = EvGetTokenBalance (Swapper pos) (TokenAddress pos)
           (Ok (TokenAmount pos')) :: trTP ++ trSL /\
    count isPriceQuery trTP = 0%nat /\
    (exists r rest,
       trSL = EvGetTokenPrice (Swapper pos) (TokenAddress pos)
                (TokenAmount pos') r :: rest) /\
    (soldAmounts trTP = [amount] \/
     (soldAmounts trTP = [] /\
      (amount <= 0 \/
       exists e, In (EvApproveToken (Swapper pos) (TokenAddress pos)
                       maxApprove (Err e)) trTP))) /\
    TakeProfitDone pos' = true /\
    (deleted = true <-> count isStopLossLog tr = 1%nat).
Proof.
  intros Hrun Hin Hu amount. apply checkPosition_sound in Hrun.
  pose proof (CheckOutcome_take_profit _ _ _ _ _ Hrun)
    as (_ & Hflag & _ & Hreach).
  pose proof (Hreach _ _ _ _ Hin Hu) as Hone.
  pose proof (CheckOutcome_deleted _ _ _ _ _ Hrun) as (Hsl & _).
  assert (Hdel : deleted = true <-> count isStopLossLog tr = 1%nat).
  { rewrite Hsl. destruct deleted; split; done. }
  assert (Hdone : TakeProfitDone pos' = true).
  { rewrite Hflag, Hone. by rewrite orb_true_r. }
  clear Hin Hreach Hflag Hsl.
  inversion Hrun as [Hs | e Hs | b Hs Hb
                    | b pos1 tr1 out tr2 Hs Hb Htp Hout1 Hout2
                    | b out tr2 Hs Hb Htp Hout2]; subst; try discriminate.
  - pose proof (TakeProfitOutcome_state _ _ _ Hout1)
      as ((Hta & _ & Hini & _ & Hsw & _) & Ham1).
    pose proof (StopLossOutcome_state _ _ _ _ _ Hout2) as (_ & Ham2 & _).
    simpl in Hta, Hini, Hsw, Ham1.
    pose proof (TakeProfitOutcome_markers _ _ _ Hout1)
      as (_ & _ & _ & _ & Hpq1 & _).
    pose proof (StopLossOutcome_markers _ _ _ _ _ Hout2)
      as (Htp2 & _ & _ & (r & rest & Htr2) & _).
    assert (Hone1 : count isTakeProfitLog tr1 = 1%nat).
    { simpl in Hone. rewrite count_app, Htp2 in Hone. lia. }
    pose proof (proj2 (TakeProfitOutcome_sold _ _ _ Hout1) Hone1) as Hsold.
    assert (Hamt : takeProfitAmount (set_TokenAmount b pos) = amount).
    { unfold amount, takeProfitAmount, TakeProfitSellPercent. simpl.
      by rewrite Ham2, Ham1. }
    rewrite Hamt in Hsold. simpl in Hsold.
    exists tr1, tr2. rewrite Ham2, Ham1.
    split_and!; try done.
    exists r, rest. by rewrite Htr2, Hta, Hsw, Ham1.
  - apply StopLossOutcome_markers in Hout2 as (Htp2 & _).
    simpl in Hone. lia.
Qed.

(** C8: when the balance query fails, or returns a balance that is not
    positive, [AddPosition] returns with the monitor unchanged: no position
    is inserted and the number of positions stays the same. *)
Theorem C8_AddPosition_without_balance m walletIndex swapper tokenAddress
    buyAmountWei (w : World) :
  (forall balance,
     fst (GetTokenBalance swapper tokenAddress w) = Ok balance ->
     balance <= 0) ->
  exists m' w' tr,
    AddPosition m walletIndex swapper tokenAddress buyAmountWei w
      = Some (m', w', tr) /\
    positions m' = positions m /\
    size (positions m') = size (positions m) /\
    m' = m.
Proof.
  intros Hbal.
  destruct (AddPosition_cases m walletIndex swapper tokenAddress
              buyAmountWei w)
    as (m' & w' & tr & Hrun & [[-> _] | (b & p & Hb & Hpos & _)]).
  - exists m, w', tr. by split_and!.
  - specialize (Hbal b Hb). lia.
Qed.

(** With a positive balance the position is stored under its key,
    replacing whatever was there. *)
Lemma AddPosition_overwrites m walletIndex swapper tokenAddress buyAmountWei
    (w : World) balance :
  fst (GetTokenBalance swapper tokenAddress w) = Ok balance ->
  0 < balance ->
  exists m' w' tr price,
    AddPosition m walletIndex swapper tokenAddress buyAmountWei w
      = Some (m', w', tr) /\
    positions m' !! Key.positionKey keccak256 walletIndex tokenAddress =
      Some (mkPosition tokenAddress price balance balance walletIndex
              swapper false false false) /\
    forall key, key <> Key.positionKey keccak256 walletIndex tokenAddress ->
                positions m' !! key = positions m !! key.
Proof.
  intros Hb Hpos.
  destruct (AddPosition_cases m walletIndex swapper tokenAddress
              buyAmountWei w)
    as (m' & w' & tr & Hrun & [[-> Hno] | (b & p & Hb' & _ & _ & Hm')]).
  - specialize (Hno balance Hb). lia.
  - rewrite Hb in Hb'. injection Hb' as <-.
    exists m', w', tr, p. rewrite Hm'. split_and!; [ done | |].
    + apply lookup_insert_eq.
    + intros key Hne. by apply lookup_insert_ne.
Qed.

(** *** The sold flag *)

Lemma checkPositionsIn_live keys m (w : World) m' w' tr :
  (forall key pos, positions m !! key = Some pos -> Sold pos = false) ->
  checkPositionsIn keys m w = Some (m', w', tr) ->
  forall key pos, positions m' !! key = Some pos -> Sold pos = false.
Proof.
  revert m w tr. induction keys as [| key0 keys IH]; intros m w tr Hinv Hrun.
  - simpl in Hrun. by injection Hrun as <- <- <-.
  - apply checkPositionsIn_step in Hrun
      as [[Hnone Hrun] | (p0 & out & w1 & tr1 & tr2 & Hlook & Hco & Hrun & ->)].
    { by eapply IH. }
    eapply IH; [| exact Hrun ].
    intros key pos. destruct out as [p0' deleted].
    destruct (decide (key0 = key)) as [-> | Hne].
    + rewrite storePosition_same. destruct deleted; [ done |].
      intros [= <-].
      apply CheckOutcome_state in Hco as [(_ & _ & _ & _ & _ & Hsold) _].
      rewrite Hsold. by eapply Hinv.
    + rewrite storePosition_other by done. apply Hinv.
Qed.

(** C10: in every state the monitor can reach, every position of the map
    has [Sold = false]; so the loop never takes the skip-if-sold branch:
    the evaluation of a live position always starts with a balance
    query. *)
Theorem C10_sold_flag_never_set m key pos :
  reachable m ->
  positions m !! key = Some pos ->
  Sold pos = false /\
  forall w : World, exists r out w' rest,
    checkPosition (stopLossPercent m) pos w =
      Some (out, w',
            EvGetTokenBalance (Swapper pos) (TokenAddress pos) r :: rest).
Proof.
  intros Hreach Hlook.
  assert (Hlive : Sold pos = false).
  { revert key pos Hlook.
    induction Hreach as [sl
                        | m wi sw tok buy w m' w' tr Hreach IH Hadd
                        | m keys w m' w' tr Hreach IH Hrun ];
      intros key pos Hlook.
    - simpl in Hlook. by rewrite lookup_empty in Hlook.
    - destruct (AddPosition_cases m wi sw tok buy w)
        as (m1 & w1 & tr1 & Hrun & Hcases).
      rewrite Hadd in Hrun. injection Hrun as <- <- <-.
      destruct Hcases as [[-> _] | (b & p & _ & _ & _ & Hm')];
        [ by eapply IH |].
      rewrite Hm' in Hlook.
      destruct (decide (Key.positionKey keccak256 wi tok = key)) as [Heq | Hne].
      + subst key. rewrite lookup_insert_eq in Hlook.
        by injection Hlook as <-.
      + rewrite lookup_insert_ne in Hlook by done. by eapply IH.
    - eapply checkPositionsIn_live; [| exact Hrun | exact Hlook ]. exact IH. }
  split; [ exact Hlive |].
  intros w.
  destruct (checkPosition_outcome (stopLossPercent m) pos w)
    as (out & w' & tr & Hrun & Hout).
  rewrite Hrun. destruct out as [pos' deleted].
  inversion Hout; subst; try congruence; by eauto.
Qed.

(** *** A tick is one step in the life of each entry *)

Lemma checkPositionsIn_frame keys m (w : World) m' w' tr key :
  key ∉ keys ->
  checkPositionsIn keys m w = Some (m', w', tr) ->
  positions m' !! key = positions m !! key.
Proof.
  revert m w tr. induction keys as [| key0 keys IH]; intros m w tr Hnot Hrun.
  - simpl in Hrun. by injection Hrun as <- <- <-.
  - apply not_elem_of_cons in Hnot as [Hne Hnot].
    apply checkPositionsIn_step in Hrun
      as [[Hnone Hrun] | (p0 & out & w1 & tr1 & tr2 & Hlook & Hco & Hrun & ->)].
    + by eapply IH.
    + rewrite (IH _ _ _ Hnot Hrun). by apply storePosition_other.
Qed.

(** On a tick that visits the key once, the entry is replaced by the
    result of [checkPosition] on it, in some world of that tick. *)
Lemma checkPositionsIn_entry keys m (w : World) m' w' tr key pos :
  NoDup keys -> key ∈ keys ->
  positions m !! key = Some pos ->
  checkPositionsIn keys m w = Some (m', w', tr) ->
  exists w0 pos' deleted w1 tr0,
    checkPosition (stopLossPercent m) pos w0 = Some ((pos', deleted), w1, tr0) /\
    positions m' !! key = (if deleted then None else Some pos').
Proof.
  revert m w tr. induction keys as [| key0 keys IH];
    intros m w tr Hnd Hin Hlook Hrun.
  - by apply elem_of_nil in Hin.
  - apply NoDup_cons in Hnd as [Hfresh Hnd].
    destruct (decide (key0 = key)) as [-> | Hne].
    + simpl in Hrun. rewrite Hlook in Hrun. unfold bind in Hrun.
      destruct (StopLoss.checkPosition priceReached (stopLossPercent m) pos w)
        as [[[[pos' deleted] w1] tr0] |] eqn:Hstep; [| done ].
      destruct (StopLoss.checkPositionsIn priceReached keys
                  (storePosition key (pos', deleted) m) w1)
        as [[[m2 w2] tr2] |] eqn:Hrest; [| done ].
      injection Hrun as <- <- <-.
      exists w, pos', deleted, w1, tr0. split; [ done |].
      rewrite (checkPositionsIn_frame _ _ _ _ _ _ _ Hfresh Hrest).
      apply storePosition_same.
    + apply elem_of_cons in Hin as [Heq | Hin]; [ congruence |].
      apply checkPositionsIn_step in Hrun
        as [[Hnone Hrun] | (p0 & out & w1 & tr1 & tr2 & Hl0 & Hco & Hrun & ->)].
      * by eapply IH.
      * destruct (IH (storePosition key0 out m) w1 tr2 Hnd Hin) as
          (w0 & pos' & deleted & w3 & tr0 & Hstep & Hres).
        -- by rewrite storePosition_other.
        -- done.
        -- rewrite storePosition_stopLossPercent in Hstep.
           by exists w0, pos', deleted, w3, tr0.
Qed.

(** *** What a removal takes, and what a take-profit does *)

Local Ltac in_cases :=
  repeat match goal with
         | H : In _ [] |- _ => destruct H
         | H : In _ (_ :: _) |- _ =>
             destruct H as [H | H]; [ try discriminate H |]
         end.

Lemma SellOutcome_attempt pos amount pos' tr :
  SellOutcome pos amount pos' tr ->
  sellAttempt (Swapper pos) (TokenAddress pos) amount tr /\
  (Approved pos = true ->
   exists r, tr = [EvSellToken (Swapper pos) (TokenAddress pos) amount r]) /\
  (Approved pos = false ->
   exists r rest,
     tr = EvApproveToken (Swapper pos) (TokenAddress pos) maxApprove r
          :: rest).
Proof.
  intros H; inversion H as [r Ha | e Ha | tx r Ha]; subst; unfold sellAttempt.
  - split_and!; [ left; by eexists | intros _; by eexists | congruence ].
  - split_and!; [ right; left; by eexists | congruence
                | intros _; by eexists _, _ ].
  - split_and!; [ right; right; by eexists _, _ | congruence
                | intros _; by eexists _, _ ].
Qed.

(** The stop-loss decision follows the quote: the entry is deleted exactly
    when the drop computed from the quote reaches the threshold, and then
    the log line and one sell attempt for the whole balance follow the
    quote. *)
Lemma StopLossOutcome_decides stopLoss pos pos' deleted tr :
  StopLossOutcome stopLoss pos (pos', deleted) tr ->
  (forall s t a price drop,
     In (EvGetTokenPrice s t a (Ok price)) tr ->
     calculateDropPercent (BuyPriceWei pos) price = Some drop ->
     (deleted = true <-> stopLoss <= drop)) /\
  (deleted = true ->
   exists price drop trSell,
     tr = EvGetTokenPrice (Swapper pos) (TokenAddress pos) (TokenAmount pos)
            (Ok price)
          :: EvLog (StopLossTriggered (WalletIndex pos) (TokenAddress pos)
                      drop)
          :: trSell /\
     calculateDropPercent (BuyPriceWei pos) price = Some drop /\
     stopLoss <= drop /\
     sellAttempt (Swapper pos) (TokenAddress pos) (TokenAmount pos) trSell).
Proof.
  intros H; inversion H as [e | p d Hd Hlt | p d pos1 tr1 Hd Hle Hsell];
    subst.
  - split; [| done ]. intros s t a price drop [Heq | []]. discriminate.
  - split; [| done ]. intros s t a price drop [Heq | []] Hc.
    injection Heq as _ _ _ <-. rewrite Hd in Hc. injection Hc as <-.
    split; [ done | lia ].
  - split.
    + intros s t a price drop [Heq | [Heq | Hin]] Hc; [| discriminate |].
      * injection Heq as _ _ _ <-. rewrite Hd in Hc. by injection Hc as <-.
      * exfalso. pose proof (SellOutcome_markers _ _ _ _ Hsell)
          as (_ & _ & _ & Hpq).
        pose proof (count_zero_In _ _ _ Hpq Hin) as Hf. discriminate Hf.
    + intros _. exists p, d, tr1. split_and!; try done.
      by apply SellOutcome_attempt in Hsell as [? _].
Qed.

(** One evaluation of a position, read as a decision about its removal. *)
Lemma CheckOutcome_removal stopLoss pos pos' deleted tr :
  CheckOutcome stopLoss pos (pos', deleted) tr ->
  (forall s t e,
     In (EvGetTokenBalance s t (Err e)) tr -> deleted = false /\ pos' = pos) /\
  (forall s t balance,
     In (EvGetTokenBalance s t (Ok balance)) tr -> balance <= 0 ->
     deleted = false /\ pos' = pos) /\
  (forall s t balance,
     In (EvGetTokenBalance s t (Ok balance)) tr -> 0 < balance ->
     exists r,
       In (EvGetTokenPrice (Swapper pos) (TokenAddress pos) balance r) tr) /\
  (forall s t a price drop,
     In (EvGetTokenPrice s t a (Ok price)) tr ->
     calculateDropPercent (BuyPriceWei pos) price = Some drop ->
     (deleted = true <-> stopLoss <= drop)) /\
  (deleted = true ->
   exists pre balance price drop trSell,
     0 < balance /\
     In (EvGetTokenBalance (Swapper pos) (TokenAddress pos) (Ok balance))
        pre /\
     tr = pre ++
          EvGetTokenPrice (Swapper pos) (TokenAddress pos) balance (Ok price)
          :: EvLog (StopLossTriggered (WalletIndex pos) (TokenAddress pos)
                      drop)
          :: trSell /\
     calculateDropPercent (BuyPriceWei pos) price = Some drop /\
     stopLoss <= drop /\
     sellAttempt (Swapper pos) (TokenAddress pos) balance trSell).
Proof.
  intros H;
    inversion H as [Hs | e Hs | b Hs Hb
                   | b pos1 tr1 out tr2 Hs Hb Htp Hout1 Hout2
                   | b out tr2 Hs Hb Htp Hout2]; subst.
  - split_and!; try done; intros; by in_cases.
  - split_and!; try done; intros; by in_cases.
  - split_and!; try done; intros; in_cases; try done.
    match goal with Heq : EvGetTokenBalance _ _ _ = _ |- _ =>
      injection Heq as _ _ <- end.
    lia.
  - pose proof (TakeProfitOutcome_state _ _ _ Hout1)
      as ((Hta & Hbp & _ & Hwi & Hsw & _) & Ham).
    simpl in Hta, Hbp, Hwi, Hsw, Ham.
    pose proof (TakeProfitOutcome_no_balance _ _ _ Hout1) as Hnb1.
    pose proof (StopLossOutcome_no_balance _ _ _ _ Hout2) as Hnb2.
    pose proof (TakeProfitOutcome_markers _ _ _ Hout1)
      as (_ & _ & _ & _ & Hpq1 & _).
    pose proof (StopLossOutcome_markers _ _ _ _ _ Hout2)
      as (_ & _ & _ & (r & rest & Htr2) & _).
    pose proof (StopLossOutcome_decides _ _ _ _ _ Hout2) as [Hdec Hfire].
    rewrite Hta, Hbp, Hwi, Hsw, Ham in *.
    assert (Hbal : forall s t r0,
              In (EvGetTokenBalance s t r0)
                 (EvGetTokenBalance (Swapper pos) (TokenAddress pos) (Ok b)
                  :: tr1 ++ tr2) -> r0 = Ok b).
    { intros s t r0 [Heq | Hin]; [ by injection Heq |].
      apply in_app_iff in Hin as [Hin | Hin].
      - pose proof (count_zero_In _ _ _ Hnb1 Hin) as Hf. discriminate Hf.
      - pose proof (count_zero_In _ _ _ Hnb2 Hin) as Hf. discriminate Hf. }
    split_and!.
    + intros s t e Hin. apply Hbal in Hin. discriminate.
    + intros s t b' Hin Hb'. apply Hbal in Hin. injection Hin as ->. lia.
    + intros s t b' Hin _. apply Hbal in Hin. injection Hin as ->.
      exists r. right. apply in_app_iff. right. rewrite Htr2. by left.
    + intros s t a price drop [Heq | Hin] Hc; [ discriminate |].
      apply in_app_iff in Hin as [Hin | Hin]; [| by eapply Hdec ].
      pose proof (count_zero_In _ _ _ Hpq1 Hin) as Hf. discriminate Hf.
    + intros Hd.
      destruct (Hfire Hd) as (price & drop & trSell & -> & Hc & Hle & Hsell).
      exists (EvGetTokenBalance (Swapper pos) (TokenAddress pos) (Ok b) :: tr1),
        b, price, drop, trSell.
      split_and!; try done; try (by left); by rewrite <- app_assoc.
  - pose proof (StopLossOutcome_no_balance _ _ _ _ Hout2) as Hnb2.
    pose proof (StopLossOutcome_markers _ _ _ _ _ Hout2)
      as (_ & _ & _ & (r & rest & Htr2) & _).
    pose proof (StopLossOutcome_decides _ _ _ _ _ Hout2) as [Hdec Hfire].
    simpl in Htr2, Hdec, Hfire.
    assert (Hbal : forall s t r0,
              In (EvGetTokenBalance s t r0)
                 (EvGetTokenBalance (Swapper pos) (TokenAddress pos) (Ok b)
                  :: tr2) -> r0 = Ok b).
    { intros s t r0 [Heq | Hin]; [ by injection Heq |].
      pose proof (count_zero_In _ _ _ Hnb2 Hin) as Hf. discriminate Hf. }
    split_and!.
    + intros s t e Hin. apply Hbal in Hin. discriminate.
    + intros s t b' Hin Hb'. apply Hbal in Hin. injection Hin as ->. lia.
    + intros s t b' Hin _. apply Hbal in Hin. injection Hin as ->.
      exists r. right. rewrite Htr2. by left.
    + intros s t a price drop [Heq | Hin] Hc; [ discriminate |].
      by eapply Hdec.
    + intros Hd.
      destruct (Hfire Hd) as (price & drop & trSell & -> & Hc & Hle & Hsell).
      exists [EvGetTokenBalance (Swapper pos) (TokenAddress pos) (Ok b)],
        b, price, drop, trSell.
      split_and!; try done. by left.
Qed.

(** The evaluation of a live position starts with its balance query, and
    the answer in the trace is the one the chain gave. *)
Lemma checkPosition_first_query stopLoss pos (w : World) out w' tr :
  checkPosition stopLoss pos w = Some (out, w', tr) ->
  Sold pos = false ->
  exists rest,
    tr = EvGetTokenBalance (Swapper pos) (TokenAddress pos)
           (fst (GetTokenBalance (Swapper pos) (TokenAddress pos) w))
         :: rest.
Proof.
  unfold StopLoss.checkPosition. intros Hrun Hs. rewrite Hs in Hrun.
  unfold bind at 1, callGetTokenBalance in Hrun.
  destruct (GetTokenBalance (Swapper pos) (TokenAddress pos) w) as [r w1].
  match type of Hrun with
  | match ?f w1 with _ => _ end = _ =>
      destruct (f w1) as [[[o w2] t2] |]; [| done ]
  end.
  injection Hrun as <- <- <-. by eexists.
Qed.

(** On a tick that visits the key once, the events of the entry's
    evaluation are a segment of the tick's trace, and the entry is
    replaced by the result of that evaluation. *)
Lemma checkPositionsIn_segment keys m (w : World) m' w' tr key pos :
  NoDup keys -> key ∈ keys ->
  positions m !! key = Some pos ->
  checkPositionsIn keys m w = Some (m', w', tr) ->
  exists w0 pos' deleted w1 pre tr0 post,
    checkPosition (stopLossPercent m) pos w0
      = Some ((pos', deleted), w1, tr0) /\
    tr = pre ++ tr0 ++ post /\
    positions m' !! key = (if deleted then None else Some pos').
Proof.
  revert m w tr. induction keys as [| key0 keys IH];
    intros m w tr Hnd Hin Hlook Hrun.
  - by apply elem_of_nil in Hin.
  - apply NoDup_cons in Hnd as [Hfresh Hnd].
    destruct (decide (key0 = key)) as [-> | Hne].
    + simpl in Hrun. rewrite Hlook in Hrun. unfold bind in Hrun.
      destruct (StopLoss.checkPosition priceReached (stopLossPercent m) pos w)
        as [[[[pos' deleted] w1] tr0] |] eqn:Hstep; [| done ].
      destruct (StopLoss.checkPositionsIn priceReached keys
                  (storePosition key (pos', deleted) m) w1)
        as [[[m2 w2] tr2] |] eqn:Hrest; [| done ].
      injection Hrun as <- <- <-.
      exists w, pos', deleted, w1, [], tr0, tr2. split_and!; [ done | done |].
      rewrite (checkPositionsIn_frame _ _ _ _ _ _ _ Hfresh Hrest).
      apply storePosition_same.
    + apply elem_of_cons in Hin as [Heq | Hin]; [ congruence |].
      apply checkPositionsIn_step in Hrun
        as [[Hnone Hrun] | (p0 & out & w1 & tr1 & tr2 & Hl0 & Hco & Hrun & ->)].
      * by eapply IH.
      * destruct (IH (storePosition key0 out m) w1 tr2 Hnd Hin) as
          (w0 & pos' & deleted & w3 & pre & tr0 & post & Hstep & -> & Hres).
        -- by rewrite storePosition_other.
        -- done.
        -- rewrite storePosition_stopLossPercent in Hstep.
           exists w0, pos', deleted, w3, (tr1 ++ pre), tr0, post.
           split_and!; [ done | by rewrite <- app_assoc | done ].
Qed.

(** The calls of [executeSell] carry the answers of the chain. *)
Lemma executeSell_calls pos amount (w : World) pos' w' tr :
  executeSell pos amount w = Some (pos', w', tr) ->
  (Approved pos = true ->
   tr = [EvSellToken (Swapper pos) (TokenAddress pos) amount
           (fst (SellToken (Swapper pos) (TokenAddress pos) amount w))]) /\
  (Approved pos = false ->
   exists rest,
     tr = EvApproveToken (Swapper pos) (TokenAddress pos) maxApprove
            (fst (ApproveToken (Swapper pos) (TokenAddress pos) maxApprove w))
          :: rest /\
     (is_ok (fst (ApproveToken (Swapper pos) (TokenAddress pos) maxApprove w))
        = false -> rest = []) /\
     (is_ok (fst (ApproveToken (Swapper pos) (TokenAddress pos) maxApprove w))
        = true ->
      exists r,
        rest = [EvSleep 3;
                EvSellToken (Swapper pos) (TokenAddress pos) amount r])).
Proof.
  unfold executeSell, sellTokens, bind, callApproveToken, callSellToken,
    emit, ret.
  destruct (Approved pos) eqn:Happ; simpl.
  - destruct (SellToken _ _ _ w) as [r w1]. intros [= <- <- <-].
    split; [ done | congruence ].
  - destruct (ApproveToken _ _ _ w) as [[tx | e] w1]; simpl.
    + destruct (SellToken _ _ _ w1) as [r w2]. intros [= <- <- <-].
      split; [ congruence |]. intros _. eexists. split_and!; try done.
      intros _. by eexists.
    + intros [= <- <- <-]. split; [ congruence |]. intros _.
      eexists. by split_and!.
Qed.

(** The take-profit check on a quote that reaches the threshold: the log
    line, the sell attempt for the capped 70% when that amount is positive,
    and the flag. *)
Lemma checkTakeProfit_reached pos (w w2 : World) u :
  GetTokenPriceInUSDT (Swapper pos) (TokenAddress pos) (quotedUnit pos) w
    = (Ok u, w2) ->
  priceReached u = true ->
  exists pos1 w3 trSell,
    checkTakeProfit pos w =
      Some (set_TakeProfitDone true pos1, w3,
            EvGetTokenPriceInUSDT (Swapper pos) (TokenAddress pos)
              (quotedUnit pos) (Ok u)
            :: EvLog (TakeProfitTriggered (WalletIndex pos)) :: trSell) /\
    (takeProfitAmount pos <= 0 -> pos1 = pos /\ w3 = w2 /\ trSell = []) /\
    (0 < takeProfitAmount pos ->
     executeSell pos (takeProfitAmount pos) w2 = Some (pos1, w3, trSell)).
Proof.
  intros Husdt Hu.
  unfold StopLoss.checkTakeProfit.
  rewrite Cmp_lt0. fold (quotedUnit pos).
  rewrite Div_pos by lia. rewrite !Cmp_gt0.
  assert (Hamt : (if TokenAmount pos <?
                       InitialTokenAmount pos * TakeProfitSellPercent / 100
                  then TokenAmount pos
                  else InitialTokenAmount pos * TakeProfitSellPercent / 100)
                 = takeProfitAmount pos).
  { unfold takeProfitAmount.
    destruct (Z.ltb_spec (TokenAmount pos)
                (InitialTokenAmount pos * TakeProfitSellPercent / 100)); lia. }
  rewrite Hamt.
  unfold bind, callGetTokenPriceInUSDT, emit, ret.
  rewrite Husdt, Hu.
  destruct (Z.ltb_spec 0 (takeProfitAmount pos)) as [Hpos | Hpos].
  - destruct (executeSell_outcome pos (takeProfitAmount pos) w2)
      as (pos1 & w3 & tr1 & Hex & _).
    rewrite Hex. exists pos1, w3, tr1.
    cbn [app]. rewrite app_nil_r. split_and!; [ done | lia | done ].
  - exists pos, w2, []. split_and!; [ done | done | lia ].
Qed.

(** *** The claims about the monitor *)

(** C1 (as amended): a tick always returns and leaves the keys it does not
    visit alone.  Each position it visits is evaluated once, starting with
    its balance query, and is removed exactly when the stop-loss line is
    logged in that evaluation.  A failed balance query or a balance that is
    not positive leaves the position as it was; with a positive balance the
    price query is always made, whatever the take-profit step did; a failed
    price query keeps the position, and an answered one removes it exactly
    when the computed drop reaches the threshold.  The removal comes right
    after one attempt to sell the whole balance (the approval first when the
    position is not approved, and no sell when that approval fails): the
    outcome of the approval and of the sell is not consulted. *)
Theorem C1_removed_only_when_stop_loss_met keys m (w : World) :
  NoDup keys ->
  exists m' w' tr,
    checkPositionsIn keys m w = Some (m', w', tr) /\
    (forall key, key ∉ keys -> positions m' !! key = positions m !! key) /\
    forall key pos,
      key ∈ keys ->
      positions m !! key = Some pos ->
      exists w0 pos' deleted w1 pre tr0 post,
        checkPosition (stopLossPercent m) pos w0
          = Some ((pos', deleted), w1, tr0) /\
        tr = pre ++ tr0 ++ post /\
        positions m' !! key = (if deleted then None else Some pos') /\
        (Sold pos = false ->
         exists rest,
           tr0 = EvGetTokenBalance (Swapper pos) (TokenAddress pos)
                   (fst (GetTokenBalance (Swapper pos) (TokenAddress pos) w0))
                 :: rest) /\
        (deleted = true <-> count isStopLossLog tr0 = 1%nat) /\
        (forall s t e,
           In (EvGetTokenBalance s t (Err e)) tr0 ->
           deleted = false /\ pos' = pos) /\
        (forall s t balance,
           In (EvGetTokenBalance s t (Ok balance)) tr0 -> balance <= 0 ->
           deleted = false /\ pos' = pos) /\
        (forall s t balance,
           In (EvGetTokenBalance s t (Ok balance)) tr0 -> 0 < balance ->
           exists r,
             In (EvGetTokenPrice (Swapper pos) (TokenAddress pos) balance r)
                tr0) /\
        (forall s t a e,
           In (EvGetTokenPrice s t a (Err e)) tr0 -> deleted = false) /\
        (forall s t a price drop,
           In (EvGetTokenPrice s t a (Ok price)) tr0 ->
           calculateDropPercent (BuyPriceWei pos) price = Some drop ->
           (deleted = true <-> stopLossPercent m <= drop)) /\
        (deleted = true ->
         exists before balance price drop trSell,
           0 < balance /\
           In (EvGetTokenBalance (Swapper pos) (TokenAddress pos)
                 (Ok balance)) before /\
           tr0 = before ++
                 EvGetTokenPrice (Swapper pos) (TokenAddress pos) balance
                   (Ok price)
                 :: EvLog (StopLossTriggered (WalletIndex pos)
                             (TokenAddress pos) drop)
                 :: trSell /\
           calculateDropPercent (BuyPriceWei pos) price = Some drop /\
           stopLossPercent m <= drop /\
           sellAttempt (Swapper pos) (TokenAddress pos) balance trSell).
Proof.
  intros Hnd.
  destruct (checkPositionsIn_total keys m w) as (m' & w' & tr & Hrun).
  exists m', w', tr. split; [ exact Hrun |]. split.
  { intros key Hnot. by eapply checkPositionsIn_frame. }
  intros key pos Hin Hlook.
  destruct (checkPositionsIn_segment _ _ _ _ _ _ _ _ Hnd Hin Hlook Hrun)
    as (w0 & pos' & deleted & w1 & pre & tr0 & post & Hstep & Htr & Hres).
  exists w0, pos', deleted, w1, pre, tr0, post.
  pose proof (checkPosition_sound _ _ _ _ _ _ Hstep) as Hco.
  pose proof (CheckOutcome_deleted _ _ _ _ _ Hco) as (Hlog & _ & Hperr & _).
  pose proof (CheckOutcome_removal _ _ _ _ _ Hco)
    as (Hberr & Hbzero & Hquery & Hdec & Hfire).
  split_and!; try done.
  - intros Hs. by eapply checkPosition_first_query.
  - rewrite Hlog. by destruct deleted.
Qed.

(** C3: the successive evaluations of a position always return and, over
    the whole life of the position, the take-profit action fires at most
    once; once the flag is set no further quote is asked and the flag stays
    set; and a quote at or above the threshold sets the flag, whatever the
    amount to sell and whatever became of the sell. *)
Theorem C3_take_profit_at_most_once stopLoss pos (ticks : list World) :
  exists tr final,
    lifetime stopLoss pos ticks = Some (tr, final) /\
    (count isTakeProfitLog tr <= 1)%nat /\
    (TakeProfitDone pos = true ->
     count isUSDTQuery tr = 0%nat /\ count isTakeProfitLog tr = 0%nat /\
     forall p, final = Some p -> TakeProfitDone p = true) /\
    (forall s t a u,
       In (EvGetTokenPriceInUSDT s t a (Ok u)) tr -> priceReached u = true ->
       count isTakeProfitLog tr = 1%nat /\
       forall p, final = Some p -> TakeProfitDone p = true).
Proof.
  destruct (lifetime_total stopLoss pos ticks) as (tr & final & Hlife).
  exists tr, final. split; [ exact Hlife |].
  by eapply life_take_profit_once.
Qed.

(** C4: over the whole life of a position at most one approval succeeds;
    every call of [ApproveToken] is made with the flag unset; the flag at
    the end is set exactly when it was set at the start or an approval
    succeeded; and once it is set no approval is called any more. *)
Theorem C4_approval_at_most_once stopLoss pos (ticks : list World) :
  exists tr final,
    lifetime stopLoss pos ticks = Some (tr, final) /\
    (count isApproveOk tr <= 1)%nat /\
    approvalsGated (Approved pos) tr /\
    (forall p, final = Some p ->
       Approved p = Approved pos || (0 <? count isApproveOk tr)%nat) /\
    (Approved pos = true ->
     count isApprove tr = 0%nat /\
     forall p, final = Some p -> Approved p = true).
Proof.
  destruct (lifetime_total stopLoss pos ticks) as (tr & final & Hlife).
  exists tr, final. split; [ exact Hlife |].
  by eapply life_approval_once.
Qed.

(** C5: every amount handed to [SellToken] during the evaluation of a
    position, by the take-profit or by the stop-loss, is at most the
    balance read on that tick and stored as the position's token amount. *)
Theorem C5_sell_within_tracked_balance stopLoss pos (w : World) :
  exists pos' deleted w' tr,
    checkPosition stopLoss pos w = Some ((pos', deleted), w', tr) /\
    forall amount,
      In amount (soldAmounts tr) ->
      amount <= TokenAmount pos' /\
      In (EvGetTokenBalance (Swapper pos) (TokenAddress pos)
            (Ok (TokenAmount pos'))) tr.
Proof.
  destruct (checkPosition_outcome stopLoss pos w)
    as ([pos' deleted] & w' & tr & Hrun & _).
  exists pos', deleted, w', tr. split; [ exact Hrun |].
  intros amount Hin. by eapply tick_sells_within_balance.
Qed.

(** C6 (as amended): on a tick on which the take-profit is not yet done,
    the balance read is positive and the quote for one token unit (the
    whole balance when it is below [10^18]) reaches the threshold, the
    take-profit logs its line, attempts one sell of exactly
    [min (initial * 70 / 100) balance] when that amount is positive (the
    sell alone when the position is approved; else the approval, which
    carries the chain's answer, followed by the sell unless it failed; no
    call at all when the amount is not positive), and sets the flag.  The
    take-profit itself never removes the position: the stop-loss check of
    the same tick then asks its price, and the position leaves the map on
    this tick exactly when that check fires; otherwise it stays, with the
    flag set, and the other keys are untouched. *)
Theorem C6_take_profit_sells_seventy_percent m key pos (w w1 w2 : World)
    balance u :
  positions m !! key = Some pos ->
  Sold pos = false ->
  TakeProfitDone pos = false ->
  GetTokenBalance (Swapper pos) (TokenAddress pos) w = (Ok balance, w1) ->
  0 < balance ->
  GetTokenPriceInUSDT (Swapper pos) (TokenAddress pos)
    (if balance <? 10 ^ 18 then balance else 10 ^ 18) w1 = (Ok u, w2) ->
  priceReached u = true ->
  exists pos' deleted w' trSell trSL m',
    checkPosition (stopLossPercent m) pos w =
      Some ((pos', deleted), w',
            EvGetTokenBalance (Swapper pos) (TokenAddress pos) (Ok balance)
            :: EvGetTokenPriceInUSDT (Swapper pos) (TokenAddress pos)
                 (if balance <? 10 ^ 18 then balance else 10 ^ 18) (Ok u)
            :: EvLog (TakeProfitTriggered (WalletIndex pos))
            :: trSell ++ trSL) /\
    checkPositionsIn [key] m w =
      Some (m', w',
            EvGetTokenBalance (Swapper pos) (TokenAddress pos) (Ok balance)
            :: EvGetTokenPriceInUSDT (Swapper pos) (TokenAddress pos)
                 (if balance <? 10 ^ 18 then balance else 10 ^ 18) (Ok u)
            :: EvLog (TakeProfitTriggered (WalletIndex pos))
            :: trSell ++ trSL) /\
    positions m' !! key = (if deleted then None else Some pos') /\
    (forall other, other <> key ->
       positions m' !! other = positions m !! other) /\
    TakeProfitDone pos' = true /\
    (Z.min (InitialTokenAmount pos * 70 / 100) balance <= 0 ->
     trSell = []) /\
    (0 < Z.min (InitialTokenAmount pos * 70 / 100) balance ->
     sellAttempt (Swapper pos) (TokenAddress pos)
       (Z.min (InitialTokenAmount pos * 70 / 100) balance) trSell /\
     (Approved pos = true ->
      trSell = [EvSellToken (Swapper pos) (TokenAddress pos)
                  (Z.min (InitialTokenAmount pos * 70 / 100) balance)
                  (fst (SellToken (Swapper pos) (TokenAddress pos)
                          (Z.min (InitialTokenAmount pos * 70 / 100) balance)
                          w2))]) /\
     (Approved pos = false ->
      exists rest,
        trSell = EvApproveToken (Swapper pos) (TokenAddress pos) maxApprove
                   (fst (ApproveToken (Swapper pos) (TokenAddress pos)
                           maxApprove w2))
                 :: rest /\
        (is_ok (fst (ApproveToken (Swapper pos) (TokenAddress pos)
                       maxApprove w2)) = false -> rest = []) /\
        (is_ok (fst (ApproveToken (Swapper pos) (TokenAddress pos)
                       maxApprove w2)) = true ->
         exists r,
           rest = [EvSleep 3;
                   EvSellToken (Swapper pos) (TokenAddress pos)
                     (Z.min (InitialTokenAmount pos * 70 / 100) balance)
                     r]))) /\
    (exists r rest,
       trSL = EvGetTokenPrice (Swapper pos) (TokenAddress pos) balance r
              :: rest) /\
    (deleted = true <-> count isStopLossLog trSL = 1%nat) /\
    (forall s t a e,
       In (EvGetTokenPrice s t a (Err e)) trSL -> deleted = false) /\
    (forall s t a price drop,
       In (EvGetTokenPrice s t a (Ok price)) trSL ->
       calculateDropPercent (BuyPriceWei pos) price = Some drop ->
       (deleted = true <-> stopLossPercent m <= drop)).
Proof.
  intros Hlook Hs Htp Hbal Hpos Husdt Hu.
  set (stopLoss := stopLossPercent m).
  set (p := set_TokenAmount balance pos).
  destruct (checkTakeProfit_reached p w1 w2 u Husdt Hu)
    as (pos1 & w3 & trSell & Htpr & Hzero & Hsell).
  destruct (checkStopLoss_outcome stopLoss (set_TakeProfitDone true pos1) w3)
    as ([pos' deleted] & w' & trSL & Hsl & Hout).
  assert (Hid : sameIdentity p pos1 /\ TokenAmount pos1 = balance).
  { destruct (Z.ltb_spec 0 (takeProfitAmount p)) as [Hlt | Hge].
    - apply Hsell in Hlt. apply executeSell_sound in Hlt.
      by apply SellOutcome_state in Hlt as (Hid & Ham & _).
    - destruct (Hzero Hge) as (-> & _). split; [ apply sameIdentity_refl | done ]. }
  destruct Hid as ((Hta & Hbp & _ & Hwi & Hsw & _) & Ham).
  cbn in Hta, Hbp, Hwi, Hsw.
  pose proof (StopLossOutcome_state _ _ _ _ _ Hout) as (_ & _ & Hflag).
  pose proof (StopLossOutcome_markers _ _ _ _ _ Hout)
    as (_ & _ & Hlog & Hhead & Herr & _).
  pose proof (StopLossOutcome_decides _ _ _ _ _ Hout) as [Hdec _].
  cbn in Hflag, Hhead, Hdec. rewrite Hta, Hsw, Ham in Hhead.
  rewrite Hbp in Hdec.
  assert (Hrun : checkPosition stopLoss pos w =
            Some ((pos', deleted), w',
                  EvGetTokenBalance (Swapper pos) (TokenAddress pos)
                    (Ok balance)
                  :: EvGetTokenPriceInUSDT (Swapper pos) (TokenAddress pos)
                       (if balance <? 10 ^ 18 then balance else 10 ^ 18)
                       (Ok u)
                  :: EvLog (TakeProfitTriggered (WalletIndex pos))
                  :: trSell ++ trSL)).
  { unfold StopLoss.checkPosition. rewrite Hs.
    unfold bind at 1, callGetTokenBalance. rewrite Hbal.
    rewrite Cmp_le0. destruct (Z.leb_spec balance 0) as [Hle | _]; [ lia |].
    change (TakeProfitDone (set_TokenAmount balance pos))
      with (TakeProfitDone pos).
    rewrite Htp. cbn [negb]. unfold bind. fold p.
    rewrite Htpr, Hsl. reflexivity. }
  exists pos', deleted, w', trSell, trSL,
    (storePosition key (pos', deleted) m).
  split; [ exact Hrun |]. split.
  { cbn [StopLoss.checkPositionsIn]. rewrite Hlook. unfold bind.
    fold stopLoss. rewrite Hrun. unfold ret. by rewrite app_nil_r. }
  split; [ apply storePosition_same |].
  split; [ intros other Hne; by apply storePosition_other |].
  split_and!; try done.
  - intros Hle. by destruct (Hzero Hle) as (_ & _ & ->).
  - intros Hlt. pose proof (Hsell Hlt) as Hex.
    pose proof (executeSell_sound _ _ _ _ _ _ Hex) as Hso.
    apply SellOutcome_attempt in Hso as (Hatt & _).
    apply executeSell_calls in Hex as [Hyes Hno].
    by split_and!.
  - rewrite Hlog. by destruct deleted.
Qed.

End MonitorFacts.

(** *** The claims on concrete runs *)

Section MonitorRuns.

Import StopLoss.

Example tick_priceFell :
  checkPositionsIn demoReached ["k"%string] demoMonitor priceFell =
    Some (mkMonitor ∅ 20, priceFell, priceFellTrace).
Proof. vm_compute. reflexivity. Qed.

Example tick_priceRose :
  checkPosition demoReached 20 demoPosition priceRose =
    Some ((demoPositionAfterTakeProfit, false), priceRose, priceRoseTrace).
Proof. vm_compute. reflexivity. Qed.

Example life_demo :
  lifetime demoReached 20 demoPosition demoTicks = Some (demoLifeTrace, None).
Proof. vm_compute. reflexivity. Qed.

(** The stop-loss fires, the approval fails, nothing is sold, and the
    position is gone from the map all the same. *)
Lemma C1_counterexample_failed_approval_removes :
  positions demoMonitor !! "k"%string = Some demoPosition /\
  checkPositionsIn demoReached ["k"%string] demoMonitor approvalDown =
    Some (mkMonitor ∅ 20, approvalDown, approvalDownTrace) /\
  In (EvApproveToken 0%nat demoToken maxApprove (Err "rpc down"%string))
     approvalDownTrace /\
  soldAmounts approvalDownTrace = [] /\
  positions (mkMonitor ∅ 20) !! "k"%string = None.
Proof. split_and!; vm_compute; try reflexivity. tauto. Qed.

Lemma C1_removed_only_when_stop_loss_met_witness :
  NoDup ["k"%string] /\
  exists w0 pos' deleted w1 pre tr0 post,
    checkPosition demoReached (stopLossPercent demoMonitor) demoPosition w0
      = Some ((pos', deleted), w1, tr0) /\
    priceFellTrace = pre ++ tr0 ++ post /\
    positions (mkMonitor ∅ 20) !! "k"%string
      = (if deleted then None else Some pos') /\
    (deleted = true <-> count isStopLossLog tr0 = 1%nat).
Proof.
  assert (Hnd : NoDup ["k"%string]) by apply NoDup_singleton.
  split; [ exact Hnd |].
  destruct (C1_removed_only_when_stop_loss_met demoReached ["k"%string]
              demoMonitor priceFell Hnd) as (m' & w' & tr & Hrun & _ & Hprop).
  rewrite tick_priceFell in Hrun. injection Hrun as <- <- <-.
  destruct (Hprop "k"%string demoPosition)
    as (w0 & pos' & deleted & w1 & pre & tr0 & post & Hstep & Htr & Hres
        & _ & Hlog & _).
  - apply list_elem_of_here.
  - vm_compute; reflexivity.
  - by exists w0, pos', deleted, w1, pre, tr0, post.
Defined.

Lemma C3_take_profit_at_most_once_witness :
  (count isTakeProfitLog demoLifeTrace <= 1)%nat /\
  count isTakeProfitLog demoLifeTrace = 1%nat.
Proof.
  destruct (C3_take_profit_at_most_once demoReached 20 demoPosition
              demoTicks) as (tr & final & Hlife & Hle & _ & Hreach).
  rewrite life_demo in Hlife. injection Hlife as <- <-.
  split; [ exact Hle |].
  apply (Hreach 0%nat demoToken 1000 (3 * 10 ^ 14)).
  - vm_compute; tauto.
  - vm_compute; reflexivity.
Defined.

Lemma C4_approval_at_most_once_witness :
  (count isApproveOk demoLifeTrace <= 1)%nat /\
  approvalsGated (Approved demoPosition) demoLifeTrace.
Proof.
  destruct (C4_approval_at_most_once demoReached 20 demoPosition
              demoTicks) as (tr & final & Hlife & Hle & Hgated & _).
  rewrite life_demo in Hlife. injection Hlife as <- <-.
  split; [ exact Hle | exact Hgated ].
Defined.

Lemma C5_sell_within_tracked_balance_witness :
  In 700 (soldAmounts priceRoseTrace) /\
  700 <= TokenAmount demoPositionAfterTakeProfit.
Proof.
  assert (Hin : In 700 (soldAmounts priceRoseTrace))
    by (vm_compute; tauto).
  split; [ exact Hin |].
  destruct (C5_sell_within_tracked_balance demoReached 20 demoPosition
              priceRose) as (pos' & deleted & w' & tr & Hrun & Hprop).
  rewrite tick_priceRose in Hrun. injection Hrun as <- <- <- <-.
  exact (proj1 (Hprop 700 Hin)).
Defined.

(** The unit price reaches the threshold while the value has fallen by a
    quarter: the take-profit sells 700 of the 1000, the stop-loss of the
    same tick sells 1000 more and removes the position.  With a failing
    approval nothing is sold at all, and the position is removed as
    well. *)
Lemma C6_counterexample_sold_more_and_removed :
  positions demoMonitor !! "k"%string = Some demoPosition /\
  demoReached (3 * 10 ^ 14) = true /\
  (exists tr,
     checkPositionsIn demoReached ["k"%string] demoMonitor valueFellAtPeak =
       Some (mkMonitor ∅ 20, valueFellAtPeak, tr) /\
     In (EvGetTokenPriceInUSDT 0%nat demoToken 1000 (Ok (3 * 10 ^ 14))) tr /\
     soldAmounts tr = [700; 1000]) /\
  (exists tr,
     checkPositionsIn demoReached ["k"%string] demoMonitor approvalDownAtPeak =
       Some (mkMonitor ∅ 20, approvalDownAtPeak, tr) /\
     In (EvGetTokenPriceInUSDT 0%nat demoToken 1000 (Ok (3 * 10 ^ 14))) tr /\
     soldAmounts tr = []) /\
  positions (mkMonitor ∅ 20) !! "k"%string = None.
Proof.
  split_and!; try (vm_compute; reflexivity).
  - eexists. split_and!; [ vm_compute; reflexivity | | ].
    + vm_compute. tauto.
    + vm_compute. reflexivity.
  - eexists. split_and!; [ vm_compute; reflexivity | | ].
    + vm_compute. tauto.
    + vm_compute. reflexivity.
Qed.

Lemma C6_take_profit_sells_seventy_percent_witness :
  exists pos' (deleted : bool) w' trSell trSL m',
    checkPositionsIn demoReached ["k"%string] demoMonitor priceRose =
      Some (m', w',
            EvGetTokenBalance 0%nat demoToken (Ok 1000)
            :: EvGetTokenPriceInUSDT 0%nat demoToken 1000 (Ok (3 * 10 ^ 14))
            :: EvLog (TakeProfitTriggered 0)
            :: trSell ++ trSL) /\
    positions m' !! "k"%string = (if deleted then None else Some pos') /\
    TakeProfitDone pos' = true /\
    sellAttempt 0%nat demoToken 700 trSell.
Proof.
  destruct (C6_take_profit_sells_seventy_percent demoReached demoMonitor
              "k"%string demoPosition priceRose priceRose priceRose 1000
              (3 * 10 ^ 14))
    as (pos' & deleted & w' & trSell & trSL & m' & _ & Hrun & Hres & _
        & Hflag & _ & Hsell & _).
  - vm_compute; reflexivity.
  - reflexivity.
  - reflexivity.
  - reflexivity.
  - lia.
  - reflexivity.
  - vm_compute; reflexivity.
  - exists pos', deleted, w', trSell, trSL, m'.
    split_and!; [ exact Hrun | exact Hres | exact Hflag |].
    apply Hsell. vm_compute; reflexivity.
Defined.

Lemma C8_AddPosition_without_balance_witness :
  (forall balance,
     fst (GetTokenBalance 0%nat demoToken balanceDown) = Ok balance ->
     balance <= 0) /\
  exists m' w' tr,
    AddPosition demoDigest demoMonitor 1 0%nat demoToken 5 balanceDown
      = Some (m', w', tr) /\
    positions m' = positions demoMonitor /\
    size (positions m') = size (positions demoMonitor) /\
    m' = demoMonitor.
Proof.
  assert (H : forall balance,
             fst (GetTokenBalance 0%nat demoToken balanceDown) = Ok balance ->
             balance <= 0).
  { simpl. intros balance Hb. discriminate Hb. }
  split; [ exact H |].
  exact (C8_AddPosition_without_balance demoDigest demoMonitor 1 0%nat
           demoToken 5 balanceDown H).
Defined.

Lemma demoMonitor_reachable : reachable demoDigest demoReached
  (mkMonitor {[ Key.positionKey demoDigest 0 demoToken := demoPosition ]} 20).
Proof.
  eapply (reach_AddPosition demoDigest demoReached (NewStopLossMonitor 20)
            0 0%nat demoToken 5 priceRose).
  - apply reach_new.
  - vm_compute. reflexivity.
Qed.

Lemma C10_sold_flag_never_set_witness :
  Sold demoPosition = false /\
  forall w : Script, exists r out w' rest,
    checkPosition demoReached 20 demoPosition w =
      Some (out, w',
            EvGetTokenBalance (Swapper demoPosition)
              (TokenAddress demoPosition) r :: rest).
Proof.
  refine (C10_sold_flag_never_set demoDigest demoReached
            (mkMonitor {[ Key.positionKey demoDigest 0 demoToken
                            := demoPosition ]} 20)
            (Key.positionKey demoDigest 0 demoToken) demoPosition
            demoMonitor_reachable _).
  vm_compute. reflexivity.
Defined.

(** A failed approval leaves the flag unset, so the next sell attempt asks
    again: here the take-profit and the stop-loss of one tick both try,
    both fail, nothing is sold, the take-profit is marked as done and the
    position is deleted. *)
Example failed_approval_is_asked_again :
  exists tr,
    checkPosition demoReached 20 demoPosition approvalDownAtPeak =
      Some ((set_TakeProfitDone true (set_TokenAmount 1000 demoPosition),
             true), approvalDownAtPeak, tr) /\
    count isApprove tr = 2%nat /\ count isApproveOk tr = 0%nat /\
    soldAmounts tr = [].
Proof. eexists. split_and!; vm_compute; reflexivity. Qed.

(** Wallets 55296 and 55297 buy the same token: the second registration
    replaces the first one's position. *)
Example second_wallet_replaces_first :
  exists m1 tr1 m2 tr2,
    AddPosition demoDigest (NewStopLossMonitor 20) 55296 0%nat demoToken 5
      priceRose = Some (m1, priceRose, tr1) /\
    AddPosition demoDigest m1 55297 1%nat demoToken 5 priceRose
      = Some (m2, priceRose, tr2) /\
    size (positions m1) = 1%nat /\
    size (positions m2) = 1%nat /\
    WalletIndex <$>
      positions m2 !! Key.positionKey demoDigest 55296 demoToken
      = Some 55297.
Proof.
  do 4 eexists. split; [ vm_compute; reflexivity |].
  split; [ vm_compute; reflexivity |].
  split_and!; vm_compute; reflexivity.
Qed.

End MonitorRuns.

(** ** The subscription manager *)

Section ListenerFacts.

Import Listener.

Context {World : Type} {CC : ChainClient World}.

Lemma count_dial_app P (t1 t2 : list Event) :
  count P (t1 ++ t2) = (count P t1 + count P t2)%nat.
Proof. induction t1 as [| e t1 IH]; simpl; [ done | rewrite IH; lia ]. Qed.

(** The loop returns after at most one dial per attempt number.  It
    returns the error exactly when no attempt passed the connection test,
    and then every attempt number was used. *)
Lemma reconnectAttempts_spec attempts l (w : World) :
  exists l' r w' tr,
    reconnectAttempts attempts l w = Some ((l', r), w', tr) /\
    (count isDial tr <= length attempts)%nat /\
    match r with
    | Err e =>
        e = reconnectFailed /\ l' = l /\
        count isDial tr = length attempts /\
        count isValidated tr = 0%nat
    | Ok _ =>
        count isValidated tr = 1%nat /\ exists c, client l' = Some c
    end.
Proof.
  revert w. induction attempts as [| attempt attempts IH]; intros w.
  - simpl. unfold ret. do 4 eexists. split; [ reflexivity |].
    by split_and!.
  - cbn [reconnectAttempts]. unfold bind at 1, callDial.
    destruct (Dial (wsURL l) w) as [[c | e] w1].
    + unfold bind at 1, callBlockNumber.
      destruct (BlockNumber c w1) as [[h | e] w2].
      * unfold ret. do 4 eexists. split; [ reflexivity |]. simpl.
        split_and!; [ lia | done | by eauto ].
      * unfold bind, callClose, emit.
        destruct (IH (Close c w2)) as (l' & r & w' & tr & -> & Hle & Hr).
        do 4 eexists. split; [ reflexivity |]. simpl.
        split; [ lia |]. destruct r as [u | e'].
        -- exact Hr.
        -- destruct Hr as (-> & -> & Hn & Hv). split_and!; try done; lia.
    + unfold bind, emit.
      destruct (IH w1) as (l' & r & w' & tr & -> & Hle & Hr).
      do 4 eexists. split; [ reflexivity |]. simpl.
      split; [ lia |]. destruct r as [u | e'].
      * exact Hr.
      * destruct Hr as (-> & -> & Hn & Hv). split_and!; try done; lia.
Qed.

Lemma reconnect_spec l (w : World) :
  exists l' r w' tr,
    reconnect l w = Some ((l', r), w', tr) /\
    (count isDial tr <= 10)%nat /\
    match r with
    | Err e =>
        e = reconnectFailed /\ l' = l /\
        count isDial tr = 10%nat /\ count isValidated tr = 0%nat
    | Ok _ =>
        count isValidated tr = 1%nat /\ exists c, client l' = Some c
    end.
Proof.
  unfold reconnect, bind.
  assert (Hlen : length (seqZ 1 maxReconnectAttempts) = 10%nat) by done.
  destruct (client l) as [c |].
  - unfold callClose.
    destruct (reconnectAttempts_spec (seqZ 1 maxReconnectAttempts) l
                (Close c w))
      as (l' & r & w' & tr & -> & Hle & Hr).
    rewrite Hlen in Hle, Hr.
    do 4 eexists. split; [ reflexivity |]. simpl. by split.
  - unfold ret.
    destruct (reconnectAttempts_spec (seqZ 1 maxReconnectAttempts) l w)
      as (l' & r & w' & tr & -> & Hle & Hr).
    rewrite Hlen in Hle, Hr.
    do 4 eexists. split; [ reflexivity |]. simpl. by split.
Qed.

(** C7: when the subscription ends with an error and nobody cancelled,
    [Start] calls [reconnect], which dials at most 10 times; if no attempt
    passes its connection test, exactly 10 dials were made (there is no
    11th), [reconnect] returns its error, and [Start] returns that error to
    its caller with nothing after the reconnect: no new subscription and
    no further dial. *)
Theorem C7_reconnect_ceiling_is_fatal fuel l (w0 w : World) e :
  CtxDone w0 = false ->
  Subscribe (client l) w0 = (Err e, w) ->
  CtxDone w = false ->
  exists l' r w' tr,
    reconnect l w = Some ((l', r), w', tr) /\
    (count isDial tr <= 10)%nat /\
    (count isValidated tr = 0%nat ->
     r = Err reconnectFailed /\
     count isDial tr = 10%nat /\
     Start (S fuel) l w0 =
       Some ((l', Some (Err reconnectFailed)), w',
             EvSubscribe (client l) (Err e) :: tr)).
Proof.
  intros Hlive0 Hsub Hlive.
  destruct (reconnect_spec l w) as (l' & r & w' & tr & Hrun & Hle & Hr).
  exists l', r, w', tr. split_and!; [ done | done |].
  intros Hnone. destruct r as [u | e'].
  { destruct Hr as [Hone _]. lia. }
  destruct Hr as (-> & -> & Hten & _).
  split_and!; [ done | done |].
  cbn [Start]. unfold bind at 1, ctxDone at 1. rewrite Hlive0.
  unfold bind at 1, callSubscribe. rewrite Hsub.
  unfold bind at 1, ctxDone at 1. rewrite Hlive.
  unfold bind, ret. rewrite Hrun. simpl. by rewrite app_nil_r.
Qed.

End ListenerFacts.

Section ListenerRuns.

Import Listener.

Lemma C7_reconnect_ceiling_is_fatal_witness :
  CtxDone deadNet = false /\
  Subscribe (client demoListener) deadNet =
    (Err "subscription error"%string, deadNet) /\
  reconnect demoListener deadNet =
    Some ((demoListener, Err reconnectFailed), deadNet,
          deadNetTrace) /\
  count isDial deadNetTrace = 10%nat /\
  exists l' r w' tr,
    reconnect demoListener deadNet = Some ((l', r), w', tr) /\
    (count isDial tr <= 10)%nat /\
    (count isValidated tr = 0%nat ->
     r = Err reconnectFailed /\
     count isDial tr = 10%nat /\
     Start 3 demoListener deadNet =
       Some ((l', Some (Err reconnectFailed)), w',
             EvSubscribe (client demoListener)
               (Err "subscription error"%string) :: tr)).
Proof.
  split_and!; try (vm_compute; reflexivity).
  apply (C7_reconnect_ceiling_is_fatal 2 demoListener deadNet deadNet
           "subscription error"%string); vm_compute; reflexivity.
Defined.

End ListenerRuns.

(** * Further properties of the code *)

(** ** The drop percentage *)

(** X8: for a reference price and current prices that are not negative the
    drop percentage lies between 0 and 100 and does not grow when the
    current price grows; for a positive reference price it is 100 exactly
    when the current price is zero. *)
Theorem drop_percent_antitone buyPrice price1 price2 :
  0 <= buyPrice -> 0 <= price1 -> price1 <= price2 ->
  exists drop1 drop2,
    calculateDropPercent buyPrice price1 = Some drop1 /\
    calculateDropPercent buyPrice price2 = Some drop2 /\
    0 <= drop2 /\ drop2 <= drop1 /\ drop1 <= 100 /\
    (0 < buyPrice -> (drop1 = 100 <-> price1 = 0)).
Proof.
  intros Hb H1 H12.
  destruct (Z.eq_dec buyPrice 0) as [-> | Hne].
  - exists 0, 0. rewrite !calculateDropPercent_zero_ref.
    split_and!; try done; lia.
  - exists (Z.max 0 ((buyPrice - price1) * 100 / buyPrice)),
           (Z.max 0 ((buyPrice - price2) * 100 / buyPrice)).
    rewrite !calculateDropPercent_pos by lia.
    assert (Hmono : (buyPrice - price2) * 100 / buyPrice
                    <= (buyPrice - price1) * 100 / buyPrice)
      by (apply Z.div_le_mono; lia).
    assert (Hup : (buyPrice - price1) * 100 / buyPrice <= 100)
      by (apply Z.div_le_upper_bound; lia).
    split_and!; try done; try lia.
    intros _. split.
    + intros Hfull.
      assert (Hq : (buyPrice - price1) * 100 / buyPrice = 100) by lia.
      assert (Hge : buyPrice * 100 <= (buyPrice - price1) * 100).
      { pose proof (Z.mul_div_le ((buyPrice - price1) * 100) buyPrice
                      ltac:(lia)) as Hle.
        rewrite Hq in Hle. lia. }
      lia.
    + intros ->. rewrite Z.sub_0_r, Z.mul_comm, Z.div_mul by lia. lia.
Qed.

Lemma drop_percent_antitone_witness :
  exists drop1 drop2,
    calculateDropPercent 100 75 = Some drop1 /\
    calculateDropPercent 100 90 = Some drop2 /\
    0 <= drop2 /\ drop2 <= drop1 /\ drop1 <= 100 /\
    (0 < 100 -> (drop1 = 100 <-> 75 = 0)).
Proof.
  apply (drop_percent_antitone 100 75 90); lia.
Defined.

(** ** The position monitor *)

Section MonitorMore.

Import StopLoss.

Context {World : Type} {TE : TradeExecutor World}.
Variable keccak256 : list Byte.byte -> list Byte.byte.
Variable priceReached : Z -> bool.

Local Abbreviation checkTakeProfit := (checkTakeProfit priceReached).
Local Abbreviation checkPosition := (checkPosition priceReached).
Local Abbreviation checkPositionsIn := (checkPositionsIn priceReached).
Local Abbreviation lifetime := (lifetime priceReached).
Local Abbreviation TakeProfitOutcome := (TakeProfitOutcome priceReached).
Local Abbreviation CheckOutcome := (CheckOutcome priceReached).
Local Abbreviation AddPosition := (AddPosition keccak256).

(** *** Calls go to the position's own swapper and token *)

Lemma SellOutcome_own pos amount pos' tr :
  SellOutcome pos amount pos' tr ->
  Forall (ownCall (Swapper pos) (TokenAddress pos)) tr.
Proof. intros H; inversion H; subst; repeat constructor. Qed.

Lemma TakeProfitOutcome_own pos pos' tr :
  TakeProfitOutcome pos pos' tr ->
  Forall (ownCall (Swapper pos) (TokenAddress pos)) tr.
Proof.
  intros H; inversion H as [| | | u pos1 tr1 Hu Hamt Hsell]; subst;
    repeat constructor.
  by eapply SellOutcome_own.
Qed.

Lemma StopLossOutcome_own stopLoss pos out tr :
  StopLossOutcome stopLoss pos out tr ->
  Forall (ownCall (Swapper pos) (TokenAddress pos)) tr.
Proof.
  intros H; inversion H as [| | p d pos1 tr1 Hd Hle Hsell]; subst;
    repeat constructor.
  by eapply SellOutcome_own.
Qed.

Lemma CheckOutcome_own stopLoss pos out tr :
  CheckOutcome stopLoss pos out tr ->
  Forall (ownCall (Swapper pos) (TokenAddress pos)) tr.
Proof.
  intros H;
    inversion H as [Hs | e Hs | b Hs Hb
                   | b pos1 tr1 out' tr2 Hs Hb Htp Hout1 Hout2
                   | b out' tr2 Hs Hb Htp Hout2]; subst;
    repeat constructor.
  - apply Forall_app. split.
    + by apply TakeProfitOutcome_own in Hout1.
    + pose proof (TakeProfitOutcome_state _ _ _ _ Hout1)
        as ((Hta & _ & _ & _ & Hsw & _) & _).
      simpl in Hta, Hsw. apply StopLossOutcome_own in Hout2.
      by rewrite Hta, Hsw in Hout2.
  - by apply StopLossOutcome_own in Hout2.
Qed.

(** X1: over the whole life of a position its token address, reference
    price, initial amount, wallet index, swapper and sold flag are never
    written, and every call made for it goes to its own swapper and token
    (an approval always for the unlimited allowance). *)
Theorem life_keeps_identity stopLoss pos (ticks : list World) :
  exists tr final,
    lifetime stopLoss pos ticks = Some (tr, final) /\
    Forall (ownCall (Swapper pos) (TokenAddress pos)) tr /\
    forall p, final = Some p -> sameIdentity pos p.
Proof.
  destruct (lifetime_total priceReached stopLoss pos ticks)
    as (tr & final & Hlife).
  exists tr, final. split; [ exact Hlife |].
  revert pos tr final Hlife.
  induction ticks as [| w ticks IH]; intros pos tr final Hlife.
  - simpl in Hlife. injection Hlife as <- <-. split; [ constructor |].
    intros p [= <-]. apply sameIdentity_refl.
  - apply lifetime_step in Hlife
      as (pos' & deleted & tr0 & Hout & [(-> & -> & ->) | (-> & tr' & Hrest & ->)]).
    + split; [ by eapply CheckOutcome_own | done ].
    + pose proof (CheckOutcome_state _ _ _ _ _ _ Hout) as [Hid _].
      apply IH in Hrest as [Hown Hfin].
      destruct Hid as (Hta & Hbp & Hini & Hwi & Hsw & Hsold).
      rewrite Hta, Hsw in Hown.
      split.
      * apply Forall_app. split; [ by eapply CheckOutcome_own | done ].
      * intros p Hp. eapply sameIdentity_trans; [| by apply Hfin ].
        by repeat split.
Qed.

(** *** How often a position sells *)

Lemma SellOutcome_sold_once pos amount pos' tr :
  SellOutcome pos amount pos' tr -> (length (soldAmounts tr) <= 1)%nat.
Proof. intros H; inversion H; subst; simpl; lia. Qed.

Lemma CheckOutcome_sold_count stopLoss pos pos' deleted tr :
  CheckOutcome stopLoss pos (pos', deleted) tr ->
  (length (soldAmounts tr)
   <= count isTakeProfitLog tr + count isStopLossLog tr)%nat.
Proof.
  assert (Htp : forall p p' t, TakeProfitOutcome p p' t ->
            (length (soldAmounts t) <= count isTakeProfitLog t)%nat).
  { intros p p' t H; inversion H as [| | | u p1 t1 Hu Hamt Hsell]; subst;
      simpl; try lia.
    apply SellOutcome_sold_once in Hsell. lia. }
  assert (Hsl : forall p o t, StopLossOutcome stopLoss p o t ->
            (length (soldAmounts t) <= count isStopLossLog t)%nat).
  { intros p o t H; inversion H as [| | pr d p1 t1 Hd Hle Hsell]; subst;
      simpl; try lia.
    apply SellOutcome_sold_once in Hsell. lia. }
  intros H;
    inversion H as [Hs | e Hs | b Hs Hb
                   | b pos1 tr1 out' tr2 Hs Hb Hdone Hout1 Hout2
                   | b out' tr2 Hs Hb Hdone Hout2]; subst; simpl; try lia.
  - rewrite soldAmounts_app, length_app, !count_app.
    apply Htp in Hout1. apply Hsl in Hout2. lia.
  - apply Hsl in Hout2. lia.
Qed.

(** X2: over the whole life of a position the stop-loss line is logged at
    most once, and exactly when the life ends with the position deleted;
    and [SellToken] is called at most twice in all (at most one partial
    sell of the take-profit, at most one full sell of the stop-loss). *)
Theorem life_sells_at_most_twice stopLoss pos (ticks : list World) :
  exists tr final,
    lifetime stopLoss pos ticks = Some (tr, final) /\
    count isStopLossLog tr = match final with Some _ => 0 | None => 1 end%nat /\
    (length (soldAmounts tr)
     <= count isTakeProfitLog tr + count isStopLossLog tr)%nat /\
    (length (soldAmounts tr) <= 2)%nat.
Proof.
  destruct (lifetime_total priceReached stopLoss pos ticks)
    as (tr & final & Hlife).
  exists tr, final. split; [ exact Hlife |].
  pose proof (lifetime_take_profit _ _ _ _ _ _ Hlife) as (Htp & _).
  assert (Hboth : count isStopLossLog tr = match final with Some _ => 0 | None => 1 end%nat /\
                  (length (soldAmounts tr)
                   <= count isTakeProfitLog tr + count isStopLossLog tr)%nat).
  { clear Htp. revert pos tr final Hlife.
    induction ticks as [| w ticks IH]; intros pos tr final Hlife.
    - simpl in Hlife. injection Hlife as <- <-. simpl. lia.
    - apply lifetime_step in Hlife
        as (pos' & deleted & tr0 & Hout
            & [(-> & -> & ->) | (-> & tr' & Hrest & ->)]).
      + pose proof (CheckOutcome_deleted _ _ _ _ _ _ Hout) as (Hsl & _).
        apply CheckOutcome_sold_count in Hout. by split.
      + pose proof (CheckOutcome_deleted _ _ _ _ _ _ Hout) as (Hsl & _).
        apply CheckOutcome_sold_count in Hout.
        apply IH in Hrest as [Hsl' Hlen'].
        rewrite soldAmounts_app, length_app, !count_app, Hsl, Hsl'.
        split; [ done | lia ]. }
  destruct Hboth as [Hsl Hlen]. split_and!; [ done | done |].
  destruct final; lia.
Qed.

(** *** Ticks that read no balance *)

(** X3: when the balance query fails or returns a balance that is not
    positive, the evaluation of a live position makes no other call and
    returns the position as it was; the tick of that key leaves the whole
    map as it was. *)
Theorem tick_without_balance_changes_nothing m key pos (w : World) :
  positions m !! key = Some pos ->
  Sold pos = false ->
  (forall balance,
     fst (GetTokenBalance (Swapper pos) (TokenAddress pos) w) = Ok balance ->
     balance <= 0) ->
  exists r w',
    checkPosition (stopLossPercent m) pos w =
      Some ((pos, false), w',
            [EvGetTokenBalance (Swapper pos) (TokenAddress pos) r]) /\
    checkPositionsIn [key] m w =
      Some (m, w', [EvGetTokenBalance (Swapper pos) (TokenAddress pos) r]).
Proof.
  intros Hlook Hsold Hbal.
  assert (Hstep : exists r w',
            checkPosition (stopLossPercent m) pos w =
              Some ((pos, false), w',
                    [EvGetTokenBalance (Swapper pos) (TokenAddress pos) r])).
  { unfold StopLoss.checkPosition. rewrite Hsold.
    unfold bind at 1, callGetTokenBalance.
    destruct (GetTokenBalance (Swapper pos) (TokenAddress pos) w)
      as [[balance | e] w1] eqn:Hq.
    - specialize (Hbal balance eq_refl). rewrite Cmp_le0.
      destruct (Z.leb_spec balance 0); [| lia ]. by eauto.
    - by eauto. }
  destruct Hstep as (r & w' & Hstep). exists r, w'. split; [ exact Hstep |].
  cbn [StopLoss.checkPositionsIn]. rewrite Hlook. unfold bind.
  rewrite Hstep. cbn [storePosition StopLoss.checkPositionsIn ret].
  rewrite insert_id by done. by destruct m.
Qed.

(** *** What a tick can do to the map *)

Lemma checkPositionsIn_shrinks keys m (w : World) m' w' tr :
  checkPositionsIn keys m w = Some (m', w', tr) ->
  stopLossPercent m' = stopLossPercent m /\
  (forall key p',
     positions m' !! key = Some p' ->
     exists p, positions m !! key = Some p /\ sameIdentity p p') /\
  Forall (fun e => exists key p,
            positions m !! key = Some p /\
            ownCall (Swapper p) (TokenAddress p) e) tr.
Proof.
  revert m w tr.
  induction keys as [| key0 keys IH]; intros m w tr Hrun.
  - simpl in Hrun. injection Hrun as <- <- <-. split_and!; [ done | | done ].
    intros key p' Hl. exists p'. split; [ done | apply sameIdentity_refl ].
  - apply checkPositionsIn_step in Hrun
      as [[Hnone Hrun]
         | (p0 & out & w1 & tr1 & tr2 & Hlook & Hco & Hrun & ->)].
    { by eapply IH. }
    apply IH in Hrun as (Hsl & Hkeys & Hown).
    rewrite storePosition_stopLossPercent in Hsl.
    destruct out as [p0' deleted].
    assert (Hback : forall key p1,
              positions (storePosition key0 (p0', deleted) m) !! key = Some p1 ->
              exists p, positions m !! key = Some p /\ sameIdentity p p1).
    { intros key p1 Hl1.
      destruct (decide (key0 = key)) as [-> | Hne].
      - rewrite storePosition_same in Hl1. destruct deleted; [ done |].
        injection Hl1 as ->. exists p0. split; [ done |].
        by pose proof (CheckOutcome_state _ _ _ _ _ _ Hco) as [Hid0 _].
      - rewrite storePosition_other in Hl1 by done. exists p1.
        split; [ done | apply sameIdentity_refl ]. }
    split_and!; [ done | |].
    + intros key p' Hl. destruct (Hkeys key p' Hl) as (p1 & Hl1 & Hid1).
      destruct (Hback key p1 Hl1) as (p & Hp & Hid).
      exists p. split; [ done | by eapply sameIdentity_trans ].
    + apply Forall_app. split.
      * apply CheckOutcome_own in Hco.
        eapply Forall_impl; [ exact Hco |]. intros e He. by exists key0, p0.
      * eapply Forall_impl; [ exact Hown |].
        intros e (key & p1 & Hl1 & He).
        destruct (Hback key p1 Hl1) as (p & Hp & (Hta & _ & _ & _ & Hsw & _)).
        exists key, p. split; [ done |]. by rewrite <- Hta, <- Hsw.
Qed.

Lemma positions_shrink_size (m m' : StopLossMonitor) :
  (forall key p',
     positions m' !! key = Some p' ->
     exists p, positions m !! key = Some p /\ sameIdentity p p') ->
  (size (positions m') <= size (positions m))%nat.
Proof.
  intros Hkeys. rewrite <- !size_dom. apply subseteq_size.
  intros key Hin. apply elem_of_dom in Hin as [p' Hl].
  destruct (Hkeys key p' Hl) as (p & Hp & _). apply elem_of_dom. by eexists.
Qed.

(** X4: a tick never adds a position and never touches the threshold:
    every entry of the map after the tick was there before, with the same
    token, reference price, initial amount, wallet and swapper, and the map
    has not grown. *)
Theorem tick_never_adds keys m (w : World) :
  exists m' w' tr,
    checkPositionsIn keys m w = Some (m', w', tr) /\
    stopLossPercent m' = stopLossPercent m /\
    (forall key p',
       positions m' !! key = Some p' ->
       exists p, positions m !! key = Some p /\ sameIdentity p p') /\
    (size (positions m') <= size (positions m))%nat.
Proof.
  destruct (checkPositionsIn_total priceReached keys m w)
    as (m' & w' & tr & Hrun).
  exists m', w', tr. split; [ exact Hrun |].
  apply checkPositionsIn_shrinks in Hrun as (Hsl & Hkeys & _).
  split_and!; [ done | done |]. by apply positions_shrink_size.
Qed.

(** *** The loop of the monitor *)





(** *** The threshold at its extremes *)

(** A position that is kept after a successful quote had a drop below the
    threshold. *)
Lemma CheckOutcome_kept stopLoss pos pos' tr :
  CheckOutcome stopLoss pos (pos', false) tr ->
  forall s t a price,
    In (EvGetTokenPrice s t a (Ok price)) tr ->
    exists drop,
      calculateDropPercent (BuyPriceWei pos) price = Some drop /\
      drop < stopLoss.
Proof.
  assert (Hsl : forall p p' t, StopLossOutcome stopLoss p (p', false) t ->
            forall s t0 a price, In (EvGetTokenPrice s t0 a (Ok price)) t ->
            exists drop, calculateDropPercent (BuyPriceWei p) price = Some drop
                         /\ drop < stopLoss).
  { intros p p' t H; inversion H as [e | pr d Hd Hlt |]; subst;
      intros s t0 a price [Heq | []]; [ discriminate |].
    injection Heq as _ _ _ <-. by eauto. }
  intros H;
    inversion H as [Hs | e Hs | b Hs Hb
                   | b pos1 tr1 out' tr2 Hs Hb Hdone Hout1 Hout2
                   | b out' tr2 Hs Hb Hdone Hout2]; subst;
    intros s t a price Hin.
  - destruct Hin.
  - destruct Hin as [Heq | []]. discriminate.
  - destruct Hin as [Heq | []]. discriminate.
  - destruct Hin as [Heq | Hin]; [ discriminate |].
    pose proof (TakeProfitOutcome_state _ _ _ _ Hout1)
      as ((_ & Hbp & _) & _). simpl in Hbp.
    pose proof (TakeProfitOutcome_markers _ _ _ _ Hout1)
      as (_ & _ & _ & _ & Hpq & _).
    apply in_app_iff in Hin as [Hin | Hin].
    + pose proof (count_zero_In _ _ _ Hpq Hin) as Hf. discriminate Hf.
    + rewrite <- Hbp. by eapply Hsl.
  - destruct Hin as [Heq | Hin]; [ discriminate |].
    by eapply (Hsl (set_TokenAmount b pos)).
Qed.

(** X5: with a threshold of zero or less, a position whose reference price
    is not negative is deleted, with the stop-loss line logged once, on
    any tick whose price query answers a price that is not negative. *)
Theorem nonpositive_threshold_fires_on_first_quote stopLoss pos (w : World)
    pos' deleted w' tr s t a price :
  stopLoss <= 0 ->
  0 <= BuyPriceWei pos ->
  checkPosition stopLoss pos w = Some ((pos', deleted), w', tr) ->
  In (EvGetTokenPrice s t a (Ok price)) tr ->
  0 <= price ->
  deleted = true /\ count isStopLossLog tr = 1%nat.
Proof.
  intros Hsl Hbuy Hrun Hin Hprice.
  apply checkPosition_sound in Hrun.
  destruct deleted.
  - split; [ done |]. by apply CheckOutcome_deleted in Hrun as (-> & _).
  - exfalso.
    destruct (CheckOutcome_kept _ _ _ _ Hrun _ _ _ _ Hin) as (drop & Hd & Hlt).
    apply calculateDropPercent_range in Hd; lia.
Qed.

(** X6: with a threshold above 100 a position whose reference price is not
    negative is never deleted, whatever the quotes (none of them negative):
    the drop is at most 100. *)
Theorem threshold_above_100_never_fires stopLoss pos (w : World)
    pos' deleted w' tr :
  100 < stopLoss ->
  0 <= BuyPriceWei pos ->
  checkPosition stopLoss pos w = Some ((pos', deleted), w', tr) ->
  (forall s t a price, In (EvGetTokenPrice s t a (Ok price)) tr -> 0 <= price) ->
  deleted = false /\ count isStopLossLog tr = 0%nat.
Proof.
  intros Hsl Hbuy Hrun Hquotes.
  apply checkPosition_sound in Hrun.
  pose proof (CheckOutcome_deleted _ _ _ _ _ _ Hrun) as (Hcount & _ & _ & Hdel).
  destruct deleted; [| by split ].
  exfalso.
  destruct (Hdel eq_refl) as (b & price & drop & _ & _ & Hq & Hd & Hle & _).
  apply Hquotes in Hq.
  apply calculateDropPercent_range in Hd; lia.
Qed.

(** *** Registration *)

(** X7: with a positive balance [AddPosition] stores under the position's
    key a fresh position: its token amount and its initial amount are the
    balance, the three flags are clear, and its reference price is the
    quote for that balance or, when the quote fails, the caller's buy
    amount.  The other keys are untouched and the map grows by at most
    one. *)
Theorem AddPosition_registers m walletIndex swapper tokenAddress buyAmountWei
    (w w1 w2 : World) balance quote :
  GetTokenBalance swapper tokenAddress w = (Ok balance, w1) ->
  0 < balance ->
  GetTokenPrice swapper tokenAddress balance w1 = (quote, w2) ->
  exists m',
    AddPosition m walletIndex swapper tokenAddress buyAmountWei w =
      Some (m', w2, [EvGetTokenBalance swapper tokenAddress (Ok balance);
                     EvGetTokenPrice swapper tokenAddress balance quote]) /\
    positions m' !! Key.positionKey keccak256 walletIndex tokenAddress =
      Some (mkPosition tokenAddress
              (match quote with Ok price => price | Err _ => buyAmountWei end)
              balance balance walletIndex swapper false false false) /\
    (forall key,
       key <> Key.positionKey keccak256 walletIndex tokenAddress ->
       positions m' !! key = positions m !! key) /\
    stopLossPercent m' = stopLossPercent m /\
    (size (positions m) <= size (positions m') <= S (size (positions m)))%nat.
Proof.
  intros Hbal Hpos Hquote.
  eexists. split.
  - unfold StopLoss.AddPosition, bind, callGetTokenBalance,
      callGetTokenPrice, ret.
    rewrite Hbal. rewrite Cmp_le0.
    destruct (Z.leb_spec balance 0); [ lia |].
    rewrite Hquote. reflexivity.
  - cbn [positions stopLossPercent]. split_and!.
    + apply lookup_insert_eq.
    + intros key Hne. by apply lookup_insert_ne.
    + done.
    + destruct (positions m !! Key.positionKey keccak256 walletIndex
                  tokenAddress) as [old |] eqn:Hold.
      * rewrite map_size_insert_Some by done. lia.
      * rewrite map_size_insert_None by done. lia.
    + destruct (positions m !! Key.positionKey keccak256 walletIndex
                  tokenAddress) as [old |] eqn:Hold.
      * rewrite map_size_insert_Some by done. lia.
      * rewrite map_size_insert_None by done. lia.
Qed.

(** X24: positions of different tokens never share a key, whatever the
    two wallet indices: registering a position for one token leaves the
    entry of every other token as it was. *)
Theorem AddPosition_keeps_other_tokens m walletIndex swapper tokenAddress
    buyAmountWei (w : World) otherIndex otherToken :
  length tokenAddress = 20%nat ->
  length otherToken = 20%nat ->
  otherToken <> tokenAddress ->
  Key.positionKey keccak256 otherIndex otherToken
    <> Key.positionKey keccak256 walletIndex tokenAddress /\
  exists m' w' tr,
    AddPosition m walletIndex swapper tokenAddress buyAmountWei w
      = Some (m', w', tr) /\
    positions m' !! Key.positionKey keccak256 otherIndex otherToken
      = positions m !! Key.positionKey keccak256 otherIndex otherToken.
Proof.
  intros Hl1 Hl2 Hne.
  assert (Hkeys : Key.positionKey keccak256 otherIndex otherToken
                  <> Key.positionKey keccak256 walletIndex tokenAddress).
  { unfold Key.positionKey. intros Heq.
    apply string_app_inj in Heq as [Hhex _].
    - by apply Hex_inj in Hhex.
    - by rewrite !Hex_length, Hl1, Hl2. }
  split; [ exact Hkeys |].
  destruct (AddPosition_cases keccak256 m walletIndex swapper tokenAddress
              buyAmountWei w)
    as (m' & w' & tr & Hrun & [[-> _] | (b & price & _ & _ & _ & Hpos)]).
  - by exists m, w', tr.
  - exists m', w', tr. split; [ done |].
    rewrite Hpos. by apply lookup_insert_ne.
Qed.

End MonitorMore.

Section MonitorMoreRuns.

Import StopLoss.

Lemma tick_without_balance_changes_nothing_witness :
  exists r w',
    checkPositionsIn demoReached ["k"%string] demoMonitor balanceDown =
      Some (demoMonitor, w',
            [EvGetTokenBalance (Swapper demoPosition)
               (TokenAddress demoPosition) r]).
Proof.
  destruct (tick_without_balance_changes_nothing demoReached demoMonitor
              "k"%string demoPosition balanceDown)
    as (r & w' & _ & Hrun).
  - vm_compute; reflexivity.
  - reflexivity.
  - simpl. intros balance Hb. discriminate Hb.
  - by exists r, w'.
Defined.

(** A threshold of 0 and a value that has not moved. *)
Lemma nonpositive_threshold_fires_on_first_quote_witness :
  exists pos' w' tr,
    checkPosition demoReached 0 demoPosition priceRose =
      Some ((pos', true), w', tr) /\
    count isStopLossLog tr = 1%nat.
Proof.
  destruct (checkPosition_outcome demoReached 0 demoPosition priceRose)
    as ([pos' deleted] & w' & tr & Hrun & _).
  pose proof Hrun as Hval. vm_compute in Hval.
  injection Hval as <- <- <- <-.
  destruct (nonpositive_threshold_fires_on_first_quote demoReached 0
              demoPosition priceRose _ _ _ _ 0%nat demoToken 1000 100
              ltac:(lia) ltac:(vm_compute; discriminate) Hrun)
    as [_ Hcount].
  - vm_compute. tauto.
  - lia.
  - eexists _, _, _. split; [ exact Hrun | exact Hcount ].
Defined.

(** A threshold of 101 and a value that fell by a quarter. *)
Lemma threshold_above_100_never_fires_witness :
  exists pos' w' tr,
    checkPosition demoReached 101 demoPosition priceFell =
      Some ((pos', false), w', tr) /\
    count isStopLossLog tr = 0%nat.
Proof.
  destruct (checkPosition_outcome demoReached 101 demoPosition priceFell)
    as ([pos' deleted] & w' & tr & Hrun & _).
  pose proof Hrun as Hval. vm_compute in Hval.
  injection Hval as <- <- <- <-.
  destruct (threshold_above_100_never_fires demoReached 101
              demoPosition priceFell _ _ _ _
              ltac:(lia) ltac:(vm_compute; discriminate) Hrun)
    as [_ Hcount].
  - intros s t a price Hin. vm_compute in Hin.
    repeat (destruct Hin as [Heq | Hin]; [ try discriminate Heq |]);
      try destruct Hin.
    injection Heq as _ _ _ <-. lia.
  - eexists _, _, _. split; [ exact Hrun | exact Hcount ].
Defined.

Lemma AddPosition_registers_witness :
  exists m',
    AddPosition demoDigest (NewStopLossMonitor 20) 0 0%nat demoToken 5
      balanceDownQuote =
      Some (m', balanceDownQuote,
            [EvGetTokenBalance 0%nat demoToken (Ok 1000);
             EvGetTokenPrice 0%nat demoToken 1000 (Err "no route"%string)]) /\
    positions m' !! Key.positionKey demoDigest 0 demoToken =
      Some (mkPosition demoToken 5 1000 1000 0 0%nat false false false).
Proof.
  destruct (AddPosition_registers demoDigest (NewStopLossMonitor 20) 0 0%nat
              demoToken 5 balanceDownQuote balanceDownQuote balanceDownQuote
              1000 (Err "no route"%string))
    as (m' & Hrun & Hlook & _).
  - reflexivity.
  - lia.
  - reflexivity.
  - exists m'. split; [ exact Hrun | exact Hlook ].
Defined.

(** Wallet 1 registers the second token beside the position of wallet 0. *)
Lemma AddPosition_keeps_other_tokens_witness :
  exists m' w' tr,
    AddPosition demoDigest demoMonitor 1 0%nat demoOtherToken 5
      balanceDownQuote = Some (m', w', tr) /\
    positions m' !! Key.positionKey demoDigest 0 demoToken
      = positions demoMonitor !! Key.positionKey demoDigest 0 demoToken.
Proof.
  destruct (AddPosition_keeps_other_tokens demoDigest demoMonitor 1 0%nat
              demoOtherToken 5 balanceDownQuote 0 demoToken)
    as [_ Hrun].
  - reflexivity.
  - reflexivity.
  - vm_compute. discriminate.
  - exact Hrun.
Defined.

End MonitorMoreRuns.

(** ** The subscription manager *)

Section ListenerMore.

Import Listener ListenerTrace.

Context {World : Type} {CC : ChainClient World}.

(** What the attempts of [reconnect] leave in the trace: one pause of
    [reconnectDelay * attempt] after each failed attempt, every client that
    failed its test closed, the accepted client dialed last and kept. *)
Lemma reconnectAttempts_trace attempts l (w : World) :
  exists l' r w' tr failed,
    reconnectAttempts attempts l w = Some ((l', r), w', tr) /\
    wsURL l' = wsURL l /\
    Forall (fun url => url = wsURL l) (dialedURLs tr) /\
    sleeps tr = map (fun attempt => reconnectDelay * attempt)
                    (take failed attempts) /\
    match r with
    | Err _ =>
        failed = length attempts /\
        dialedClients tr = closedClients tr /\ l' = l
    | Ok _ =>
        (failed < length attempts)%nat /\
        count isDial tr = S failed /\
        exists c, client l' = Some c /\
                  dialedClients tr = closedClients tr ++ [c]
    end.
Proof.
  revert w. induction attempts as [| attempt attempts IH]; intros w.
  - simpl. unfold ret. exists l, (Err reconnectFailed), w, [], 0%nat.
    split; [ reflexivity |]. by split_and!.
  - cbn [reconnectAttempts]. unfold bind at 1, callDial.
    destruct (Dial (wsURL l) w) as [[c | e] w1].
    + unfold bind at 1, callBlockNumber.
      destruct (BlockNumber c w1) as [[h | e] w2].
      * unfold ret.
        exists (mkListener (wsURL l) (Some c)), (Ok tt), w2,
               ([EvDial (wsURL l) (Ok c)] ++ [EvBlockNumber c (Ok h)] ++ []),
               0%nat.
        split; [ reflexivity |]. simpl.
        split_and!; try done; [ by repeat constructor | lia |].
        by exists c.
      * unfold bind, callClose, emit.
        destruct (IH (Close c w2))
          as (l' & r & w' & tr & failed & -> & Hurl & Hdial & Hsl & Hr).
        exists l', r, w',
          ([EvDial (wsURL l) (Ok c)] ++ [EvBlockNumber c (Err e)]
           ++ [EvClose c] ++ [EvSleep (reconnectDelay * attempt)] ++ tr),
          (S failed).
        split; [ reflexivity |]. simpl.
        split_and!; try done; [ by constructor | by rewrite Hsl |].
        destruct r as [u | e'].
        -- destruct Hr as (Hlt & Hcount & c' & Hc' & Hd).
           split_and!; [ lia | lia |]. exists c'. by rewrite Hd.
        -- destruct Hr as (-> & Hd & ->). by rewrite Hd.
    + unfold bind, emit.
      destruct (IH w1)
        as (l' & r & w' & tr & failed & -> & Hurl & Hdial & Hsl & Hr).
      exists l', r, w',
        ([EvDial (wsURL l) (Err e)]
         ++ [EvSleep (reconnectDelay * attempt)] ++ tr),
        (S failed).
      split; [ reflexivity |]. simpl.
      split_and!; try done; [ by constructor | by rewrite Hsl |].
      destruct r as [u | e'].
      * destruct Hr as (Hlt & Hcount & c' & Hc' & Hd).
        split_and!; [ lia | lia |]. by exists c'.
      * destruct Hr as (-> & Hd & ->). done.
Qed.

Lemma count_more_app P (t1 t2 : list Event) :
  count P (t1 ++ t2) = (count P t1 + count P t2)%nat.
Proof. induction t1 as [| e t1 IH]; simpl; [ done | rewrite IH; lia ]. Qed.

Lemma reconnectAttempts_no_subscribe attempts l (w : World) l' r w' tr :
  reconnectAttempts attempts l w = Some ((l', r), w', tr) ->
  count isSubscribe tr = 0%nat.
Proof.
  revert w tr. induction attempts as [| attempt attempts IH]; intros w tr.
  - simpl. unfold ret. by intros [= <- <- <- <-].
  - cbn [reconnectAttempts]. unfold bind at 1, callDial.
    destruct (Dial (wsURL l) w) as [[c | e] w1].
    + unfold bind at 1, callBlockNumber.
      destruct (BlockNumber c w1) as [[h | e] w2].
      * unfold ret. by intros [= <- <- <- <-].
      * unfold bind, callClose, emit.
        destruct (reconnectAttempts attempts l (Close c w2))
          as [[[[l1 r1] w3] tr1] |] eqn:Hrest; [| done ].
        intros [= <- <- <- <-]. simpl. by eapply IH.
    + unfold bind, emit.
      destruct (reconnectAttempts attempts l w1)
        as [[[[l1 r1] w3] tr1] |] eqn:Hrest; [| done ].
      intros [= <- <- <- <-]. simpl. by eapply IH.
Qed.

(** X9: [reconnect] pauses after every failed attempt and only then, for 5
    seconds times the number of the attempt: the pauses are 5, 10, 15, ...
    seconds, one per failed attempt; a success after [failed] failures has
    dialed [failed + 1] times, and giving up has paused ten times, 275
    seconds in all. *)
Theorem reconnect_backoff_is_linear l (w : World) :
  exists l' r w' tr failed,
    reconnect l w = Some ((l', r), w', tr) /\
    sleeps tr = map (fun attempt => 5 * attempt) (seqZ 1 (Z.of_nat failed)) /\
    match r with
    | Ok _ => (failed < 10)%nat /\ count isDial tr = S failed
    | Err _ => failed = 10%nat /\ foldr Z.add 0 (sleeps tr) = 275
    end.
Proof.
  unfold reconnect, bind.
  assert (Htake : forall failed, (failed <= 10)%nat ->
            take failed (seqZ 1 maxReconnectAttempts)
            = seqZ 1 (Z.of_nat failed)).
  { intros failed Hle.
    do 11 (destruct failed as [| failed]; [ reflexivity |]). lia. }
  assert (Hpre : forall tr0 w0,
            sleeps tr0 = [] -> count isDial tr0 = 0%nat ->
            exists l' r w' tr failed,
              match reconnectAttempts (seqZ 1 maxReconnectAttempts) l w0 with
              | Some (b, w2, t2) => Some (b, w2, tr0 ++ t2)
              | None => None
              end = Some ((l', r), w', tr) /\
              sleeps tr
              = map (fun attempt => 5 * attempt) (seqZ 1 (Z.of_nat failed)) /\
              match r with
              | Ok _ => (failed < 10)%nat /\ count isDial tr = S failed
              | Err _ => failed = 10%nat /\ foldr Z.add 0 (sleeps tr) = 275
              end).
  { intros tr0 w0 Hs0 Hd0.
    destruct (reconnectAttempts_trace (seqZ 1 maxReconnectAttempts) l w0)
      as (l' & r & w' & tr & failed & -> & _ & _ & Hsl & Hr).
    exists l', r, w', (tr0 ++ tr), failed. split; [ reflexivity |].
    assert (Hsl' : sleeps (tr0 ++ tr) = sleeps tr).
    { clear -Hs0. induction tr0 as [| e tr0 IH]; [ done |].
      destruct e; simpl in *; try done; by apply IH. }
    rewrite Hsl', Hsl. change (length (seqZ 1 maxReconnectAttempts))
      with 10%nat in Hr.
    destruct r as [u | e].
    - destruct Hr as (Hlt & Hcount & _).
      rewrite Htake by lia. split; [ done |].
      rewrite count_more_app, Hd0. by split.
    - destruct Hr as (-> & _). split; [ by rewrite Htake |]. by split. }
  destruct (client l) as [c |].
  - unfold callClose. by apply (Hpre [EvClose c]).
  - unfold ret. by apply (Hpre []).
Qed.

(** X10: [reconnect] closes the client it held, dials only the listener's
    own address, and closes every client that it opened and that failed the
    connection test; on success the listener holds the client opened last,
    which is not closed, and on failure the listener is left as it was. *)
Theorem reconnect_closes_rejected_clients l (w : World) :
  exists l' r w' tr rejected,
    reconnect l w = Some ((l', r), w', tr) /\
    wsURL l' = wsURL l /\
    Forall (fun url => url = wsURL l) (dialedURLs tr) /\
    closedClients tr = option_list (client l) ++ rejected /\
    match r with
    | Ok _ => exists c, client l' = Some c /\
                        dialedClients tr = rejected ++ [c]
    | Err _ => dialedClients tr = rejected /\ l' = l
    end.
Proof.
  unfold reconnect, bind.
  destruct (client l) as [c0 |] eqn:Hclient.
  - unfold callClose.
    destruct (reconnectAttempts_trace (seqZ 1 maxReconnectAttempts) l
                (Close c0 w))
      as (l' & r & w' & tr & failed & -> & Hurl & Hdial & _ & Hr).
    exists l', r, w', ([EvClose c0] ++ tr), (closedClients tr).
    split; [ reflexivity |]. simpl. split_and!; try done.
    destruct r as [u | e].
    + destruct Hr as (_ & _ & c & Hc & Hd). by exists c.
    + by destruct Hr as (_ & Hd & ->).
  - unfold ret.
    destruct (reconnectAttempts_trace (seqZ 1 maxReconnectAttempts) l w)
      as (l' & r & w' & tr & failed & -> & Hurl & Hdial & _ & Hr).
    exists l', r, w', ([] ++ tr), (closedClients tr).
    split; [ reflexivity |]. simpl. split_and!; try done.
    destruct r as [u | e].
    + destruct Hr as (_ & _ & c & Hc & Hd). by exists c.
    + by destruct Hr as (_ & Hd & ->).
Qed.

(** What [Start] needs to know about one [reconnect]. *)
Lemma reconnect_for_Start l (w : World) :
  exists l' r w' tr,
    reconnect l w = Some ((l', r), w', tr) /\
    wsURL l' = wsURL l /\
    (count isDial tr <= 10)%nat /\
    count isSubscribe tr = 0%nat /\
    count isFailedSubscribe tr = 0%nat /\
    forall e, r = Err e -> e = reconnectFailed.
Proof.
  destruct (reconnect_spec l w) as (l' & r & w' & tr & Hrun & Hle & Hr).
  exists l', r, w', tr. split; [ exact Hrun |].
  assert (Hnosub : count isSubscribe tr = 0%nat /\ wsURL l' = wsURL l).
  { revert Hrun. unfold reconnect, bind.
    destruct (client l) as [c |].
    - unfold callClose.
      destruct (reconnectAttempts_trace (seqZ 1 maxReconnectAttempts) l
                  (Close c w))
        as (l1 & r1 & w1 & tr1 & failed & Hrun1 & Hurl & _).
      rewrite Hrun1. intros [= <- <- <- <-]. simpl.
      split; [ by eapply reconnectAttempts_no_subscribe | done ].
    - unfold ret.
      destruct (reconnectAttempts_trace (seqZ 1 maxReconnectAttempts) l w)
        as (l1 & r1 & w1 & tr1 & failed & Hrun1 & Hurl & _).
      rewrite Hrun1. intros [= <- <- <- <-]. simpl.
      split; [ by eapply reconnectAttempts_no_subscribe | done ]. }
  destruct Hnosub as [Hnosub Hurl].
  split_and!; try done.
  - clear -Hnosub. induction tr as [| e tr IH]; [ done |].
    destruct e as [| | | | c [|]]; simpl in *; try done; by apply IH.
  - intros e ->. by destruct Hr as (-> & _).
Qed.

(** The rounds of [Start], by induction on the fuel. *)
Lemma Start_rounds fuel l (w : World) :
  exists l' r w' tr,
    Start fuel l w = Some ((l', r), w', tr) /\
    wsURL l' = wsURL l /\
    (r = Some (Ok tt) -> CtxDone w' = true) /\
    (forall e, r = Some (Err e) -> e = reconnectFailed) /\
    (r = None -> count isSubscribe tr = fuel) /\
    (count isSubscribe tr <= fuel)%nat /\
    (count isDial tr <= 10 * count isFailedSubscribe tr)%nat.
Proof.
  revert l w. induction fuel as [| fuel IH]; intros l w.
  - simpl. unfold ret. exists l, None, w, []. split; [ reflexivity |].
    split_and!; try done; simpl; lia.
  - cbn [Start]. unfold bind at 1, ctxDone at 1.
    destruct (CtxDone w) eqn:Hdone.
    { unfold ret. exists l, (Some (Ok tt)), w, []. split; [ reflexivity |].
      split_and!; try done; simpl; lia. }
    unfold bind at 1, callSubscribe.
    destruct (Subscribe (client l) w) as [[u | e] w1].
    + destruct (IH l w1) as (l' & r & w' & tr & -> & Hurl & Hnil & Herr
                             & Hnone & Hsub & Hdial).
      do 4 eexists. split; [ reflexivity |]. simpl.
      split_and!; try done; try lia.
      intros Hr. by rewrite (Hnone Hr).
    + unfold bind at 1, ctxDone at 1.
      destruct (CtxDone w1) eqn:Hdone1.
      { unfold ret. do 4 eexists. split; [ reflexivity |]. simpl.
        split_and!; try done; lia. }
      unfold bind.
      destruct (reconnect_for_Start l w1)
        as (l1 & r1 & w2 & tr1 & -> & Hurl1 & Hd1 & Hs1 & Hf1 & He1).
      cbn [fst snd]. destruct r1 as [u | e1].
      * destruct (IH l1 w2) as (l' & r & w' & tr & -> & Hurl & Hnil & Herr
                                & Hnone & Hsub & Hdial).
        do 4 eexists. split; [ reflexivity |]. simpl.
        rewrite !count_more_app, Hs1, Hf1.
        split_and!; try done; try lia; [ congruence |].
        intros Hr. by rewrite (Hnone Hr).
      * unfold ret. do 4 eexists. split; [ reflexivity |]. simpl.
        rewrite !app_nil_r, Hs1, Hf1.
        split_and!; try done; try lia.
        intros e' [= <-]. by apply He1.
Qed.

(** X11: [Start] has two ways out.  It returns nil only when the context is
    done, and the only error it returns is the one of [reconnect] giving
    up; while neither happens it keeps subscribing, once per round, with
    the listener's address never changed. *)
Theorem Start_returns_on_cancel_or_ceiling fuel l (w : World) :
  exists l' r w' tr,
    Start fuel l w = Some ((l', r), w', tr) /\
    wsURL l' = wsURL l /\
    (r = Some (Ok tt) -> CtxDone w' = true) /\
    (forall e, r = Some (Err e) -> e = reconnectFailed) /\
    (r = None -> count isSubscribe tr = fuel).
Proof.
  destruct (Start_rounds fuel l w)
    as (l' & r & w' & tr & Hrun & H1 & H2 & H3 & H4 & _).
  exists l', r, w', tr. by split_and!.
Qed.

(** X12: [Start] dials only to recover from a subscription that ended with
    an error, at most 10 times for each such failure, and subscribes at
    most once per round. *)
Theorem Start_dials_are_bounded fuel l (w : World) :
  exists l' r w' tr,
    Start fuel l w = Some ((l', r), w', tr) /\
    (count isDial tr <= 10 * count isFailedSubscribe tr)%nat /\
    (count isSubscribe tr <= fuel)%nat.
Proof.
  destruct (Start_rounds fuel l w)
    as (l' & r & w' & tr & Hrun & _ & _ & _ & _ & H5 & H6).
  exists l', r, w', tr. by split_and!.
Qed.

End ListenerMore.

(** ** One subscription *)

Section SubscriptionFacts.

Import Subscription.

Context {World : Type} {CC : Listener.ChainClient World}.
Variable SubscribeFilterLogs :
  Listener.ClientRef -> World -> result SubRef * World.
Variable Unsubscribe : SubRef -> World -> World.
Variable handleLog : Log -> World -> World.

Local Abbreviation subscribeLoop := (Subscription.subscribeLoop handleLog).
Local Abbreviation subscribe :=
  (Subscription.subscribe SubscribeFilterLogs Unsubscribe handleLog).

Lemma handledLogs_app tr1 tr2 :
  handledLogs (tr1 ++ tr2) = handledLogs tr1 ++ handledLogs tr2.
Proof.
  induction tr1 as [| [] tr1 IH]; simpl; by rewrite ?IH.
Qed.

Lemma logsOf_app s1 s2 : logsOf (s1 ++ s2) = logsOf s1 ++ logsOf s2.
Proof.
  induction s1 as [| [] s1 IH]; simpl; by rewrite ?IH.
Qed.

Lemma subscription_count_app P tr1 tr2 :
  count P (tr1 ++ tr2) = (count P tr1 + count P tr2)%nat.
Proof.
  induction tr1 as [| e tr1 IH]; simpl; [ done | rewrite IH; lia ].
Qed.

Lemma loopEvent_count c P tr :
  (forall e, loopEvent c e -> P e = false) ->
  Forall (loopEvent c) tr ->
  count P tr = 0%nat.
Proof.
  intros HP Htr. induction Htr as [| e tr He _ IH]; simpl; [ done |].
  by rewrite (HP e He), IH.
Qed.

Lemma loopEvent_In c tr e :
  Forall (loopEvent c) tr -> In e tr -> loopEvent c e.
Proof.
  intros Htr Hin. rewrite Forall_forall in Htr.
  apply Htr. by apply list_elem_of_In.
Qed.

(** The loop of [subscribe] on a listener that has a client: it hands the
    logs to [handleLog] in the order of their arrival up to the case that
    ends it, and returns what that case says. *)
Lemma subscribeLoop_spec url c selected (w : World) :
  exists out w' tr before after,
    subscribeLoop (Listener.mkListener url (Some c)) selected w
      = Some (out, w', tr) /\
    selected = before ++ after /\
    Forall goesOn before /\
    handledLogs tr = logsOf before /\
    count isHealthy tr = healthTicks before /\
    (out = None -> after = []) /\
    (forall r, out = Some r ->
       exists ending rest, after = ending :: rest /\
         match ending with
         | SubErr err => r = Err ("subscription error: " ++ err)%string
         | LogArrived _ => False
         | HealthTick =>
             r = Err "health check failed"%string /\
             exists e tr0, tr = tr0 ++ [EvBlockNumber c (Err e)]
         | CtxDone => r = Ok tt
         end) /\
    Forall (loopEvent c) tr.
Proof.
  revert w. induction selected as [| sel selected IH]; intros w.
  - exists None, w, [], [], []. simpl. split_and!; try done.
  - destruct sel as [err | vLog | |].
    + exists (Some (Err ("subscription error: " ++ err)%string)), w, [],
        [], (SubErr err :: selected).
      simpl. split_and!; try done.
      intros r [= <-]. by eexists _, _.
    + destruct (IH (handleLog vLog w))
        as (out & w' & tr & before & after & Hrun & -> & Hgo & Hlogs & Hh
            & Hnone & Hsome & Hev).
      exists out, w', (EvHandleLog vLog :: tr), (LogArrived vLog :: before),
        after.
      cbn [Subscription.subscribeLoop]. unfold bind, callHandleLog.
      rewrite Hrun. simpl. split_and!; try done.
      * by constructor.
      * by rewrite Hlogs.
      * intros r Hr. destruct (Hsome r Hr) as (ending & rest & -> & Hend).
        exists ending, rest. split; [ done |].
        destruct ending; try done.
        destruct Hend as (-> & e & tr0 & ->). split; [ done |].
        by exists e, (EvHandleLog vLog :: tr0).
      * by constructor.
    + cbn [Subscription.subscribeLoop]. unfold bind, healthCheck.
      cbn [Listener.client]. unfold bind, callBlockNumber.
      destruct (Listener.BlockNumber c w) as [[n | e] w1] eqn:Hbn.
      * destruct (IH w1)
          as (out & w' & tr & before & after & Hrun & -> & Hgo & Hlogs & Hh
              & Hnone & Hsome & Hev).
        exists out, w', (EvBlockNumber c (Ok n) :: tr), (HealthTick :: before),
          after.
        unfold ret. simpl. rewrite Hrun. simpl. split_and!; try done.
        -- by constructor.
        -- by rewrite Hh.
        -- intros r Hr. destruct (Hsome r Hr) as (ending & rest & -> & Hend).
           exists ending, rest. split; [ done |].
           destruct ending; try done.
           destruct Hend as (-> & e & tr0 & ->). split; [ done |].
           by exists e, (EvBlockNumber c (Ok n) :: tr0).
        -- by constructor.
      * exists (Some (Err "health check failed"%string)), w1,
          [EvBlockNumber c (Err e)], [], (HealthTick :: selected).
        unfold ret. simpl. split_and!; try done.
        -- intros r [= <-]. eexists _, _. split; [ done |].
           split; [ done |]. by exists e, [].
        -- by repeat constructor.
    + exists (Some (Ok tt)), w, [], [], (CtxDone :: selected).
      simpl. split_and!; try done.
      intros r [= <-]. by eexists _, _.
Qed.

(** X22: a subscription that is granted hands the logs to [handleLog] one
    at a time, in the order of their arrival, up to the first case that
    ends it: every case before it is a log or a health check that passed,
    and the case itself is an error of the subscription, a health check
    that failed or the end of the context, which decides what is returned;
    no log that arrives after is handled.  While the loop has not returned
    every case taken so far was a log or a passed health check.  When the
    subscription is refused no log is handled at all.  Every health check
    asks the listener's own client. *)
Theorem subscribe_handles_logs_until_it_ends url c selected (w : World) :
  exists out w' tr before after,
    subscribe (Listener.mkListener url (Some c)) selected w
      = Some (out, w', tr) /\
    selected = before ++ after /\
    Forall goesOn before /\
    handledLogs tr = logsOf before /\
    count isHealthy tr = healthTicks before /\
    (out = None -> after = [] /\ count isSubscribed tr = 1%nat) /\
    (forall r, out = Some r ->
       (exists err,
          tr = [EvSubscribeFilterLogs c (Err err)] /\ before = [] /\
          r = Err ("failed to subscribe: " ++ err)%string) \/
       (exists sub ending rest,
          In (EvSubscribeFilterLogs c (Ok sub)) tr /\
          after = ending :: rest /\
          match ending with
          | SubErr err => r = Err ("subscription error: " ++ err)%string
          | LogArrived _ => False
          | HealthTick =>
              r = Err "health check failed"%string /\
              exists e, In (EvBlockNumber c (Err e)) tr
          | CtxDone => r = Ok tt
          end)) /\
    (count isSubscribed tr = 0%nat -> before = []) /\
    (forall c' r, In (EvBlockNumber c' r) tr -> c' = c).
Proof.
  unfold Subscription.subscribe. cbn [Listener.client].
  unfold bind at 1. unfold callSubscribeFilterLogs.
  destruct (SubscribeFilterLogs c w) as [[sub | err] w1] eqn:Hsub.
  - destruct (subscribeLoop_spec url c selected w1)
      as (out & w' & tr & before & after & Hrun & -> & Hgo & Hlogs & Hh
          & Hnone & Hsome & Hev).
    unfold bind at 1. rewrite Hrun.
    assert (Hs : count isSubscribed tr = 0%nat).
    { eapply loopEvent_count; [| exact Hev ]. by intros []. }
    destruct out as [r |].
    + exists (Some r), (Unsubscribe sub w'),
        (EvSubscribeFilterLogs c (Ok sub) :: tr ++ [EvUnsubscribe sub]),
        before, after.
      unfold bind, callUnsubscribe, ret. simpl. rewrite ?app_nil_r.
      split_and!; try done.
      * rewrite handledLogs_app. simpl. by rewrite app_nil_r.
      * rewrite subscription_count_app. simpl. lia.
      * intros r' [= <-]. right.
        destruct (Hsome r eq_refl) as (ending & rest & -> & Hend).
        exists sub, ending, rest. split_and!; [ by left | done |].
        destruct ending; try done.
        destruct Hend as (-> & e & tr0 & ->). split; [ done |].
        exists e. right. apply in_app_iff. left. apply in_app_iff. right.
        by left.
      * intros c' r' [Heq | Hin]; [ discriminate |].
        apply in_app_iff in Hin as [Hin | [Heq | []]]; [| discriminate ].
        by apply (loopEvent_In _ _ _ Hev) in Hin.
    + exists None, w', (EvSubscribeFilterLogs c (Ok sub) :: tr), before, after.
      unfold ret. simpl. rewrite ?app_nil_r.
      split_and!; try done.
      * intros _. split; [ by apply Hnone | by rewrite Hs ].
      * intros c' r' [Heq | Hin]; [ discriminate |].
        by apply (loopEvent_In _ _ _ Hev) in Hin.
  - exists (Some (Err ("failed to subscribe: " ++ err)%string)), w1,
      [EvSubscribeFilterLogs c (Err err)], [], selected.
    unfold ret. simpl. split_and!; try done.
    + intros r [= <-]. left. by exists err.
    + intros c' r' [Heq | []]. discriminate.
Qed.

(** X23: the deferred [Unsubscribe] of [subscribe] runs exactly when the
    function returns after the subscription was granted: it is then the
    last call, made once, on the subscription that was granted; a refused
    subscription is reported as an error without it, and a loop that has
    not returned has not run it.  The function returns nil only when the
    end of the context was the case taken; after a failed health check the
    failed answer is the last one before the [Unsubscribe]. *)
Theorem subscribe_unsubscribes_on_return url c selected (w : World) :
  exists out w' tr,
    subscribe (Listener.mkListener url (Some c)) selected w
      = Some (out, w', tr) /\
    (forall sub,
       In (EvUnsubscribe sub) tr ->
       out <> None /\
       exists tr0, tr = EvSubscribeFilterLogs c (Ok sub) :: tr0
                          ++ [EvUnsubscribe sub] /\
                   count isUnsubscribe tr0 = 0%nat) /\
    (forall sub,
       In (EvSubscribeFilterLogs c (Ok sub)) tr ->
       out <> None ->
       In (EvUnsubscribe sub) tr) /\
    (forall err,
       In (EvSubscribeFilterLogs c (Err err)) tr ->
       out = Some (Err ("failed to subscribe: " ++ err)%string) /\
       tr = [EvSubscribeFilterLogs c (Err err)]) /\
    (out = Some (Ok tt) -> In CtxDone selected) /\
    (out = Some (Err "health check failed"%string) ->
     exists sub e tr0,
       tr = tr0 ++ [EvBlockNumber c (Err e); EvUnsubscribe sub]).
Proof.
  unfold Subscription.subscribe. cbn [Listener.client].
  unfold bind at 1. unfold callSubscribeFilterLogs.
  destruct (SubscribeFilterLogs c w) as [[sub | err] w1] eqn:Hsub.
  - destruct (subscribeLoop_spec url c selected w1)
      as (out & w' & tr & before & after & Hrun & -> & _ & Hlogs & _
          & Hnone & Hsome & Hev).
    unfold bind at 1. rewrite Hrun.
    assert (Hu : count isUnsubscribe tr = 0%nat).
    { eapply loopEvent_count; [| exact Hev ]. by intros []. }
    destruct out as [r |].
    + exists (Some r), (Unsubscribe sub w'),
        (EvSubscribeFilterLogs c (Ok sub) :: tr ++ [EvUnsubscribe sub]).
      unfold bind, callUnsubscribe, ret. simpl. rewrite ?app_nil_r.
      split; [ done |]. split_and!.
      * intros sub' [Heq | Hin]; [ discriminate |].
        apply in_app_iff in Hin as [Hin | [Heq | []]].
        { by apply (loopEvent_In _ _ _ Hev) in Hin. }
        injection Heq as <-. split; [ done |]. by exists tr.
      * intros sub' [Heq | Hin] _.
        { injection Heq as <-. right. apply in_app_iff. right. by left. }
        apply in_app_iff in Hin as [Hin | [Heq | []]]; [| discriminate ].
        by apply (loopEvent_In _ _ _ Hev) in Hin.
      * intros err [Heq | Hin]; [ discriminate |].
        apply in_app_iff in Hin as [Hin | [Heq | []]]; [| discriminate ].
        by apply (loopEvent_In _ _ _ Hev) in Hin.
      * intros [= ->].
        destruct (Hsome _ eq_refl) as (ending & rest & -> & Hend).
        destruct ending; try done; try (by destruct Hend).
        apply in_app_iff. right. by left.
      * intros [= ->].
        destruct (Hsome _ eq_refl) as (ending & rest & -> & Hend).
        destruct ending as [err | vLog | |]; simpl in Hend; try done.
        destruct Hend as (_ & e & tr0 & ->).
        exists sub, e, (EvSubscribeFilterLogs c (Ok sub) :: tr0).
        simpl. by rewrite <- app_assoc.
    + exists None, w', (EvSubscribeFilterLogs c (Ok sub) :: tr).
      unfold ret. simpl. rewrite ?app_nil_r.
      split; [ done |]. split_and!; try done.
      * intros sub' [Heq | Hin]; [ discriminate |].
        by apply (loopEvent_In _ _ _ Hev) in Hin.
      * intros err [Heq | Hin]; [ discriminate |].
        by apply (loopEvent_In _ _ _ Hev) in Hin.
  - exists (Some (Err ("failed to subscribe: " ++ err)%string)), w1,
      [EvSubscribeFilterLogs c (Err err)].
    unfold ret. simpl. split; [ done |]. split_and!; try done.
    + intros sub [Heq | []]. discriminate.
    + intros sub [Heq | []]. discriminate.
    + intros err' [Heq | []]. by injection Heq as <-.
Qed.

End SubscriptionFacts.

(** ** Decoding the event and classifying the token *)

Section ContractsFacts.

Import Contracts.

Lemma SetBytes_from acc buf :
  0 <= acc ->
  0 <= fold_left (fun acc b => acc * 256 + Z.of_N (Byte.to_N b)) buf acc
    < (acc + 1) * 256 ^ Z.of_nat (length buf).
Proof.
  revert acc. induction buf as [| b buf IH]; intros acc Hacc.
  - simpl. lia.
  - cbn [fold_left length].
    assert (Hb : 0 <= Z.of_N (Byte.to_N b) < 256)
      by (pose proof (Byte.to_N_bounded b); lia).
    specialize (IH (acc * 256 + Z.of_N (Byte.to_N b)) ltac:(lia)).
    rewrite Nat2Z.inj_succ, Z.pow_succ_r by lia.
    assert (Hpow : 0 < 256 ^ Z.of_nat (length buf))
      by (apply Z.pow_pos_nonneg; lia).
    split; [ lia |].
    eapply Z.lt_le_trans; [ apply IH |].
    replace ((acc + 1) * (256 * 256 ^ Z.of_nat (length buf)))
      with ((acc * 256 + 256) * 256 ^ Z.of_nat (length buf)) by ring.
    apply Z.mul_le_mono_nonneg_r; lia.
Qed.

Lemma SetBytes_bound buf :
  0 <= SetBytes buf < 256 ^ Z.of_nat (length buf).
Proof.
  unfold SetBytes. pose proof (SetBytes_from 0 buf ltac:(lia)) as H.
  by rewrite Z.mul_1_l in H.
Qed.

Lemma BytesToAddress_length b : length (BytesToAddress b) = 20%nat.
Proof.
  unfold BytesToAddress, AddressLength.
  destruct (Nat.ltb_spec 20 (length b)).
  - rewrite length_app, length_replicate, length_drop. lia.
  - rewrite length_app, length_replicate. lia.
Qed.

Lemma BytesToAddress_exact b : length b = 20%nat -> BytesToAddress b = b.
Proof.
  intros Hlen. unfold BytesToAddress, AddressLength. rewrite Hlen.
  rewrite Nat.ltb_irrefl, Hlen. reflexivity.
Qed.

Lemma slice_inside lo hi data :
  (lo <= hi)%nat -> (hi <= length data)%nat ->
  slice lo hi data = Some (take (hi - lo) (drop lo data)) /\
  length (take (hi - lo) (drop lo data)) = (hi - lo)%nat.
Proof.
  intros H1 H2. unfold slice.
  destruct (Nat.leb_spec lo hi); [| lia ].
  destruct (Nat.leb_spec hi (length data)); [| lia ].
  split; [ done |]. rewrite length_take, length_drop. lia.
Qed.

Lemma slice_middle pre mid post :
  slice (length pre) (length pre + length mid) (pre ++ mid ++ post) = Some mid.
Proof.
  destruct (slice_inside (length pre) (length pre + length mid)
              (pre ++ mid ++ post)) as [-> _].
  - lia.
  - rewrite !length_app. lia.
  - f_equal. rewrite drop_app_length.
    replace (length pre + length mid - length pre)%nat with (length mid)
      by lia.
    by rewrite take_app_length.
Qed.

Lemma slice_at lo hi pre mid post :
  length pre = lo -> (lo + length mid)%nat = hi ->
  slice lo hi (pre ++ mid ++ post) = Some mid.
Proof. intros <- <-. apply slice_middle. Qed.

Lemma creatorType_form template :
  creatorType template = (template / 1024) mod 64.
Proof.
  unfold creatorType. change 0x3F with (Z.ones 6).
  rewrite Z.land_ones by lia. by rewrite Z.shiftr_div_pow2 by lia.
Qed.

Lemma ParseLiquidityAddedEvent_short data topics :
  (length data < 128)%nat ->
  ParseLiquidityAddedEvent data topics =
    Some (Err ("invalid data length: " +:+ pretty (length data))).
Proof.
  intros Hshort. unfold ParseLiquidityAddedEvent.
  destruct (Nat.ltb_spec (length data) 128); [ done | lia ].
Qed.

Lemma ParseLiquidityAddedEvent_long data topics :
  (128 <= length data)%nat ->
  ParseLiquidityAddedEvent data topics =
    Some (Ok (mkLiquidityAdded
                (take 20 (drop 12 data)) (SetBytes (take 32 (drop 32 data)))
                (take 20 (drop 76 data)) (SetBytes (take 32 (drop 96 data))))).
Proof.
  intros Hlong. unfold ParseLiquidityAddedEvent.
  destruct (Nat.ltb_spec (length data) 128); [ lia |].
  destruct (slice_inside 12 32 data ltac:(lia) ltac:(lia)) as [-> Hb].
  destruct (slice_inside 32 64 data ltac:(lia) ltac:(lia)) as [-> _].
  destruct (slice_inside 76 96 data ltac:(lia) ltac:(lia)) as [-> Hq].
  destruct (slice_inside 96 128 data ltac:(lia) ltac:(lia)) as [-> _].
  by rewrite !BytesToAddress_exact.
Qed.

(** X13: [ParseLiquidityAddedEvent] never panics; it returns its error
    exactly for data shorter than 128 bytes, and any longer data give an
    event with two 20-byte addresses and two amounts below [2^256]. *)
Theorem ParseLiquidityAddedEvent_total data topics :
  exists r,
    ParseLiquidityAddedEvent data topics = Some r /\
    ((length data < 128)%nat ->
     r = Err ("invalid data length: " +:+ pretty (length data))) /\
    ((128 <= length data)%nat ->
     exists event,
       r = Ok event /\
       length (Base event) = 20%nat /\ length (Quote event) = 20%nat /\
       0 <= Offers event < 2 ^ 256 /\ 0 <= Funds event < 2 ^ 256).
Proof.
  unfold ParseLiquidityAddedEvent.
  destruct (Nat.ltb_spec (length data) 128) as [Hshort | Hlong].
  - eexists. split; [ reflexivity |]. split; [ done | lia ].
  - destruct (slice_inside 12 32 data ltac:(lia) ltac:(lia)) as [-> _].
    destruct (slice_inside 32 64 data ltac:(lia) ltac:(lia)) as [-> Ho].
    destruct (slice_inside 76 96 data ltac:(lia) ltac:(lia)) as [-> _].
    destruct (slice_inside 96 128 data ltac:(lia) ltac:(lia)) as [-> Hf].
    eexists. split; [ reflexivity |]. split; [ lia |].
    intros _. eexists. split; [ reflexivity |]. cbn [Base Quote Offers Funds].
    split_and!; try apply BytesToAddress_length.
    + apply SetBytes_bound.
    + pose proof (SetBytes_bound (take (64 - 32) (drop 32 data))) as Hb.
      rewrite Ho in Hb. exact (proj2 Hb).
    + apply SetBytes_bound.
    + pose proof (SetBytes_bound (take (128 - 96) (drop 96 data))) as Hb.
      rewrite Hf in Hb. exact (proj2 Hb).
Qed.

(** X14: the event is read at fixed offsets of the data: the base token in
    bytes 12-31, the offers in bytes 32-63, the quote token in bytes 76-95
    and the funds in bytes 96-127, the amounts as big-endian integers.
    The twelve bytes in front of each address, whatever follows byte 127
    and the topics are not read. *)
Theorem ParseLiquidityAddedEvent_layout pad1 base offers pad2 quote funds
    rest topics :
  length pad1 = 12%nat -> length base = 20%nat -> length offers = 32%nat ->
  length pad2 = 12%nat -> length quote = 20%nat -> length funds = 32%nat ->
  ParseLiquidityAddedEvent
    (pad1 ++ base ++ offers ++ pad2 ++ quote ++ funds ++ rest) topics =
    Some (Ok (mkLiquidityAdded base (SetBytes offers) quote (SetBytes funds))).
Proof.
  intros Hp1 Hb Ho Hp2 Hq Hf. unfold ParseLiquidityAddedEvent.
  destruct (Nat.ltb_spec
              (length (pad1 ++ base ++ offers ++ pad2 ++ quote ++ funds
                       ++ rest)) 128) as [Hshort | _].
  { rewrite !length_app in Hshort. lia. }
  rewrite (slice_at 12 32 pad1 base
             (offers ++ pad2 ++ quote ++ funds ++ rest)) by lia.
  replace (pad1 ++ base ++ offers ++ pad2 ++ quote ++ funds ++ rest)
    with ((pad1 ++ base) ++ offers ++ pad2 ++ quote ++ funds ++ rest)
    by (by rewrite <- app_assoc).
  rewrite (slice_at 32 64 (pad1 ++ base) offers
             (pad2 ++ quote ++ funds ++ rest))
    by (rewrite ?length_app; lia).
  replace ((pad1 ++ base) ++ offers ++ pad2 ++ quote ++ funds ++ rest)
    with ((pad1 ++ base ++ offers ++ pad2) ++ quote ++ funds ++ rest)
    by (by rewrite <- !app_assoc).
  rewrite (slice_at 76 96 (pad1 ++ base ++ offers ++ pad2) quote
             (funds ++ rest))
    by (rewrite ?length_app; lia).
  replace ((pad1 ++ base ++ offers ++ pad2) ++ quote ++ funds ++ rest)
    with ((pad1 ++ base ++ offers ++ pad2 ++ quote) ++ funds ++ rest)
    by (by rewrite <- !app_assoc).
  rewrite (slice_at 96 128 (pad1 ++ base ++ offers ++ pad2 ++ quote) funds
             rest)
    by (rewrite ?length_app; lia).
  by rewrite !BytesToAddress_exact.
Qed.

(** X15: the creator type of a template is its bits 10 to 15: a number
    from 0 to 63, equal to [(template / 1024) mod 64], that [Int64] reads
    exactly and that does not depend on the bits from 16 on. *)
Theorem creatorType_is_bits_10_to_15 template :
  0 <= creatorType template < 64 /\
  creatorType template = (template / 1024) mod 64 /\
  BigInt.Int64 (creatorType template) = creatorType template /\
  forall k, creatorType (template + k * 65536) = creatorType template.
Proof.
  pose proof creatorType_form as Hform.
  assert (Hrange : 0 <= creatorType template < 64).
  { rewrite Hform. apply Z.mod_pos_bound. lia. }
  split_and!; [ lia | lia | apply Hform | |].
  - apply Int64_small. lia.
  - intros k. rewrite !Hform.
    replace (template + k * 65536) with (template + (k * 64) * 1024) by ring.
    rewrite Z.div_add by lia. by rewrite Z.mod_add by lia.
Qed.

Context {World : Type} {TM : TokenManagerClient World}.

(** X16: [IsTaxToken] makes at most one contract call; whenever it returns
    an error it answers false; and it answers true only when the ABI was
    parsed, the call was packed, the contract call succeeded and its output
    unpacked to a template whose bits 10 to 15 hold 5. *)
Theorem IsTaxToken_needs_tax_template tokenAddress (w : World) :
  exists isTax err w' tr,
    IsTaxToken tokenAddress w = ((isTax, err), w', tr) /\
    (length tr <= 1)%nat /\
    (err <> None -> isTax = false /\ (tr = [] -> w' = w)) /\
    (err = None ->
     exists data result template,
       PackTokenInfos tokenAddress = Ok data /\
       CallContract data w = (Ok result, w') /\
       tr = [EvCallContract data (Ok result)] /\
       UnpackTokenInfos result = Ok template /\
       isTax = ((template / 1024) mod 64 =? 5)).
Proof.
  unfold IsTaxToken.
  destruct abiJSON as [u | e0].
  2: { do 4 eexists. split; [ reflexivity |]. simpl.
       split_and!; [ lia | done | done ]. }
  destruct (PackTokenInfos tokenAddress) as [data | e1].
  2: { do 4 eexists. split; [ reflexivity |]. simpl.
       split_and!; [ lia | done | done ]. }
  destruct (CallContract data w) as [[result | e2] w'] eqn:Hcall.
  2: { do 4 eexists. split; [ reflexivity |]. simpl.
       split_and!; [ lia | done | done ]. }
  destruct (UnpackTokenInfos result) as [template | e3] eqn:Hunpack.
  2: { do 4 eexists. split; [ reflexivity |]. simpl.
       split_and!; [ lia | done | done ]. }
  do 4 eexists. split; [ reflexivity |]. simpl.
  split_and!; [ lia | done |].
  intros _. exists data, result, template. split_and!; try done.
  rewrite Int64_small; rewrite creatorType_form; [ done |].
  pose proof (Z.mod_pos_bound (template / 1024) 64 ltac:(lia)). lia.
Qed.

End ContractsFacts.

Lemma ParseLiquidityAddedEvent_layout_witness :
  Contracts.ParseLiquidityAddedEvent demoData [] =
    Some (Ok (Contracts.mkLiquidityAdded demoToken
                (Contracts.SetBytes demoOffers) demoQuote
                (Contracts.SetBytes demoFunds))) /\
  Contracts.SetBytes demoOffers = 5 /\
  Contracts.SetBytes demoFunds = 2 ^ 256 - 1.
Proof.
  split; [| split; reflexivity ].
  apply (ParseLiquidityAddedEvent_layout (replicate 12 Byte.x00) demoToken
           demoOffers (replicate 12 Byte.x00) demoQuote demoFunds
           [Byte.x01; Byte.x02; Byte.x03] []); reflexivity.
Defined.

(** ** Handling one log *)

Section HandlerFacts.

Import Handler.

Context {World : Type} {TE : TradeExecutor World}
  {TM : Contracts.TokenManagerClient World} {B : Buyer World}.
Variable keccak256 : list Byte.byte -> list Byte.byte.

Local Abbreviation buyAndRegister := (buyAndRegister keccak256).

(** X17: [handleLog] goes on to buy exactly when the data hold at least 128
    bytes and [IsTaxToken] answers true without error for the base token,
    which is bytes 12-31 of the data; up to that point it has only made the
    calls of [IsTaxToken], and for data that are too short it has called
    nothing at all. *)
Theorem handleLog_buys_only_tax_tokens data topics (w : World) :
  exists chosen w' tr,
    selectToken data topics w = Some (chosen, w', tr) /\
    Forall (fun e => exists c, e = EvClassify c) tr /\
    ((length data < 128)%nat -> chosen = None /\ tr = [] /\ w' = w) /\
    (forall token,
       chosen = Some token <->
       (128 <= length data)%nat /\
       token = take 20 (drop 12 data) /\
       fst (fst (Contracts.IsTaxToken token w)) = (true, None)).
Proof.
  unfold selectToken.
  destruct (Nat.lt_ge_cases (length data) 128) as [Hshort | Hlong].
  - rewrite ParseLiquidityAddedEvent_short by done. unfold ret.
    do 3 eexists. split; [ reflexivity |].
    split_and!; [ constructor | done |].
    intros token. split; [ done | lia ].
  - rewrite ParseLiquidityAddedEvent_long by done.
    cbn [Contracts.Base]. unfold bind, callIsTaxToken, ret.
    destruct (Contracts.IsTaxToken (take 20 (drop 12 data)) w)
      as [[[isTax err] w'] tr] eqn:Hcls.
    assert (Htr : Forall (fun e => exists c, e = EvClassify c)
                    (map EvClassify tr ++ [])).
    { rewrite app_nil_r. apply Forall_forall. intros e Hin.
      apply list_elem_of_fmap in Hin as (c & -> & _). by exists c. }
    cbn [fst snd]. destruct err as [e |].
    + do 3 eexists. split; [ reflexivity |].
      split_and!; [ done | lia |].
      intros token. split; [ done |].
      intros (_ & -> & Hres). rewrite Hcls in Hres. simpl in Hres.
      congruence.
    + destruct isTax; cbn [negb].
      * do 3 eexists. split; [ reflexivity |].
        split_and!; [ done | lia |].
        intros token. split.
        -- intros [= <-]. by rewrite Hcls.
        -- by intros (_ & -> & _).
      * do 3 eexists. split; [ reflexivity |].
        split_and!; [ done | lia |].
        intros token. split; [ done |].
        intros (_ & -> & Hres). rewrite Hcls in Hres. simpl in Hres.
        congruence.
Qed.

(** X18: the goroutine of a wallet calls [BuyToken] exactly once, first,
    with the wallet's own swapper and amount.  A failed buy ends it there,
    with the monitor untouched.  The monitor changes only when the buy
    succeeded, a monitor is attached and the wallet's balance of the token
    reads positive; it then holds, under the key of the wallet's index and
    the event's token, a fresh position of that balance for that wallet. *)
Theorem buyAndRegister_registers_after_buy monitor idx wallet base
    (w : World) :
  exists r w1 monitor' w' rest,
    BuyToken (walletSwapper wallet) base (BuyAmountWei wallet) w = (r, w1) /\
    buyAndRegister monitor idx wallet base w =
      Some (monitor', w',
            EvBuyToken (walletSwapper wallet) base (BuyAmountWei wallet) r
            :: rest) /\
    Forall (fun e => isBuy e = false) rest /\
    (is_ok r = false -> monitor' = monitor /\ rest = [] /\ w' = w1) /\
    (monitor' <> monitor ->
     exists m m' balance price,
       is_ok r = true /\ monitor = Some m /\ monitor' = Some m' /\
       fst (GetTokenBalance (walletSwapper wallet) base w1) = Ok balance /\
       0 < balance /\
       positions m' !! Key.positionKey keccak256 idx base =
         Some (mkPosition base price balance balance idx
                 (walletSwapper wallet) false false false)).
Proof.
  unfold Handler.buyAndRegister, bind at 1, callBuyToken.
  destruct (BuyToken (walletSwapper wallet) base (BuyAmountWei wallet) w)
    as [[tx | e] w1] eqn:Hbuy.
  2: { unfold ret. do 5 eexists. split; [ reflexivity |].
       split; [ reflexivity |]. by split_and!. }
  destruct monitor as [m |].
  2: { unfold ret. do 5 eexists. split; [ reflexivity |].
       split; [ reflexivity |]. by split_and!. }
  unfold bind, emit, callMonitor, ret.
  destruct (AddPosition_cases keccak256 m idx (walletSwapper wallet) base
              (BuyAmountWei wallet) w1)
    as (m' & w' & tr & Hadd & Hcases).
  rewrite Hadd.
  do 5 eexists. split; [ reflexivity |]. split; [ reflexivity |].
  split_and!.
  - cbn [app]. constructor; [ done |]. rewrite app_nil_r.
    apply Forall_forall. intros e Hin.
    apply list_elem_of_fmap in Hin as (c & -> & _). done.
  - done.
  - intros Hchanged.
    destruct Hcases as [[-> _] | (balance & price & Hb & Hpos & _ & Hm')];
      [ done |].
    exists m, m', balance, price. split_and!; try done.
    rewrite Hm'. apply lookup_insert_eq.
Qed.

End HandlerFacts.

(** ** The wallets of the configuration *)

Section ConfigFacts.

Import Config.

Variable TrimSpace : string -> string.

Local Abbreviation buyAmountAt := (buyAmountAt TrimSpace).
Local Abbreviation loadWallets := (loadWallets TrimSpace).
Local Abbreviation Wallets := (Wallets TrimSpace).

Example Split_keys : Split "k1,,k3" "," = ["k1"; ""; "k3"]%string.
Proof. reflexivity. Qed.

Example Split_empty : Split "" "," = [""%string].
Proof. reflexivity. Qed.

Lemma eqb_empty_false s : String.eqb s "" = false <-> s <> ""%string.
Proof. by rewrite String.eqb_neq. Qed.

Lemma buyAmountAt_nonblank i buyAmounts :
  buyAmountAt i buyAmounts <> ""%string.
Proof.
  unfold Config.buyAmountAt. destruct (buyAmounts !! i) as [amount |];
    [| done ].
  destruct (String.eqb (TrimSpace amount) "") eqn:Heq; simpl; [ done |].
  by apply eqb_empty_false.
Qed.

Lemma loadWallets_wellformed i privateKeys buyAmounts :
  Forall (fun wc => PrivateKey wc <> ""%string /\
                    BuyAmountBNB wc <> ""%string /\
                    exists field, field ∈ privateKeys /\
                                  PrivateKey wc = TrimSpace field)
         (loadWallets i privateKeys buyAmounts) /\
  (length (loadWallets i privateKeys buyAmounts) <= length privateKeys)%nat.
Proof.
  revert i. induction privateKeys as [| pk privateKeys IH]; intros i.
  - split; [ constructor | done ].
  - cbn [Config.loadWallets].
    destruct (IH (S i)) as [Hall Hlen].
    assert (Hall' : Forall (fun wc => PrivateKey wc <> ""%string /\
                      BuyAmountBNB wc <> ""%string /\
                      exists field, field ∈ pk :: privateKeys /\
                                    PrivateKey wc = TrimSpace field)
                      (loadWallets (S i) privateKeys buyAmounts)).
    { eapply Forall_impl; [ exact Hall |].
      intros wc (H1 & H2 & field & Hin & Heq). split_and!; try done.
      exists field. split; [ by apply list_elem_of_further | done ]. }
    destruct (String.eqb (TrimSpace pk) "") eqn:Hblank.
    + split; [ done | simpl; lia ].
    + split; [| simpl; lia ].
      constructor; [| done ]. cbn [PrivateKey BuyAmountBNB].
      split_and!; [ by apply eqb_empty_false | apply buyAmountAt_nonblank |].
      exists pk. split; [ apply list_elem_of_here | done ].
Qed.

(** X19: every wallet of the configuration has a private key that is not
    empty, the trimmed text of one of the comma-separated fields of
    [PRIVATE_KEYS], and an amount text that is not empty; there are at most
    as many wallets as fields; and when [PRIVATE_KEYS] is unset or empty
    there is no wallet at all (trimming the empty text gives the empty
    text). *)
Theorem Wallets_have_keys env :
  Forall (fun wc => PrivateKey wc <> ""%string /\
                    BuyAmountBNB wc <> ""%string /\
                    exists field,
                      field ∈ Split (getEnv env "PRIVATE_KEYS" "") "," /\
                      PrivateKey wc = TrimSpace field)
         (Wallets env) /\
  (length (Wallets env)
   <= length (Split (getEnv env "PRIVATE_KEYS" "") ","))%nat /\
  (TrimSpace "" = ""%string -> Getenv env "PRIVATE_KEYS" = ""%string ->
   Wallets env = []).
Proof.
  unfold Config.Wallets.
  destruct (loadWallets_wellformed 0
              (Split (getEnv env "PRIVATE_KEYS" "") ",")
              (Split (getEnv env "BUY_AMOUNTS_BNB" "") ","))
    as [Hall Hlen].
  split_and!; [ done | done |].
  intros Htrim Hunset. unfold getEnv. rewrite Hunset. simpl.
  by rewrite Htrim.
Qed.

(** X20: the amount of a wallet is looked up in [BUY_AMOUNTS_BNB] at the
    position its key has among all the fields of [PRIVATE_KEYS], blank
    fields counted: a key that is not blank and follows [n] fields becomes
    a wallet whose amount is the trimmed [n]-th amount, or "0.1" when that
    amount is missing or blank. *)
Theorem wallet_amount_follows_field_index privateKeys buyAmounts before pk
    after :
  privateKeys = before ++ pk :: after ->
  TrimSpace pk <> ""%string ->
  mkWalletConfig (TrimSpace pk) (buyAmountAt (length before) buyAmounts)
    ∈ loadWallets 0 privateKeys buyAmounts.
Proof.
  intros -> Hpk.
  assert (Hgen : forall i,
            mkWalletConfig (TrimSpace pk)
              (buyAmountAt (i + length before) buyAmounts)
              ∈ loadWallets i (before ++ pk :: after) buyAmounts).
  { induction before as [| b before IH]; intros i.
    - cbn [app Config.loadWallets length].
      apply eqb_empty_false in Hpk. rewrite Hpk.
      rewrite Nat.add_0_r. apply list_elem_of_here.
    - cbn [app Config.loadWallets length].
      replace (i + S (length before))%nat with (S i + length before)%nat
        by lia.
      destruct (String.eqb (TrimSpace b) ""); [ apply IH |].
      apply list_elem_of_further, IH. }
  apply (Hgen 0%nat).
Qed.

End ConfigFacts.

Lemma wallet_amount_follows_field_index_witness :
  Config.loadWallets (fun s => s) 0 (Config.Split "k1,,k3" ",")
    (Config.Split "1,2,3" ",") =
    [Config.mkWalletConfig "k1" "1"; Config.mkWalletConfig "k3" "3"] /\
  Config.mkWalletConfig "k3" "3"
    ∈ Config.loadWallets (fun s => s) 0 (Config.Split "k1,,k3" ",")
        (Config.Split "1,2,3" ",").
Proof.
  split; [ reflexivity |].
  apply (wallet_amount_follows_field_index (fun s => s)
           (Config.Split "k1,,k3" ",") (Config.Split "1,2,3" ",")
           ["k1"%string; ""%string] "k3"%string []).
  - reflexivity.
  - discriminate.
Defined.
